(** * DIT-Monitor-Pro: telemetry simulation and threshold alerting

    A shallow embedding of the engine of the dashboard:
    - [types.ts]: the records [MetricPoint], [Device], [Alert];
    - [utils/mockData]: [generateMetricPoint], [createInitialDevices],
      [updateDevices];
    - [App]: the alert-evaluation effect, the merge into [activeAlerts],
      [handleDismissAlert] and the threshold input handlers; the mount
      effect, the [stats] and [pieData] values, [selectedDevice] and the
      filtered and sorted [processedDevices];
    - [services/geminiService]: the retry loop of [getSystemInsights] and
      the summary it sends;
    - [components/GeminiInsights]: [fetchInsight] and the cooldown timer.

    Conventions of the embedding.
    - Metric values and random rolls are JavaScript numbers; they are only
      added, scaled, clamped and compared, and are modelled as exact
      rationals [Q] (rounding of the arithmetic is not modelled).
    - The three configuration values are the numbers that
      [Number(e.target.value)] reads from the number inputs: finite
      numbers, whole or fractional, of either sign. Such a number is a
      [JsNumber], a decimal [digits * 10 ^ exponent10]; the comparisons
      read its value, and the template literal writes it as
      [Number::toString] does, in plain or in exponent form.
    - [Math.random] and [Date.now] are reads of an explicit [World], and
      the insight service is an explicit [Net]: how each call ends, how
      many calls were made and which delays were slept.
    - [String.prototype.toLowerCase] and [localeCompare] belong to the
      browser and are parameters of the definitions that call them. *)

From Stdlib Require Import Ascii QArith Qpower Qround Qminmax Lqa Sorted.
From stdpp Require Import base list strings gmap pretty.
From Equations Require Import Equations.

(** ** JavaScript numbers *)

(** [a > b] on numbers. *)
Definition Qgtb (a b : Q) : bool := negb (Qle_bool a b).

(** [a < b] on numbers. *)
Definition Qltb (a b : Q) : bool := negb (Qle_bool b a).

(** [Math.min(100, Math.max(0, x))]. *)
Definition clamp100 (x : Q) : Q := Qmin 100 (Qmax 0 x).

(** *** Numbers that are written into strings

    A finite number, in decimal: the digits of its mantissa, most
    significant first, its sign, and the power of ten that scales the
    mantissa. Every number that [Number] reads from a number input is of
    this kind (the empty input reads as 0): its decimal is the one that
    [Number::toString] works on, the shortest that reads back as the same
    number, so that different numbers have different decimals. One number
    can be given with more or fewer zeros around its digits; everything
    below depends on the value alone. *)

Inductive Digit := D0 | D1 | D2 | D3 | D4 | D5 | D6 | D7 | D8 | D9.

Global Instance Digit_eq_dec : EqDecision Digit.
Proof. solve_decision. Defined.

Record JsNumber := mkNumber {
  negative : bool;
  digits : list Digit;
  exponent10 : Z
}.

Definition digitChar (d : Digit) : ascii :=
  match d with
  | D0 => "0" | D1 => "1" | D2 => "2" | D3 => "3" | D4 => "4"
  | D5 => "5" | D6 => "6" | D7 => "7" | D8 => "8" | D9 => "9"
  end%char.

Definition digitValue (d : Digit) : Z :=
  match d with
  | D0 => 0 | D1 => 1 | D2 => 2 | D3 => 3 | D4 => 4
  | D5 => 5 | D6 => 6 | D7 => 7 | D8 => 8 | D9 => 9
  end.

(** The whole number that a row of digits writes. *)
Definition digitsValue (ds : list Digit) : Z :=
  fold_left (fun acc d => 10 * acc + digitValue d)%Z ds 0%Z.

(** The value of a number, as the comparisons and the arithmetic see it. *)
Definition toQ (x : JsNumber) : Q :=
  let magnitude := (inject_Z (digitsValue (digits x)) * 10 ^ exponent10 x)%Q in
  if negative x then (- magnitude)%Q else magnitude.

Definition digitOf (r : Z) : Digit :=
  match r with
  | 0 => D0 | 1 => D1 | 2 => D2 | 3 => D3 | 4 => D4
  | 5 => D5 | 6 => D6 | 7 => D7 | 8 => D8 | _ => D9
  end%Z.

(** The digits of a whole number, found from the right; [fuel] bounds the
    number of digits. *)
Fixpoint digitsOfFuel (fuel : nat) (z : Z) (acc : list Digit) : list Digit :=
  match fuel with
  | O => acc
  | S fuel' =>
      if (z <=? 0)%Z then acc
      else digitsOfFuel fuel' (z / 10) (digitOf (z mod 10) :: acc)
  end.

Definition digitsOf (z : Z) : list Digit :=
  digitsOfFuel (S (Z.to_nat (Z.log2 z))) z [].

(** A whole number, such as the literals [90] and [60] of the source. *)
Definition num (z : Z) : JsNumber := mkNumber (z <? 0)%Z (digitsOf (Z.abs z)) 0.

(** *** [Number::toString]

    The algorithm works on the significant digits [s] of the number (no
    zero in front, none at the end), their count [k], and the position [n]
    of the decimal point, counted from the front of [s]: the number is
    [0.s * 10 ^ n]. *)

Fixpoint stripLeading (ds : list Digit) : list Digit :=
  match ds with
  | D0 :: rest => stripLeading rest
  | _ => ds
  end.

Definition stripTrailing (ds : list Digit) : list Digit :=
  reverse (stripLeading (reverse ds)).

Definition significand (x : JsNumber) : list Digit :=
  stripTrailing (stripLeading (digits x)).

Definition pointPosition (x : JsNumber) : Z :=
  exponent10 x + Z.of_nat (length (stripLeading (digits x))).

(** What is written: a sign, then either a whole part with an optional
    fraction, or one digit with an optional fraction and an exponent. *)
Inductive Numeral :=
  | Plain (negative : bool) (whole fraction : list Digit)
  | Scientific (negative : bool) (lead : Digit) (fraction : list Digit)
               (exponentNegative : bool) (exponent : positive).

(** The cases of the algorithm: zero is written 0; for [k <= n <= 21] the
    digits are followed by [n - k] zeros; for [0 < n <= 21] the point
    stands after [n] digits; for [-6 < n <= 0] the digits follow "0." and
    [-n] zeros; otherwise the exponent form is used, with exponent
    [n - 1]. *)
Definition toNumeral (x : JsNumber) : Numeral :=
  let s := significand x in
  let k := Z.of_nat (length s) in
  let n := pointPosition x in
  match s with
  | [] => Plain false [D0] []
  | lead :: rest =>
      if bool_decide (k <= n <= 21)%Z then
        Plain (negative x) (s ++ replicate (Z.to_nat (n - k)) D0) []
      else if bool_decide (0 < n <= 21)%Z then
        Plain (negative x) (take (Z.to_nat n) s) (drop (Z.to_nat n) s)
      else if bool_decide (-6 < n <= 0)%Z then
        Plain (negative x) [D0] (replicate (Z.to_nat (- n)) D0 ++ s)
      else
        Scientific (negative x) lead rest (bool_decide (n < 0)%Z)
                   (Z.to_pos (Z.abs (n - 1)))
  end.

Definition digitsToString (ds : list Digit) : string :=
  String.string_of_list_ascii (map digitChar ds).

(** The fraction of a numeral: nothing, or a point and the digits. *)
Definition fractionToString (fraction : list Digit) : string :=
  match fraction with
  | [] => ""
  | _ => "." +:+ digitsToString fraction
  end.

Definition numeralToString (u : Numeral) : string :=
  match u with
  | Plain negative whole fraction =>
      (if negative then "-" else "")
        +:+ digitsToString whole +:+ fractionToString fraction
  | Scientific negative lead fraction exponentNegative exponent =>
      (if negative then "-" else "")
        +:+ digitsToString [lead] +:+ fractionToString fraction
        +:+ "e" +:+ (if exponentNegative then "-" else "+")
        +:+ pretty exponent
  end.

(** [String(x)], which is what a template literal applies to a number. *)
Definition numToString (x : JsNumber) : string :=
  numeralToString (toNumeral x).

(** ** types.ts *)

Inductive DeviceStatus := ONLINE | OFFLINE | WARNING | ERROR.

Inductive DeviceType := SERVER | ROUTER | DATABASE | IOT.

Inductive MetricType := CPU | RAM.

Global Instance DeviceStatus_eq_dec : EqDecision DeviceStatus.
Proof. solve_decision. Defined.

Global Instance MetricType_eq_dec : EqDecision MetricType.
Proof. solve_decision. Defined.

Module MetricPoint.
Record t := mk {
  timestamp : Z;
  cpu : Q;
  ram : Q;
  disk : Q;
  network : Q
}.
End MetricPoint.

Module Device.
Record t := mk {
  id : string;
  name : string;
  type : DeviceType;
  status : DeviceStatus;
  location : string;
  ip : string;
  metrics : list MetricPoint.t;
  lastUpdate : Z
}.
End Device.

Module Alert.
Record t := mk {
  id : string;
  deviceId : string;
  deviceName : string;
  metricType : MetricType;
  value : Q;
  timestamp : Z
}.
End Alert.

(** ** The environment: [Math.random] and [Date.now] *)

(** [rolls k] is the result of the [k]-th call of [Math.random] and
    [cursor] counts the calls made so far; [clock] is what [Date.now]
    returns while the samples of the current run are generated, and
    [alertClock i m] is what it returns when the alert effect that follows
    pushes the alert of metric [m] for the device at index [i]. *)
Record World := mkWorld {
  rolls : nat -> Q;
  cursor : nat;
  clock : Z;
  alertClock : nat -> MetricType -> Z
}.

Definition Eff (A : Type) : Type := World -> A * World.

Definition ret {A} (a : A) : Eff A := fun w => (a, w).

Definition bind {A B} (c : Eff A) (k : A -> Eff B) : Eff B :=
  fun w => let (a, w') := c w in k a w'.

Declare Scope eff_scope.
Delimit Scope eff_scope with eff.
Notation "'let*' x ':=' c 'in' k" := (bind c (fun x => k))
  (at level 10, x name, c at level 100, k at level 200) : eff_scope.

Definition random : Eff Q :=
  fun w => (rolls w (cursor w),
            mkWorld (rolls w) (S (cursor w)) (clock w) (alertClock w)).

Definition dateNow : Eff Z := fun w => (clock w, w).

(** [Array.prototype.map] with an effectful callback: left to right. *)
Fixpoint mapM {A B} (f : A -> Eff B) (l : list A) : Eff (list B) :=
  match l with
  | [] => ret []
  | x :: l' =>
      (let* y := f x in
       let* ys := mapM f l' in
       ret (y :: ys))%eff
  end.

(** ** utils/mockData *)

Definition DEVICE_NAMES : list string :=
  [ "US-WEST-SRV-01"; "EU-CENTRAL-DB-02"; "AS-SOUTH-IOT-09"; "US-EAST-RTR-04";
    "CLOUD-API-GW"; "CACHE-REDIS-01"; "NODE-WORKER-05"; "LEGACY-MAINFRAME";
    "PROD-ELK-STACK"; "MESSAGING-RABBIT"; "STORAGE-SAN-01"; "FIREWALL-PFE" ].

Definition LOCATIONS : list string :=
  [ "San Francisco"; "Frankfurt"; "Mumbai"; "New York"; "Tokyo"; "London" ].

(** [const drift = () => (Math.random() - 0.5) * 10]. *)
Definition drift : Eff Q :=
  (let* r := random in ret ((r - 0.5) * 10)%Q)%eff.

(** [prev?.field ?? Math.random() * scale + base]: the roll is made only
    when there is no previous sample. *)
Definition baseline (prev : option MetricPoint.t) (field : MetricPoint.t -> Q)
    (scale base : Q) : Eff Q :=
  match prev with
  | Some p => ret (field p)
  | None => (let* r := random in ret (r * scale + base)%Q)%eff
  end.

Definition generateMetricPoint (prev : option MetricPoint.t) : Eff MetricPoint.t :=
  (let* now := dateNow in
   let* c := baseline prev MetricPoint.cpu 40 20 in
   let* dc := drift in
   let* r := baseline prev MetricPoint.ram 50 30 in
   let* dr := drift in
   let* d := baseline prev MetricPoint.disk 10 60 in
   let* dd := drift in
   let* n := baseline prev MetricPoint.network 20 10 in
   let* dn := drift in
   ret (MetricPoint.mk now
          (clamp100 (c + dc)) (clamp100 (r + dr))
          (clamp100 (d + dd)) (clamp100 (n + dn))))%eff.

(** The [for] loop of [createInitialDevices]: [n] chained samples, each
    generated from the one before, pushed onto [initialMetrics]. *)
Fixpoint backfill (n : nat) (lastMetric : option MetricPoint.t)
    (initialMetrics : list MetricPoint.t) : Eff (list MetricPoint.t) :=
  match n with
  | O => ret initialMetrics
  | S n' =>
      (let* m := generateMetricPoint lastMetric in
       backfill n' (Some m) (initialMetrics ++ [m]))%eff
  end.

(** [arr[Math.floor(x)]]; the rolls lie in [[0,1)], which keeps every index
    used below in range, so [dflt] stands for an [undefined] that does not
    occur. *)
Definition pick {A} (dflt : A) (arr : list A) (x : Q) : A :=
  default dflt (arr !! Z.to_nat (Qfloor x)).

(** One callback of the [map] in [createInitialDevices], at index [i]. *)
Definition createDevice (i : nat) : Eff Device.t :=
  (let* rt := random in
   let type := pick SERVER [SERVER; ROUTER; DATABASE; IOT] (rt * 4)%Q in
   let* initialMetrics := backfill 20 None [] in
   let* rs := random in
   let* rl := random in
   let* r1 := random in
   let* r2 := random in
   let* now := dateNow in
   ret (Device.mk
          ("dev-" +:+ pretty i)
          (default "" (DEVICE_NAMES !! (i mod length DEVICE_NAMES)))
          type
          (if Qgtb rs 0.8 then WARNING else ONLINE)
          (pick "" LOCATIONS (rl * inject_Z (Z.of_nat (length LOCATIONS)))%Q)
          ("192.168." +:+ pretty (Qfloor (r1 * 254)) +:+ "."
             +:+ pretty (Qfloor (r2 * 254)))
          initialMetrics
          now))%eff.

Definition createInitialDevices (count : nat) : Eff (list Device.t) :=
  mapM createDevice (seq 0 count).

(** The status roll of [updateDevices]: one [if]/[else if] chain on a
    single roll, tried in the order of the source. *)
Definition rollStatus (roll : Q) (status : DeviceStatus) : DeviceStatus :=
  if Qgtb roll 0.98 then WARNING
  else if Qgtb roll 0.995 then ERROR
  else if Qgtb roll 0.999 then OFFLINE
  else if Qltb roll 0.1 && negb (bool_decide (status = ONLINE)) then ONLINE
  else status.

(** One callback of the [map] in [updateDevices]. *)
Definition updateDevice (d : Device.t) : Eff Device.t :=
  (let* roll := random in
   let newStatus := rollStatus roll (Device.status d) in
   let* newMetric := generateMetricPoint (last (Device.metrics d)) in
   let updatedMetrics := drop 1 (Device.metrics d) ++ [newMetric] in
   let* now := dateNow in
   ret (Device.mk (Device.id d) (Device.name d) (Device.type d) newStatus
          (Device.location d) (Device.ip d) updatedMetrics now))%eff.

Definition updateDevices (devices : list Device.t) : Eff (list Device.t) :=
  mapM updateDevice devices.

(** A world for experiments: every roll is [r], the clock reads [t]. *)
Definition constWorld (r : Q) (t : Z) : World :=
  mkWorld (fun _ => r) 0 t (fun _ _ => t).

(** ** App: the alert system *)

(** [Math.max(1, Math.ceil(alertDuration / 3))]. *)
Definition pointsNeeded (alertDuration : JsNumber) : Z :=
  Z.max 1 (Qceiling (toQ alertDuration / 3)).

Definition metricName (m : MetricType) : string :=
  match m with CPU => "CPU" | RAM => "RAM" end.

(** The template literal [`${device.id}-CPU-${cpuThreshold}-${alertDuration}`]
    and its RAM twin. *)
Definition alertId (deviceId : string) (m : MetricType)
    (threshold alertDuration : JsNumber) : string :=
  deviceId +:+ "-" +:+ metricName m +:+ "-" +:+ numToString threshold
    +:+ "-" +:+ numToString alertDuration.

(** [arr.slice(-n)] for [n >= 1]: the last [n] elements, the whole array
    when it has fewer. *)
Definition sliceLast {A} (n : nat) (arr : list A) : list A :=
  drop (length arr - n) arr.

Section Evaluation.
Variables (cpuThreshold ramThreshold alertDuration : JsNumber).
Variable dismissed : gset string.

(** The body of [if (cpuExceeded) { ... }] and of its RAM twin: build the
    id, and push the alert unless the id has been dismissed. The push reads
    [Date.now()] for itself: [now m] is what the call returns in the push
    for metric [m]. *)
Definition raise (now : MetricType -> Z) (device : Device.t) (m : MetricType)
    (threshold : JsNumber) (latest : Q) : list Alert.t :=
  let alertId := alertId (Device.id device) m threshold alertDuration in
  if bool_decide (alertId ∈ dismissed) then []
  else [Alert.mk alertId (Device.id device) (Device.name device) m latest
          (now m)].

(** The callback of [devices.forEach]; the result is what it pushes onto
    [newAlerts]. *)
Definition evaluateDevice (now : MetricType -> Z) (device : Device.t)
    : list Alert.t :=
  let pointsNeeded := pointsNeeded alertDuration in
  if bool_decide (Z.of_nat (length (Device.metrics device)) < pointsNeeded)%Z
  then []
  else
    let recentMetrics :=
      sliceLast (Z.to_nat pointsNeeded) (Device.metrics device) in
    match last (Device.metrics device) with
    | None => [] (* not reached: the history has at least one sample here *)
    | Some latestMetric =>
        let cpuExceeded :=
          forallb (fun m => Qgtb (MetricPoint.cpu m) (toQ cpuThreshold))
                  recentMetrics in
        let ramExceeded :=
          forallb (fun m => Qgtb (MetricPoint.ram m) (toQ ramThreshold))
                  recentMetrics in
        (if cpuExceeded
         then raise now device CPU cpuThreshold (MetricPoint.cpu latestMetric)
         else [])
        ++
        (if ramExceeded
         then raise now device RAM ramThreshold (MetricPoint.ram latestMetric)
         else [])
    end.

(** [newAlerts] after the [forEach], which visits the devices in order;
    [now i] holds the clock readings of the pushes for the device at
    index [i]. *)
Fixpoint evaluate (now : nat -> MetricType -> Z) (devices : list Device.t)
    : list Alert.t :=
  match devices with
  | [] => []
  | device :: rest =>
      evaluateDevice (now 0) device ++ evaluate (fun i => now (S i)) rest
  end.
End Evaluation.

(** The updater passed to [setActiveAlerts]: merge only unique new alerts. *)
Definition mergeAlerts (prev newAlerts : list Alert.t) : list Alert.t :=
  let existingIds : gset string := list_to_set (map Alert.id prev) in
  let filteredNew := filter (fun a => Alert.id a ∉ existingIds) newAlerts in
  if bool_decide (length filteredNew = 0) then prev else prev ++ filteredNew.

(** The component state: the [useState] cells of [App] that the alert
    system reads or writes. *)
Record AppState := mkApp {
  devices : list Device.t;
  activeAlerts : list Alert.t;
  dismissedAlertIds : gset string;
  cpuThreshold : JsNumber;
  ramThreshold : JsNumber;
  alertDuration : JsNumber
}.

(** The state [useState] starts from. *)
Definition initialApp : AppState :=
  mkApp [] [] ∅ (num 90) (num 90) (num 60).

(** [newAlerts] as the effect computes it from the current state. *)
Definition newAlertsOf (st : AppState) (now : nat -> MetricType -> Z)
    : list Alert.t :=
  evaluate (cpuThreshold st) (ramThreshold st) (alertDuration st)
           (dismissedAlertIds st) now (devices st).

(** The alert-monitoring [useEffect]. *)
Definition alertEffect (now : nat -> MetricType -> Z) (st : AppState)
    : AppState :=
  if bool_decide (length (devices st) = 0) then st
  else mkApp (devices st) (mergeAlerts (activeAlerts st) (newAlertsOf st now))
             (dismissedAlertIds st) (cpuThreshold st) (ramThreshold st)
             (alertDuration st).

Definition handleDismissAlert (id : string) (st : AppState) : AppState :=
  mkApp (devices st)
        (filter (fun a => Alert.id a ≠ id) (activeAlerts st))
        (dismissedAlertIds st ∪ {[ id ]})
        (cpuThreshold st) (ramThreshold st) (alertDuration st).

(** The [onChange] handlers of the three inputs; [n] is
    [Number(e.target.value)]. *)
Definition setCpuThreshold (n : JsNumber) (st : AppState) : AppState :=
  mkApp (devices st) (activeAlerts st) (dismissedAlertIds st)
        n (ramThreshold st) (alertDuration st).

Definition setRamThreshold (n : JsNumber) (st : AppState) : AppState :=
  mkApp (devices st) (activeAlerts st) (dismissedAlertIds st)
        (cpuThreshold st) n (alertDuration st).

Definition setAlertDuration (n : JsNumber) (st : AppState) : AppState :=
  mkApp (devices st) (activeAlerts st) (dismissedAlertIds st)
        (cpuThreshold st) (ramThreshold st) n.

(** [setDevices(prev => updateDevices(prev))], the body of the interval. *)
Definition tickDevices (w : World) (st : AppState) : AppState :=
  mkApp (fst (updateDevices (devices st) w)) (activeAlerts st)
        (dismissedAlertIds st) (cpuThreshold st) (ramThreshold st)
        (alertDuration st).

(** What can happen to the mounted component. *)
Inductive Event :=
  | Tick
  | DismissAlert (id : string)
  | ChangeCpuThreshold (n : JsNumber)
  | ChangeRamThreshold (n : JsNumber)
  | ChangeAlertDuration (n : JsNumber).

Definition handle (ev : Event) (w : World) : AppState -> AppState :=
  match ev with
  | Tick => tickDevices w
  | DismissAlert id => handleDismissAlert id
  | ChangeCpuThreshold n => setCpuThreshold n
  | ChangeRamThreshold n => setRamThreshold n
  | ChangeAlertDuration n => setAlertDuration n
  end.

(** One event, processed in world [w], followed by the alert effect, which
    React re-runs because one of its dependencies was set. *)
Definition step (st : AppState) (e : Event * World) : AppState :=
  alertEffect (alertClock (snd e)) (handle (fst e) (snd e) st).

Definition run (st : AppState) (es : list (Event * World)) : AppState :=
  fold_left step es st.

(** The fleet after mounting with [count] devices in world [w0] and one
    interval tick per world of [ws]. *)
Definition fleetAfter (count : nat) (w0 : World) (ws : list World)
    : list Device.t :=
  fold_left (fun ds w => fst (updateDevices ds w)) ws
            (fst (createInitialDevices count w0)).

(** ** App: mounting *)

(** The mount effect, [setDevices(createInitialDevices(16))], applied to
    the state [useState] starts from, followed by the alert effect that the
    new devices trigger. *)
Definition mountApp (w : World) : AppState :=
  alertEffect (alertClock w)
    (mkApp (fst (createInitialDevices 16 w)) (activeAlerts initialApp)
           (dismissedAlertIds initialApp) (cpuThreshold initialApp)
           (ramThreshold initialApp) (alertDuration initialApp)).

(** ** App: the summary statistics *)

Record SystemStats := mkStats {
  totalDevices : Z;
  onlineCount : Z;
  warningCount : Z;
  errorCount : Z;
  avgCpuUsage : Q;
  avgRamUsage : Q
}.

(** [x || 0] on a number: a zero is replaced by the literal 0. *)
Definition orZero (x : Q) : Q := if Qeq_bool x 0 then 0%Q else x.

(** [d.metrics[d.metrics.length - 1]?.field || 0]. *)
Definition latestOrZero (field : MetricPoint.t -> Q) (d : Device.t) : Q :=
  match last (Device.metrics d) with
  | Some m => orZero (field m)
  | None => 0%Q
  end.

(** [devices.filter(d => d.status === s).length]. *)
Definition countStatus (s : DeviceStatus) (devices : list Device.t) : Z :=
  Z.of_nat (length (filter (fun d => Device.status d = s) devices)).

(** [devices.length || 1]. *)
Definition lengthOrOne (devices : list Device.t) : Z :=
  if bool_decide (length devices = 0) then 1%Z else Z.of_nat (length devices).

(** [devices.reduce((acc, d) => acc + (latest?.field || 0), 0) /
    (devices.length || 1)]. *)
Definition average (field : MetricPoint.t -> Q) (devices : list Device.t) : Q :=
  (fold_left (fun acc d => acc + latestOrZero field d) devices 0
   / inject_Z (lengthOrOne devices))%Q.

(** The [stats] memo. *)
Definition stats (devices : list Device.t) : SystemStats :=
  mkStats (Z.of_nat (length devices))
          (countStatus ONLINE devices)
          (countStatus WARNING devices)
          (countStatus ERROR devices)
          (average MetricPoint.cpu devices)
          (average MetricPoint.ram devices).

Module PieSlice.
Record t := mk {
  name : string;
  value : Z;
  color : string
}.
End PieSlice.

Definition pieData (stats : SystemStats) : list PieSlice.t :=
  [ PieSlice.mk "Online" (onlineCount stats) "#10b981";
    PieSlice.mk "Warning" (warningCount stats) "#f59e0b";
    PieSlice.mk "Error" (errorCount stats) "#f43f5e";
    PieSlice.mk "Offline"
      (Z.max 0 (totalDevices stats - onlineCount stats - warningCount stats
                - errorCount stats))
      "#64748b" ].

(** [devices.find(d => d.id === selectedDeviceId) || null]. *)
Definition selectedDevice (devices : list Device.t)
    (selectedDeviceId : option string) : option Device.t :=
  find (fun d => bool_decide (Some (Device.id d) = selectedDeviceId)) devices.

(** ** services/geminiService *)

(** What [catch] receives: the two fields of the thrown value that the
    handler looks at, either of which may be missing. *)
Module ApiError.
Record t := mk {
  message : option string;
  status : option Z
}.
End ApiError.

(** How one [await ai.models.generateContent(...)] ends: it resolves with a
    response whose [text] may be undefined, or it throws. *)
Inductive ApiOutcome :=
  | Resolved (text : option string)
  | Rejected (error : ApiError.t).

(** The network as [getSystemInsights] sees it: [outcomes k] is how the
    [k]-th call of [generateContent] ends, [calls] counts the calls made so
    far, and [sleeps] lists the delays slept so far, oldest first. *)
Record Net := mkNet {
  outcomes : nat -> ApiOutcome;
  calls : nat;
  sleeps : list Z
}.

Definition generateContent (n : Net) : ApiOutcome * Net :=
  (outcomes n (calls n), mkNet (outcomes n) (S (calls n)) (sleeps n)).

Definition sleep (ms : Z) (n : Net) : Net :=
  mkNet (outcomes n) (calls n) (sleeps n ++ [ms]).

(** [hay.includes(needle)]. *)
Fixpoint includes (needle hay : string) : bool :=
  String.prefix needle hay
  || match hay with
     | EmptyString => false
     | String _ hay' => includes needle hay'
     end.

(** [error?.message?.includes('429') || error?.status === 429]. *)
Definition isRateLimit (error : ApiError.t) : bool :=
  match ApiError.message error with
  | Some m => includes "429" m
  | None => false
  end
  || bool_decide (ApiError.status error = Some 429%Z).

Definition maxRetries : nat := 3.

Definition baseDelay : Z := 2000.

Definition QUOTA_MESSAGE : string :=
  "QUOTA_EXHAUSTED: System analysis is currently at capacity. Please try again in a few minutes.".

Definition NETWORK_MESSAGE : string :=
  "Unable to generate insights at this moment. Please check network connectivity.".

(** The [while (retries < maxRetries)] loop, entered with the current value
    of [retries]. The result is what the function returns ([None] for
    [undefined]) and the network afterwards. *)
Equations? retryLoop (retries : nat) (n : Net) : option string * Net
    by wf (maxRetries - retries) lt :=
retryLoop retries n with lt_dec retries maxRetries => {
  | right _ => (None, n)
  | left _ with generateContent n => {
    | (Resolved text, n1) => (text, n1)
    | (Rejected error, n1)
        with isRateLimit error && bool_decide (retries < maxRetries - 1) => {
      | true =>
          retryLoop (S retries) (sleep (baseDelay * 2 ^ Z.of_nat (S retries)) n1)
      | false =>
          if isRateLimit error then (Some QUOTA_MESSAGE, n1)
          else (Some NETWORK_MESSAGE, n1) } } }.
Proof. unfold maxRetries in *. lia. Qed.

(** [Math.round] on a number. *)
Definition mathRound (x : Q) : Z := Qfloor (x + 0.5).

Module SummaryEntry.
Record t := mk {
  name : string;
  status : DeviceStatus;
  cpu : Z;
  ram : Z
}.
End SummaryEntry.

(** The [summary] that goes into the prompt. *)
Definition insightSummary (devices : list Device.t) : list SummaryEntry.t :=
  map (fun d =>
         SummaryEntry.mk (Device.name d) (Device.status d)
           (mathRound (latestOrZero MetricPoint.cpu d))
           (mathRound (latestOrZero MetricPoint.ram d)))
      devices.

(** [getSystemInsights]: the summary only shapes the prompt, and how the
    service answers a prompt is left to [outcomes]; what remains is the
    retry loop, entered with [retries = 0]. *)
Definition getSystemInsights (devices : list Device.t) (n : Net)
    : option string * Net :=
  retryLoop 0 n.

(** ** components/GeminiInsights *)

Record Insights := mkInsights {
  insight : string;
  loading : bool;
  cooldown : Z
}.

(** The state the three [useState] cells start from. *)
Definition initialInsights : Insights :=
  mkInsights "Analyzing system state..." true 0.

Definition RESTING_MESSAGE : string :=
  "Our AI analyst is currently resting due to high demand. Automatic updates will resume shortly.".

Definition FALLBACK_MESSAGE : string :=
  "Unable to generate insights at this moment.".

(** [result || FALLBACK_MESSAGE]: an undefined or empty result is falsy. *)
Definition orFallback (result : option string) : string :=
  match result with
  | Some (String c s) => String c s
  | _ => FALLBACK_MESSAGE
  end.

(** [result?.includes("QUOTA_EXHAUSTED")]. *)
Definition quotaExhausted (result : option string) : bool :=
  match result with
  | Some s => includes "QUOTA_EXHAUSTED" s
  | None => false
  end.

(** [fetchInsight] is created anew by every render and closes over the
    [devices] and the [cooldown] of that render: the guard and the prompt
    read these captured values, whereas the setters act on the state of
    the component. [capturedDevices] and [capturedCooldown] are what the
    closure holds, and [st] is the state of the component when the call of
    the service returns. *)
Definition fetchInsight (capturedDevices : list Device.t)
    (capturedCooldown : Z) (st : Insights) (n : Net) : Insights * Net :=
  if bool_decide (0 < capturedCooldown)%Z then (st, n)
  else
    let (result, n') := getSystemInsights capturedDevices n in
    if quotaExhausted result
    then (mkInsights RESTING_MESSAGE false 60, n')
    else (mkInsights (orFallback result) false (cooldown st), n').

(** The cooldown timer: the callback of [setTimeout], armed only while
    [cooldown > 0]. *)
Definition cooldownTick (st : Insights) : Insights :=
  if bool_decide (0 < cooldown st)%Z
  then mkInsights (insight st) (loading st) (cooldown st - 1)
  else st.

Definition isRateLimited (st : Insights) : bool :=
  includes "resting due to high demand" (insight st).

(** The [disabled] attribute of the refresh button. *)
Definition refreshDisabled (st : Insights) : bool :=
  loading st || bool_decide (0 < cooldown st)%Z.

(** The mount effect calls the [fetchInsight] of the first render and
    hands the same closure to [setInterval]; the effect has no
    dependencies, so every firing of the interval runs that closure, which
    holds the cooldown of the first render and the devices it was given. *)
Definition intervalFetch (firstDevices : list Device.t) (st : Insights)
    (n : Net) : Insights * Net :=
  fetchInsight firstDevices (cooldown initialInsights) st n.

(** A click on the refresh button, which carries the [fetchInsight] of the
    current render; a disabled button delivers no click. *)
Definition clickRefresh (devices : list Device.t) (st : Insights) (n : Net)
    : Insights * Net :=
  if refreshDisabled st then (st, n)
  else fetchInsight devices (cooldown st) st n.

(** ** App: the device list shown *)

Inductive SortKey := ByName | ByStatus | ByUpdate.

Inductive SortOrder := Asc | Desc.

(** The value of the status select: ['ALL'] or one status. *)
Inductive StatusFilter := AllStatuses | OnlyStatus (s : DeviceStatus).

(** The [statusPriority] table. *)
Definition statusPriority (s : DeviceStatus) : Z :=
  match s with
  | ERROR => 0
  | WARNING => 1
  | ONLINE => 2
  | OFFLINE => 3
  end.

(** Lower-casing of the letters A to Z, which is what
    [String.prototype.toLowerCase] does on ASCII text; used in examples. *)
Definition lowerChar (c : ascii) : ascii :=
  let n := nat_of_ascii c in
  if (65 <=? n)%nat && (n <=? 90)%nat then ascii_of_nat (n + 32) else c.

Fixpoint asciiLowerCase (s : string) : string :=
  match s with
  | EmptyString => EmptyString
  | String c s' => String (lowerChar c) (asciiLowerCase s')
  end.

(** [Array.prototype.sort(cmp)]. The sort is stable, and with a comparator
    that orders consistently its result is the one stably sorted
    arrangement of the array; inserting the elements one by one from the
    right, each before the first element it does not come after, builds
    that arrangement. *)
Fixpoint insertBy {A} (cmp : A -> A -> Z) (x : A) (l : list A) : list A :=
  match l with
  | [] => [x]
  | y :: l' =>
      if bool_decide (0 < cmp x y)%Z then y :: insertBy cmp x l'
      else x :: y :: l'
  end.

Definition sortBy {A} (cmp : A -> A -> Z) (l : list A) : list A :=
  foldr (insertBy cmp) [] l.

Section Processed.
(** [a.localeCompare(b)], which depends on the locale of the browser. *)
Variable localeCompare : string -> string -> Z.

(** [s.toLowerCase()], which the browser applies to the whole of
    Unicode. *)
Variable toLowerCase : string -> string.

(** The callback of [devices.filter] in [processedDevices]. *)
Definition matchesFilter (search : string) (filterStatus : StatusFilter)
    (d : Device.t) : bool :=
  let matchesSearch :=
    includes (toLowerCase search) (toLowerCase (Device.name d))
    || includes search (Device.ip d) in
  let matchesStatus :=
    match filterStatus with
    | AllStatuses => true
    | OnlyStatus s => bool_decide (Device.status d = s)
    end in
  matchesSearch && matchesStatus.

(** The comparator passed to [result.sort]. *)
Definition compareDevices (sortKey : SortKey) (sortOrder : SortOrder)
    (a b : Device.t) : Z :=
  let comparison :=
    match sortKey with
    | ByName => localeCompare (Device.name a) (Device.name b)
    | ByStatus =>
        (statusPriority (Device.status a) - statusPriority (Device.status b))%Z
    | ByUpdate => (Device.lastUpdate b - Device.lastUpdate a)%Z
    end in
  match sortOrder with
  | Asc => comparison
  | Desc => (- comparison)%Z
  end.

(** The [processedDevices] memo. *)
Definition processedDevices (devices : list Device.t) (search : string)
    (filterStatus : StatusFilter) (sortKey : SortKey) (sortOrder : SortOrder)
    : list Device.t :=
  let result :=
    List.filter (matchesFilter search filterStatus) devices in
  sortBy (compareDevices sortKey sortOrder) result.
End Processed.

(** ** Vocabulary of the statements *)

(** A utilization value in the percent range. *)
Definition inRange (x : Q) : Prop := (0 <= x)%Q /\ (x <= 100)%Q.

Definition sampleInRange (m : MetricPoint.t) : Prop :=
  inRange (MetricPoint.cpu m) /\ inRange (MetricPoint.ram m) /\
  inRange (MetricPoint.disk m) /\ inRange (MetricPoint.network m).

(** How [updateDevices] relates a device to its next generation. *)
Definition advanced (d d' : Device.t) : Prop :=
  exists w, d' = fst (updateDevice d w).

(** The trailing window the evaluator looks at. *)
Definition window (alertDuration : JsNumber) (d : Device.t)
    : list MetricPoint.t :=
  sliceLast (Z.to_nat (pointsNeeded alertDuration)) (Device.metrics d).

(** The dimension of a sample that a metric type reads. *)
Definition reading (m : MetricType) (p : MetricPoint.t) : Q :=
  match m with CPU => MetricPoint.cpu p | RAM => MetricPoint.ram p end.

(** The threshold a metric type is compared with. *)
Definition thresholdFor (m : MetricType)
    (cpuThreshold ramThreshold : JsNumber) : JsNumber :=
  match m with CPU => cpuThreshold | RAM => ramThreshold end.

(** Every sample of the window is strictly above the threshold. *)
Definition sustained (m : MetricType) (threshold alertDuration : JsNumber)
    (d : Device.t) : Prop :=
  Forall (fun p => (toQ threshold < reading m p)%Q) (window alertDuration d).

(** Some alert of metric type [m] is among [out]. *)
Definition emits (m : MetricType) (out : list Alert.t) : Prop :=
  exists a, a ∈ out /\ Alert.metricType a = m.

(** The ids of a list of alerts. *)
Definition idsOf (alerts : list Alert.t) : list string := map Alert.id alerts.

(** Key [K] is dismissed and no active alert carries it. *)
Definition silenced (K : string) (st : AppState) : Prop :=
  K ∈ dismissedAlertIds st /\ K ∉ idsOf (activeAlerts st).

(** What an event leaves of the active alerts before the effect runs. *)
Definition survivors (ev : Event) (active : list Alert.t) : list Alert.t :=
  match ev with
  | DismissAlert id => filter (fun a => Alert.id a ≠ id) active
  | _ => active
  end.

(** The characters of a string. *)
Definition chars (s : string) : list ascii := String.list_ascii_of_string s.

Definition isDigit (c : ascii) : Prop :=
  In c ["0"; "1"; "2"; "3"; "4"; "5"; "6"; "7"; "8"; "9"]%char.

Definition dash : ascii := "-"%char.

(** The characters of the numeral of a number. *)
Definition fractionChars (fraction : list Digit) : list ascii :=
  match fraction with
  | [] => []
  | _ => "."%char :: map digitChar fraction
  end.

Definition signChars (negative : bool) : list ascii :=
  if negative then [dash] else [].

Definition numeralChars (u : Numeral) : list ascii :=
  match u with
  | Plain negative whole fraction =>
      signChars negative ++ map digitChar whole ++ fractionChars fraction
  | Scientific negative lead fraction exponentNegative exponent =>
      signChars negative ++ digitChar lead :: fractionChars fraction
        ++ "e"%char :: (if exponentNegative then dash else "+"%char)
        :: chars (pretty exponent)
  end.

(** The value of the digits after the point. *)
Fixpoint fractionValue (fraction : list Digit) : Q :=
  match fraction with
  | [] => 0
  | d :: rest => (inject_Z (digitValue d) + fractionValue rest) / 10
  end.

(** The number that a numeral writes. *)
Definition numeralValue (u : Numeral) : Q :=
  match u with
  | Plain negative whole fraction =>
      let magnitude := inject_Z (digitsValue whole) + fractionValue fraction in
      if negative then - magnitude else magnitude
  | Scientific negative lead fraction exponentNegative exponent =>
      let magnitude :=
        (inject_Z (digitValue lead) + fractionValue fraction)
        * 10 ^ (if exponentNegative then Z.neg exponent else Z.pos exponent) in
      if negative then - magnitude else magnitude
  end%Q.

(** A string that ends with a digit, as every numeral does. *)
Definition endsWithDigit (l : list ascii) : Prop :=
  exists pre c, l = pre ++ [c] /\ isDigit c.

(** Leaving out the clock readings of the device at index [k]. *)
Definition skipIndex {A} (k : nat) (now : nat -> A) : nat -> A :=
  fun i => now (if decide (i < k) then i else S i).

(** Sample inputs. *)
Definition hot (c : Q) : MetricPoint.t := MetricPoint.mk 0 c 10 10 10.

Definition deviceWith (ms : list MetricPoint.t) : Device.t :=
  Device.mk "dev-0" "US-WEST-SRV-01" SERVER ONLINE "Tokyo" "192.168.0.1" ms 0.

(** The random rolls of a world lie in [[0,1)], as [Math.random] promises. *)
Definition fairRolls (w : World) : Prop :=
  forall k, (0 <= rolls w k)%Q /\ (rolls w k < 1)%Q.

(** The id [createInitialDevices] gives the device at index [i]. *)
Definition deviceIdAt (i : nat) : string := "dev-" +:+ pretty i.

(** No active alert carries a dismissed id. *)
Definition undismissed (st : AppState) : Prop :=
  Forall (fun a => Alert.id a ∉ dismissedAlertIds st) (activeAlerts st).

(** The ids that the dismissals among [es] name. *)
Definition dismissedIn (es : list (Event * World)) : list string :=
  flat_map (fun e => match fst e with DismissAlert id => [id] | _ => [] end) es.

(** Alert [a] was raised for a device that [devices] still has: it copies
    that device's id and name, and its own id is built from them. *)
Definition raisedFor (devices : list Device.t) (a : Alert.t) : Prop :=
  exists d threshold duration,
    d ∈ devices /\
    Alert.deviceId a = Device.id d /\
    Alert.deviceName a = Device.name d /\
    Alert.id a = alertId (Device.id d) (Alert.metricType a) threshold duration.

(** An attempt that ended in a rate-limit error. *)
Definition rateLimited (o : ApiOutcome) : bool :=
  match o with
  | Resolved _ => false
  | Rejected error => isRateLimit error
  end.

(** What [getSystemInsights] returns when [o] is its last attempt. *)
Definition settle (o : ApiOutcome) : option string :=
  match o with
  | Resolved text => text
  | Rejected error =>
      Some (if isRateLimit error then QUOTA_MESSAGE else NETWORK_MESSAGE)
  end.

(** How the [k]-th attempt from now on ends. *)
Definition attempt (n : Net) (k : nat) : ApiOutcome := outcomes n (k + calls n).

(** A service that answers every call with HTTP status 429. *)
Definition throttled : Net :=
  mkNet (fun _ => Rejected (ApiError.mk None (Some 429%Z))) 0 [].

(** The worlds of the tick events among [es], in order. *)
Definition ticksOf (es : list (Event * World)) : list World :=
  flat_map (fun e => match fst e with Tick => [snd e] | _ => [] end) es.

(** * Properties *)

(** ** Numbers *)

Lemma Qgtb_true (a b : Q) : Qgtb a b = true <-> (b < a)%Q.
Proof.
  unfold Qgtb. rewrite negb_true_iff, <- not_true_iff_false, Qle_bool_iff.
  split; [apply Qnot_le_lt | apply Qlt_not_le].
Qed.

Lemma Qgtb_weaken (a b c : Q) :
  (b <= c)%Q -> Qgtb a c = true -> Qgtb a b = true.
Proof.
  rewrite !Qgtb_true. intros Hbc Hca. eapply Qle_lt_trans; eassumption.
Qed.

Lemma clamp100_range (x : Q) : (0 <= clamp100 x)%Q /\ (clamp100 x <= 100)%Q.
Proof.
  unfold clamp100. split.
  - apply Q.min_glb; [discriminate | apply Q.le_max_l].
  - apply Q.le_min_l.
Qed.

(** *** The value of a row of digits *)

Lemma digitValue_range (d : Digit) : (0 <= digitValue d <= 9)%Z.
Proof. destruct d; simpl; lia. Qed.

Lemma digitValue_zero (d : Digit) : digitValue d = 0%Z -> d = D0.
Proof. destruct d; simpl; intros H; first [reflexivity | discriminate H]. Qed.

Lemma digitValue_inj (d1 d2 : Digit) : digitValue d1 = digitValue d2 -> d1 = d2.
Proof. destruct d1, d2; simpl; intros H; first [reflexivity | discriminate H]. Qed.

Lemma digitsValue_from (acc : Z) (ds : list Digit) :
  fold_left (fun a d => 10 * a + digitValue d)%Z ds acc
  = (acc * 10 ^ Z.of_nat (length ds) + digitsValue ds)%Z.
Proof.
  unfold digitsValue. revert acc. induction ds as [|d ds IH]; intros acc.
  - simpl. lia.
  - cbn [fold_left length]. rewrite IH, (IH (10 * 0 + digitValue d)%Z).
    rewrite Nat2Z.inj_succ, Z.pow_succ_r by lia. lia.
Qed.

Lemma digitsValue_app (a b : list Digit) :
  digitsValue (a ++ b)
  = (digitsValue a * 10 ^ Z.of_nat (length b) + digitsValue b)%Z.
Proof.
  unfold digitsValue at 1. rewrite fold_left_app.
  fold (digitsValue a). apply digitsValue_from.
Qed.

Lemma digitsValue_cons (d : Digit) (ds : list Digit) :
  digitsValue (d :: ds)
  = (digitValue d * 10 ^ Z.of_nat (length ds) + digitsValue ds)%Z.
Proof. apply (digitsValue_app [d] ds). Qed.

Lemma digitsValue_snoc (ds : list Digit) (d : Digit) :
  digitsValue (ds ++ [d]) = (10 * digitsValue ds + digitValue d)%Z.
Proof. rewrite digitsValue_app. simpl. unfold digitsValue at 2. simpl. lia. Qed.

Lemma digitsValue_bounds (ds : list Digit) :
  (0 <= digitsValue ds < 10 ^ Z.of_nat (length ds))%Z.
Proof.
  induction ds as [|d ds IH] using rev_ind.
  - simpl. unfold digitsValue. simpl. lia.
  - rewrite digitsValue_snoc, length_app. simpl.
    rewrite Nat2Z.inj_add, Z.pow_add_r by lia.
    pose proof (digitValue_range d). simpl (10 ^ Z.of_nat 1)%Z. lia.
Qed.

Lemma digitsValue_zeros (m : nat) : digitsValue (replicate m D0) = 0%Z.
Proof.
  induction m as [|m IH]; [reflexivity|].
  simpl. rewrite digitsValue_cons, IH. simpl. lia.
Qed.

Lemma digitsValue_lower (d : Digit) (ds : list Digit) :
  d <> D0 -> (10 ^ Z.of_nat (length ds) <= digitsValue (d :: ds))%Z.
Proof.
  intros Hd. rewrite digitsValue_cons.
  pose proof (digitsValue_bounds ds). pose proof (digitValue_range d).
  assert (digitValue d <> 0%Z) by (intros H'; apply Hd, digitValue_zero, H').
  nia.
Qed.

(** Lists of one length with one value are equal. *)
Lemma digitsValue_inj_length (a b : list Digit) :
  length a = length b -> digitsValue a = digitsValue b -> a = b.
Proof.
  revert b. induction a as [|d a IH] using rev_ind; intros b Hlen Hv.
  - destruct b; [reflexivity | discriminate Hlen].
  - destruct b as [|d' b _] using rev_ind.
    { rewrite length_app in Hlen. simpl in Hlen. lia. }
    rewrite !length_app in Hlen. simpl in Hlen.
    rewrite !digitsValue_snoc in Hv.
    pose proof (digitValue_range d). pose proof (digitValue_range d').
    assert (Hd : digitValue d = digitValue d') by lia.
    assert (Ha : digitsValue a = digitsValue b) by lia.
    apply digitValue_inj in Hd. rewrite (IH b) by (lia || assumption).
    now rewrite Hd.
Qed.

(** Lists without a leading zero and with one value are equal. *)
Lemma digitsValue_inj (a b : list Digit) :
  head a <> Some D0 -> head b <> Some D0 ->
  digitsValue a = digitsValue b -> a = b.
Proof.
  intros Ha Hb Hv. apply digitsValue_inj_length; [|exact Hv].
  assert (Hlen : forall a b, head a <> Some D0 -> head b <> Some D0 ->
            digitsValue a = digitsValue b -> length a <= length b).
  { clear. intros a b Ha Hb Hv.
    destruct a as [|d a]; [simpl; lia|].
    assert (Hd : d <> D0) by (intros ->; now apply Ha).
    pose proof (digitsValue_lower d a Hd) as Hlo.
    pose proof (digitsValue_bounds b) as Hhi. rewrite Hv in Hlo.
    assert (Hp : (10 ^ Z.of_nat (length a) < 10 ^ Z.of_nat (length b))%Z) by lia.
    apply Z.pow_lt_mono_r_iff in Hp; [|lia|lia]. simpl. lia. }
  apply Nat.le_antisymm; apply Hlen; auto.
Qed.

(** *** The significant digits *)

Lemma stripLeading_spec (ds : list Digit) :
  exists i, ds = replicate i D0 ++ stripLeading ds /\
            head (stripLeading ds) <> Some D0.
Proof.
  induction ds as [|d ds (i & Heq & Hh)].
  - exists 0. split; [reflexivity | discriminate].
  - destruct (decide (d = D0)) as [->|Hd].
    + exists (S i). simpl. split; [f_equal; exact Heq | exact Hh].
    + exists 0. assert (Hs : stripLeading (d :: ds) = d :: ds)
        by (destruct d; first [contradiction | reflexivity]).
      rewrite Hs. split; [reflexivity|]. simpl. intros [= H]. contradiction.
Qed.

Lemma stripTrailing_spec (ds : list Digit) :
  exists j, ds = stripTrailing ds ++ replicate j D0 /\
            last (stripTrailing ds) <> Some D0.
Proof.
  unfold stripTrailing.
  destruct (stripLeading_spec (reverse ds)) as (j & Heq & Hh).
  exists j. split.
  - rewrite <- (reverse_involutive ds), Heq at 1.
    rewrite reverse_app, reverse_replicate. reflexivity.
  - rewrite last_reverse. exact Hh.
Qed.

Lemma stripLeading_value (ds : list Digit) :
  digitsValue (stripLeading ds) = digitsValue ds.
Proof.
  destruct (stripLeading_spec ds) as (i & Heq & _).
  rewrite Heq at 2. rewrite digitsValue_app, digitsValue_zeros. lia.
Qed.

(** The significant digits: no zero in front, none at the end. *)
Lemma significand_spec (x : JsNumber) :
  exists j,
    stripLeading (digits x) = significand x ++ replicate j D0 /\
    head (significand x) <> Some D0 /\
    last (significand x) <> Some D0.
Proof.
  unfold significand.
  destruct (stripLeading_spec (digits x)) as (i & _ & Hh).
  destruct (stripTrailing_spec (stripLeading (digits x))) as (j & Heq & Hl).
  exists j. split; [exact Heq|]. split; [|exact Hl].
  destruct (stripTrailing (stripLeading (digits x))) as [|c s]; [discriminate|].
  rewrite Heq in Hh. exact Hh.
Qed.

Lemma significand_positive (x : JsNumber) :
  significand x <> [] -> (0 < digitsValue (significand x))%Z.
Proof.
  destruct (significand_spec x) as (_ & _ & Hh & _).
  destruct (significand x) as [|d s]; [contradiction|]. intros _.
  assert (Hd : d <> D0) by (intros ->; now apply Hh).
  pose proof (digitsValue_lower d s Hd).
  assert (0 < 10 ^ Z.of_nat (length s))%Z by (apply Z.pow_pos_nonneg; lia).
  lia.
Qed.

Lemma significand_not_tenfold (x : JsNumber) :
  significand x <> [] -> (digitsValue (significand x) mod 10 <> 0)%Z.
Proof.
  destruct (significand_spec x) as (_ & _ & _ & Hl).
  destruct (significand x) as [|d s _] using rev_ind; [contradiction|].
  intros _. rewrite last_snoc in Hl. rewrite digitsValue_snoc.
  pose proof (digitValue_range d).
  rewrite Z.add_comm, Z.mul_comm, Z_mod_plus_full, Z.mod_small by lia.
  intros H0. apply digitValue_zero in H0. subst d. now apply Hl.
Qed.

(** *** Powers of ten *)

Lemma ten_nonzero : ~ (10 == 0)%Q.
Proof. discriminate. Qed.

Lemma pow10_pos (z : Z) : (0 < 10 ^ z)%Q.
Proof. apply Qpower_0_lt. reflexivity. Qed.

Lemma pow10_add (a b : Z) : (10 ^ (a + b) == 10 ^ a * 10 ^ b)%Q.
Proof. apply Qpower_plus, ten_nonzero. Qed.

Lemma pow10_nat (m : nat) :
  (10 ^ Z.of_nat m == inject_Z (10 ^ Z.of_nat m))%Q.
Proof. rewrite Zpower_Qpower by lia. reflexivity. Qed.

Lemma pow10_sub_nat (a : Z) (m : nat) :
  (10 ^ (a - Z.of_nat m) * inject_Z (10 ^ Z.of_nat m) == 10 ^ a)%Q.
Proof.
  rewrite <- pow10_nat, <- pow10_add. apply Qpower_comp; [reflexivity | lia].
Qed.

(** The value of a number, through its significant digits. *)
Lemma magnitude_significand (x : JsNumber) :
  (inject_Z (digitsValue (digits x)) * 10 ^ exponent10 x
   == inject_Z (digitsValue (significand x))
      * 10 ^ (pointPosition x - Z.of_nat (length (significand x))))%Q.
Proof.
  destruct (significand_spec x) as (j & Heq & _).
  rewrite <- (stripLeading_value (digits x)). unfold pointPosition.
  rewrite Heq, digitsValue_app, digitsValue_zeros, length_replicate, length_app,
    length_replicate, Z.add_0_r, inject_Z_mult, <- pow10_nat.
  replace (exponent10 x + Z.of_nat (length (significand x) + j)
           - Z.of_nat (length (significand x)))%Z
    with (Z.of_nat j + exponent10 x)%Z by lia.
  rewrite pow10_add. ring.
Qed.

Lemma fractionValue_scaled (f : list Digit) :
  (fractionValue f * inject_Z (10 ^ Z.of_nat (length f))
   == inject_Z (digitsValue f))%Q.
Proof.
  induction f as [|d f IH].
  - simpl. reflexivity.
  - cbn [fractionValue length]. rewrite digitsValue_cons.
    rewrite Nat2Z.inj_succ, Z.pow_succ_r by lia.
    rewrite inject_Z_plus, !inject_Z_mult, <- IH.
    change (inject_Z 10) with 10%Q. field.
Qed.

(** *** The numeral has the value of the number *)

Lemma scaled_value (q : Q) (V : Z) (m : nat) (a : Z) :
  (q * inject_Z (10 ^ Z.of_nat m) == inject_Z V)%Q ->
  (q * 10 ^ a == inject_Z V * 10 ^ (a - Z.of_nat m))%Q.
Proof.
  intros H.
  assert (Hnz : ~ (inject_Z (10 ^ Z.of_nat m) == 0)%Q).
  { rewrite <- pow10_nat. apply Qpower_not_0, ten_nonzero. }
  apply (Qmult_inj_r _ _ _ Hnz).
  rewrite <- (Qmult_assoc (inject_Z V)), pow10_sub_nat, <- H. ring.
Qed.

Lemma exponent_branch (n : Z) :
  ~ (0 < n <= 21)%Z -> ~ (-6 < n <= 0)%Z ->
  (if bool_decide (n < 0)%Z then Z.neg (Z.to_pos (Z.abs (n - 1)))
   else Z.pos (Z.to_pos (Z.abs (n - 1))))
  = (n - 1)%Z.
Proof. intros H1 H2. case_bool_decide; lia. Qed.

Lemma signed_eq (neg : bool) (a b : Q) :
  (a == b)%Q -> ((if neg then - a else a) == (if neg then - b else b))%Q.
Proof. intros H. destruct neg; rewrite H; reflexivity. Qed.

(** Steps 6 to 10 of [Number::toString] write the number itself. *)
Lemma toNumeral_value (x : JsNumber) : (numeralValue (toNumeral x) == toQ x)%Q.
Proof.
  unfold toQ. cbv zeta. rewrite (signed_eq _ _ _ (magnitude_significand x)).
  unfold toNumeral. cbv zeta.
  set (n := pointPosition x).
  destruct (significand x) as [|lead rest] eqn:Hs.
  { change (numeralValue (Plain false [D0] [])) with (0 + 0)%Q.
    change (inject_Z (digitsValue [])) with 0%Q.
    destruct (negative x); ring. }
  set (s := lead :: rest) in *. set (k := Z.of_nat (length s)).
  case_bool_decide as H6; [|case_bool_decide as H7; [|case_bool_decide as H8]];
    unfold numeralValue; apply signed_eq.
  - rewrite digitsValue_app, digitsValue_zeros, length_replicate, Z.add_0_r.
    rewrite Z2Nat.id by lia. rewrite inject_Z_mult, Zpower_Qpower by lia.
    simpl fractionValue. change (inject_Z 10) with 10%Q. fold k. ring.
  - assert (Hn : (0 < n < k)%Z) by lia.
    pose proof (take_drop (Z.to_nat n) s) as Hsplit.
    pose proof (fractionValue_scaled (drop (Z.to_nat n) s)) as Hf.
    assert (Hlen : Z.of_nat (length (drop (Z.to_nat n) s)) = (k - n)%Z).
    { rewrite length_drop. unfold k. lia. }
    rewrite <- (Qmult_1_r (_ + _)). change 1%Q with (10 ^ 0)%Q.
    replace (n - k)%Z with (0 - Z.of_nat (length (drop (Z.to_nat n) s)))%Z by lia.
    apply scaled_value.
    rewrite Qmult_plus_distr_l, Hf, <- inject_Z_mult, <- inject_Z_plus.
    rewrite <- digitsValue_app, Hsplit. reflexivity.
  - pose proof (fractionValue_scaled (replicate (Z.to_nat (- n)) D0 ++ s)) as Hf.
    rewrite digitsValue_app, digitsValue_zeros in Hf. simpl (0 * _ + _)%Z in Hf.
    assert (Hlen : Z.of_nat (length (replicate (Z.to_nat (- n)) D0 ++ s))
                   = (k - n)%Z).
    { rewrite length_app, length_replicate. unfold k. lia. }
    rewrite <- (Qmult_1_r (_ + _)). change 1%Q with (10 ^ 0)%Q.
    replace (n - k)%Z
      with (0 - Z.of_nat (length (replicate (Z.to_nat (- n)) D0 ++ s)))%Z by lia.
    apply scaled_value. rewrite <- Hf.
    change (inject_Z (digitsValue [D0])) with 0%Q. ring.
  - rewrite exponent_branch by assumption.
    pose proof (fractionValue_scaled rest) as Hf.
    replace (n - k)%Z with (n - 1 - Z.of_nat (length rest))%Z
      by (unfold k, s; simpl length; lia).
    apply scaled_value.
    rewrite Qmult_plus_distr_l, Hf, <- inject_Z_mult, <- inject_Z_plus.
    unfold s. rewrite digitsValue_cons. reflexivity.
Qed.

(** *** Numbers of one value have one numeral *)

Lemma scale_le (V1 V2 a1 a2 : Z) :
  (a1 <= a2)%Z ->
  (inject_Z V1 * 10 ^ a1 == inject_Z V2 * 10 ^ a2)%Q ->
  V1 = (V2 * 10 ^ (a2 - a1))%Z.
Proof.
  intros Ha H.
  replace a2 with (a1 + (a2 - a1))%Z in H at 1 by lia.
  rewrite pow10_add in H.
  assert (Hnz : ~ (10 ^ a1 == 0)%Q) by apply Qpower_not_0, ten_nonzero.
  assert (H' : (inject_Z V1 * 10 ^ a1
                == inject_Z V2 * 10 ^ (a2 - a1) * 10 ^ a1)%Q)
    by (rewrite H; ring).
  apply (proj1 (Qmult_inj_r _ _ _ Hnz)) in H'.
  assert (Hp : (10 ^ (a2 - a1) == inject_Z (10 ^ (a2 - a1)))%Q).
  { rewrite Zpower_Qpower by lia. reflexivity. }
  rewrite Hp, <- inject_Z_mult in H'.
  apply (proj1 (inject_Z_injective _ _)) in H'. exact H'.
Qed.

Lemma scale_unique (V1 V2 a1 a2 : Z) :
  (V1 mod 10 <> 0)%Z -> (V2 mod 10 <> 0)%Z ->
  (inject_Z V1 * 10 ^ a1 == inject_Z V2 * 10 ^ a2)%Q ->
  V1 = V2 /\ a1 = a2.
Proof.
  assert (Haux : forall V1 V2 a1 a2,
            (V1 mod 10 <> 0)%Z -> (a1 <= a2)%Z ->
            (inject_Z V1 * 10 ^ a1 == inject_Z V2 * 10 ^ a2)%Q ->
            V1 = V2 /\ a1 = a2).
  { clear. intros V1 V2 a1 a2 H1 Ha H.
    apply scale_le in H; [|exact Ha].
    destruct (decide (a1 = a2)) as [->|Hne].
    - rewrite Z.sub_diag in H. simpl in H. split; [lia | reflexivity].
    - exfalso. apply H1. rewrite H.
      replace (a2 - a1)%Z with (Z.succ (a2 - a1 - 1)) by lia.
      rewrite Z.pow_succ_r by lia.
      replace (V2 * (10 * 10 ^ (a2 - a1 - 1)))%Z
        with (V2 * 10 ^ (a2 - a1 - 1) * 10)%Z by lia.
      apply Z_mod_mult. }
  intros H1 H2 H. destruct (Z.le_ge_cases a1 a2) as [Ha|Ha].
  - apply Haux; assumption.
  - symmetry in H. destruct (Haux V2 V1 a2 a1 H2 Ha H) as [-> ->]. auto.
Qed.

Lemma toQ_sign (x : JsNumber) :
  significand x <> [] ->
  if negative x then (toQ x < 0)%Q else (0 < toQ x)%Q.
Proof.
  intros Hs. unfold toQ. cbv zeta.
  pose proof (significand_positive x Hs) as HV.
  assert (Hpos : (0 < inject_Z (digitsValue (digits x)) * 10 ^ exponent10 x)%Q).
  { rewrite magnitude_significand. apply Qmult_lt_0_compat; [|apply pow10_pos].
    change 0%Q with (inject_Z 0). rewrite <- Zlt_Qlt. exact HV. }
  destruct (negative x); lra.
Qed.

Lemma toQ_zero (x : JsNumber) : significand x = [] -> (toQ x == 0)%Q.
Proof.
  intros Hs. unfold toQ. cbv zeta.
  assert (H0 : (inject_Z (digitsValue (digits x)) * 10 ^ exponent10 x == 0)%Q).
  { rewrite magnitude_significand, Hs.
    change (inject_Z (digitsValue [])) with 0%Q. ring. }
  destruct (negative x); rewrite H0; reflexivity.
Qed.

(** The value decides the significant digits, and for a number other than
    zero the sign and the position of the point. *)
Lemma toQ_normal (x y : JsNumber) :
  (toQ x == toQ y)%Q ->
  significand x = significand y /\
  (significand x <> [] ->
   negative x = negative y /\ pointPosition x = pointPosition y).
Proof.
  intros H.
  destruct (decide (significand x = [])) as [Hx|Hx];
    destruct (decide (significand y = [])) as [Hy|Hy].
  - split; [congruence | contradiction].
  - exfalso. pose proof (toQ_zero x Hx). pose proof (toQ_sign y Hy).
    destruct (negative y); lra.
  - exfalso. pose proof (toQ_zero y Hy). pose proof (toQ_sign x Hx).
    destruct (negative x); lra.
  - pose proof (toQ_sign x Hx) as Sx. pose proof (toQ_sign y Hy) as Sy.
    assert (Hneg : negative x = negative y).
    { destruct (negative x), (negative y); first [reflexivity | lra]. }
    assert (Hmag : (inject_Z (digitsValue (significand x))
                      * 10 ^ (pointPosition x - Z.of_nat (length (significand x)))
                    == inject_Z (digitsValue (significand y))
                      * 10 ^ (pointPosition y - Z.of_nat (length (significand y))))%Q).
    { rewrite <- !magnitude_significand. unfold toQ in H. cbv zeta in H.
      rewrite Hneg in H. destruct (negative y); lra. }
    apply scale_unique in Hmag as [HV Ha];
      [|apply significand_not_tenfold; assumption..].
    destruct (significand_spec x) as (_ & _ & Hhx & _).
    destruct (significand_spec y) as (_ & _ & Hhy & _).
    apply digitsValue_inj in HV; [|assumption..].
    split; [exact HV|]. intros _. split; [exact Hneg|].
    rewrite HV in Ha. lia.
Qed.

Lemma toNumeral_normal (x y : JsNumber) :
  (toQ x == toQ y)%Q -> toNumeral x = toNumeral y.
Proof.
  intros H. apply toQ_normal in H as [Hs Hrest].
  unfold toNumeral. cbv zeta. rewrite <- Hs.
  destruct (significand x) as [|lead rest]; [reflexivity|].
  destruct Hrest as [-> ->]; [discriminate | reflexivity].
Qed.

(** *** Whole numbers *)

Lemma digitValue_digitOf (r : Z) :
  (0 <= r <= 9)%Z -> digitValue (digitOf r) = r.
Proof.
  intros H.
  assert (Hr : (r = 0 \/ r = 1 \/ r = 2 \/ r = 3 \/ r = 4 \/ r = 5 \/ r = 6 \/
                r = 7 \/ r = 8 \/ r = 9)%Z) by lia.
  repeat (destruct Hr as [->|Hr]; [reflexivity|]). subst r. reflexivity.
Qed.

Lemma digitsOfFuel_value (fuel : nat) (z : Z) (acc : list Digit) :
  (0 <= z < 2 ^ Z.of_nat fuel)%Z ->
  digitsValue (digitsOfFuel fuel z acc)
  = (z * 10 ^ Z.of_nat (length acc) + digitsValue acc)%Z.
Proof.
  revert z acc. induction fuel as [|fuel IH]; intros z acc Hz.
  - simpl in *. assert (z = 0)%Z as -> by lia. lia.
  - cbn [digitsOfFuel]. destruct (z <=? 0)%Z eqn:H0.
    + apply Z.leb_le in H0. assert (z = 0)%Z as -> by lia. lia.
    + apply Z.leb_gt in H0.
      rewrite Nat2Z.inj_succ, Z.pow_succ_r in Hz by lia.
      rewrite IH.
      * rewrite digitsValue_cons, digitValue_digitOf
          by (pose proof (Z.mod_pos_bound z 10); lia).
        cbn [length]. rewrite Nat2Z.inj_succ, Z.pow_succ_r by lia.
        rewrite (Z.div_mod z 10) at 3 by lia. ring.
      * split; [apply Z.div_pos; lia|].
        apply Z.div_lt_upper_bound; lia.
Qed.

Lemma digitsOf_value (z : Z) : (0 <= z)%Z -> digitsValue (digitsOf z) = z.
Proof.
  intros Hz. unfold digitsOf. rewrite digitsOfFuel_value.
  - simpl. unfold digitsValue. simpl. lia.
  - split; [exact Hz|]. destruct (decide (z = 0%Z)) as [->|Hne]; [reflexivity|].
    rewrite Nat2Z.inj_succ, Z2Nat.id by apply Z.log2_nonneg.
    apply Z.log2_spec. lia.
Qed.

Lemma toQ_num (z : Z) : (toQ (num z) == inject_Z z)%Q.
Proof.
  unfold toQ, num. cbn [negative digits exponent10].
  rewrite digitsOf_value by lia.
  destruct (z <? 0)%Z eqn:Hneg; change (10 ^ 0)%Q with 1%Q; rewrite Qmult_1_r.
  - apply Z.ltb_lt in Hneg. rewrite <- inject_Z_opp.
    replace (- Z.abs z)%Z with z by lia. reflexivity.
  - apply Z.ltb_ge in Hneg. replace (Z.abs z) with z by lia. reflexivity.
Qed.

(** ** The effect layer *)

Lemma mapM_Forall2 {A B} (f : A -> Eff B) (l : list A) (w : World) :
  Forall2 (fun x y => exists w', y = fst (f x w')) l (fst (mapM f l w)).
Proof.
  revert w. induction l as [|x l IH]; intros w; simpl.
  - constructor.
  - unfold bind. destruct (f x w) as [y w1] eqn:Hy.
    specialize (IH w1). destruct (mapM f l w1) as [ys w2]. simpl in *.
    constructor; [|exact IH].
    exists w. now rewrite Hy.
Qed.

Lemma mapM_length {A B} (f : A -> Eff B) (l : list A) (w : World) :
  length (fst (mapM f l w)) = length l.
Proof.
  symmetry. eapply Forall2_length, mapM_Forall2.
Qed.

(** ** Samples *)

Lemma generateMetricPoint_shape (prev : option MetricPoint.t) (w : World) :
  exists c r d n,
    fst (generateMetricPoint prev w)
    = MetricPoint.mk (clock w) (clamp100 c) (clamp100 r) (clamp100 d) (clamp100 n).
Proof.
  destruct prev as [p|]; cbv [generateMetricPoint bind baseline drift random
    dateNow ret fst clock rolls cursor]; destruct w; eauto.
Qed.

Lemma generateMetricPoint_inRange (prev : option MetricPoint.t) (w : World) :
  sampleInRange (fst (generateMetricPoint prev w)).
Proof.
  destruct (generateMetricPoint_shape prev w) as (c & r & d & n & ->).
  unfold sampleInRange, inRange; simpl.
  repeat split; apply clamp100_range.
Qed.

(** ** The fleet *)

Lemma updateDevice_shape (d : Device.t) (w : World) :
  exists roll w' now,
    fst (updateDevice d w)
    = Device.mk (Device.id d) (Device.name d) (Device.type d)
        (rollStatus roll (Device.status d))
        (Device.location d) (Device.ip d)
        (drop 1 (Device.metrics d)
           ++ [fst (generateMetricPoint (last (Device.metrics d)) w')])
        now.
Proof.
  unfold updateDevice, bind, random, dateNow, ret.
  set (w1 := mkWorld _ _ _ _).
  destruct (generateMetricPoint _ w1) as [m w2] eqn:Hm. simpl.
  exists (rolls w (cursor w)), w1, (clock w2). now rewrite Hm.
Qed.

Lemma Forall2_map_eq {A B C} (R : A -> B -> Prop) (f : A -> C) (g : B -> C)
    (l : list A) (l' : list B) :
  (forall x y, R x y -> g y = f x) -> Forall2 R l l' -> map g l' = map f l.
Proof.
  intros HR H. induction H as [|x y l l' Hxy _ IH]; simpl; [reflexivity|].
  now rewrite (HR _ _ Hxy), IH.
Qed.

Lemma updateDevices_advanced (ds : list Device.t) (w : World) :
  Forall2 advanced ds (fst (updateDevices ds w)).
Proof. apply mapM_Forall2. Qed.

(** C10. [updateDevices] returns as many devices as it was given, in the
    same order, and the device at each position keeps its id, name, type,
    location and ip; what is left of the record (status, metrics,
    lastUpdate) is all that a tick can change. *)
Theorem updateDevices_preserves_identity (ds : list Device.t) (w : World) :
  let ds' := fst (updateDevices ds w) in
  length ds' = length ds /\
  map Device.id ds' = map Device.id ds /\
  map Device.name ds' = map Device.name ds /\
  map Device.type ds' = map Device.type ds /\
  map Device.location ds' = map Device.location ds /\
  map Device.ip ds' = map Device.ip ds.
Proof.
  intros ds'. pose proof (updateDevices_advanced ds w) as H. fold ds' in H.
  split; [symmetry; eapply Forall2_length, H|].
  repeat split; (eapply Forall2_map_eq; [|exact H]);
    intros d d' [w' ->];
    destruct (updateDevice_shape d w') as (roll & w'' & now & ->);
    reflexivity.
Qed.

(** C8 (the code departs from the claim here). The chain tests
    [roll > 0.98] first, so a roll above 0.995 or above 0.999 is already
    taken by the WARNING branch: at the rolls 0.997 and 0.9995 the new
    status is WARNING, and for every roll and every previous status the
    chain computes WARNING above 0.98, ONLINE below 0.1 and the previous
    status in between, so no roll makes a device enter ERROR or OFFLINE. *)
Theorem rollStatus_error_offline_unreachable :
  rollStatus 0.997 ONLINE = WARNING /\
  rollStatus 0.9995 ONLINE = WARNING /\
  forall (roll : Q) (s : DeviceStatus),
    rollStatus roll s
    = (if Qgtb roll 0.98 then WARNING
       else if Qltb roll 0.1 then ONLINE else s) /\
    (rollStatus roll s = WARNING \/ rollStatus roll s = ONLINE \/
     rollStatus roll s = s).
Proof.
  split; [reflexivity|]. split; [reflexivity|].
  intros roll s. unfold rollStatus.
  destruct (Qgtb roll 0.98) eqn:H98; [auto|].
  destruct (Qgtb roll 0.995) eqn:H995.
  { apply (Qgtb_weaken roll 0.98) in H995; [congruence | discriminate]. }
  destruct (Qgtb roll 0.999) eqn:H999.
  { apply (Qgtb_weaken roll 0.98) in H999; [congruence | discriminate]. }
  destruct (Qltb roll 0.1); simpl; [|auto].
  case_bool_decide as Hs; simpl; [rewrite Hs|]; auto.
Qed.

(** *** History length *)

Lemma backfill_length (n : nat) (lastMetric : option MetricPoint.t)
    (acc : list MetricPoint.t) (w : World) :
  length (fst (backfill n lastMetric acc w)) = length acc + n.
Proof.
  revert lastMetric acc w. induction n as [|n IH]; intros lastMetric acc w; simpl.
  - unfold ret; simpl. lia.
  - unfold bind. destruct (generateMetricPoint lastMetric w) as [m w1].
    rewrite IH, length_app. simpl. lia.
Qed.

Lemma createDevice_history (i : nat) (w : World) :
  length (Device.metrics (fst (createDevice i w))) = 20.
Proof.
  unfold createDevice, bind, random, dateNow, ret.
  set (w1 := mkWorld _ _ _ _).
  pose proof (backfill_length 20 None [] w1) as H.
  destruct (backfill 20 None [] w1) as [ms w2]. simpl in *. exact H.
Qed.

Lemma updateDevice_history (d : Device.t) (w : World) :
  exists w',
    Device.metrics (fst (updateDevice d w))
    = drop 1 (Device.metrics d)
        ++ [fst (generateMetricPoint (last (Device.metrics d)) w')].
Proof.
  destruct (updateDevice_shape d w) as (roll & w' & now & ->). now exists w'.
Qed.

Lemma updateDevice_history_length (d : Device.t) (w : World) :
  length (Device.metrics (fst (updateDevice d w)))
  = Nat.max 1 (length (Device.metrics d)).
Proof.
  destruct (updateDevice_history d w) as (w' & ->).
  rewrite length_app, length_drop. simpl. lia.
Qed.

Lemma updateDevices_preserves (P : Device.t -> Prop) (ds : list Device.t)
    (w : World) :
  (forall d w', P d -> P (fst (updateDevice d w'))) ->
  Forall P ds -> Forall P (fst (updateDevices ds w)).
Proof.
  intros Hstep Hds. pose proof (updateDevices_advanced ds w) as H.
  induction H as [|d d' l l' [w' ->] _ IH]; [constructor|].
  apply Forall_cons in Hds as [Hd Hl]. constructor; auto.
Qed.

Lemma fleetAfter_invariant (P : Device.t -> Prop) (count : nat) (w0 : World)
    (ws : list World) :
  (forall i w, P (fst (createDevice i w))) ->
  (forall d w, P d -> P (fst (updateDevice d w))) ->
  Forall P (fleetAfter count w0 ws).
Proof.
  intros Hinit Hstep. unfold fleetAfter.
  assert (H0 : Forall P (fst (createInitialDevices count w0))).
  { unfold createInitialDevices.
    pose proof (mapM_Forall2 createDevice (seq 0 count) w0) as H.
    induction H as [|i d l l' [w' ->] _ IH]; constructor; auto. }
  revert H0. generalize (fst (createInitialDevices count w0)) as ds.
  induction ws as [|w ws IH]; intros ds Hds; simpl; [exact Hds|].
  apply IH, updateDevices_preserves; assumption.
Qed.

Lemma fleetAfter_full (count : nat) (w0 : World) (ws : list World) :
  Forall (fun d => length (Device.metrics d) = 20) (fleetAfter count w0 ws).
Proof.
  apply fleetAfter_invariant.
  - apply createDevice_history.
  - intros d w Hd. rewrite updateDevice_history_length, Hd. reflexivity.
Qed.

(** *** Range of the stored samples *)

Lemma backfill_inRange (n : nat) (lastMetric : option MetricPoint.t)
    (acc : list MetricPoint.t) (w : World) :
  Forall sampleInRange acc ->
  Forall sampleInRange (fst (backfill n lastMetric acc w)).
Proof.
  revert lastMetric acc w. induction n as [|n IH]; intros lastMetric acc w Hacc;
    simpl; [exact Hacc|].
  unfold bind.
  pose proof (generateMetricPoint_inRange lastMetric w) as Hm.
  destruct (generateMetricPoint lastMetric w) as [m w1]. simpl in Hm.
  apply IH, Forall_app. split; [exact Hacc|]. now constructor.
Qed.

Lemma createDevice_inRange (i : nat) (w : World) :
  Forall sampleInRange (Device.metrics (fst (createDevice i w))).
Proof.
  unfold createDevice, bind, random, dateNow, ret.
  set (w1 := mkWorld _ _ _ _).
  pose proof (backfill_inRange 20 None [] w1 (Forall_nil_2 _)) as H.
  destruct (backfill 20 None [] w1) as [ms w2]. simpl in *. exact H.
Qed.

Lemma updateDevice_inRange (d : Device.t) (w : World) :
  Forall sampleInRange (Device.metrics d) ->
  Forall sampleInRange (Device.metrics (fst (updateDevice d w))).
Proof.
  intros Hd. destruct (updateDevice_history d w) as (w' & ->).
  apply Forall_app. split; [apply Forall_drop, Hd|].
  constructor; [apply generateMetricPoint_inRange | constructor].
Qed.

Lemma fleetAfter_inRange (count : nat) (w0 : World) (ws : list World) :
  Forall (fun d => Forall sampleInRange (Device.metrics d))
         (fleetAfter count w0 ws).
Proof.
  apply fleetAfter_invariant.
  - apply createDevice_inRange.
  - intros d w. apply updateDevice_inRange.
Qed.

(** C6. Every sample that [generateMetricPoint] returns, seeded (no previous
    sample) or drifted from any previous sample, under any stream of random
    rolls and any clock, has cpu, ram, disk and network in [[0,100]]; hence
    so has every sample stored in a fleet made by [createInitialDevices] and
    advanced by any number of [updateDevices] calls. *)
Theorem generated_sample_clamped :
  (forall (prev : option MetricPoint.t) (w : World),
     sampleInRange (fst (generateMetricPoint prev w))) /\
  (forall (count : nat) (w0 : World) (ws : list World),
     Forall (fun d => Forall sampleInRange (Device.metrics d))
            (fleetAfter count w0 ws)).
Proof.
  split; [exact generateMetricPoint_inRange | exact fleetAfter_inRange].
Qed.

(** C7. In a fleet made by [createInitialDevices] and advanced by any
    number of [updateDevices] calls, the history of every device has
    [min (ticks + 20) 20] samples, which is never more than the capacity of
    20 (the fleet is created with 20 samples per device). The next
    [updateDevices] call gives the fleet after one more tick, and in it the
    history of each device is the old history, without its oldest sample
    if and only if the old history was at capacity, followed by exactly one
    new sample, generated from the old latest sample; a history below
    capacity would grow by one sample, and no history exceeds the
    capacity afterwards. *)
Theorem history_bounded_fifo (count : nat) (w0 : World) (ws : list World)
    (w : World) :
  let fleet := fleetAfter count w0 ws in
  let fleet' := fleetAfter count w0 (ws ++ [w]) in
  Forall (fun d => length (Device.metrics d) = Nat.min (length ws + 20) 20 /\
                   length (Device.metrics d) <= 20) fleet /\
  fleet' = fst (updateDevices fleet w) /\
  Forall2 (fun d d' =>
             let old := Device.metrics d in
             exists w',
               Device.metrics d'
               = (if decide (length old = 20) then drop 1 old else old)
                   ++ [fst (generateMetricPoint (last old) w')] /\
               (length old < 20 ->
                length (Device.metrics d') = S (length old)) /\
               length (Device.metrics d') <= 20)
          fleet fleet'.
Proof.
  intros fleet fleet'.
  assert (Hfull : Forall (fun d => length (Device.metrics d) = 20) fleet)
    by apply fleetAfter_full.
  assert (Hnext : fleet' = fst (updateDevices fleet w)).
  { unfold fleet', fleet, fleetAfter. rewrite fold_left_app. reflexivity. }
  split; [|split; [exact Hnext|]].
  - eapply Forall_impl; [exact Hfull|].
    intros d Hd; simpl in Hd. rewrite Hd. lia.
  - rewrite Hnext. clear Hnext fleet'. clearbody fleet.
    pose proof (updateDevices_advanced fleet w) as Hadv.
    induction Hadv as [|d d' l l' [w1 ->] _ IH]; [constructor|].
    apply Forall_cons in Hfull as [Hd Hl].
    constructor; [|exact (IH Hl)].
    destruct (updateDevice_history d w1) as (w' & Heq).
    exists w'. cbv zeta. rewrite Heq, Hd.
    rewrite decide_True by reflexivity.
    split; [reflexivity|]. split; [lia|].
    rewrite length_app, length_drop, Hd. simpl. lia.
Qed.

(** ** The evaluator *)

Lemma pointsNeeded_pos (alertDuration : JsNumber) :
  (1 <= pointsNeeded alertDuration)%Z.
Proof. unfold pointsNeeded. apply Z.le_max_l. Qed.

Lemma pointsNeeded_ceiling (dur : JsNumber) :
  exists c : Z,
    (inject_Z (3 * (c - 1)) < toQ dur)%Q /\
    (toQ dur <= inject_Z (3 * c))%Q /\
    pointsNeeded dur = Z.max 1 c.
Proof.
  exists (Qceiling (toQ dur / 3)).
  pose proof (Qle_ceiling (toQ dur / 3)) as Hle.
  pose proof (Qceiling_lt (toQ dur / 3)) as Hlt.
  set (c := Qceiling (toQ dur / 3)) in *.
  apply (Qmult_le_compat_r _ _ 3) in Hle; [|discriminate].
  apply (Qmult_lt_compat_r _ _ 3) in Hlt; [|reflexivity].
  unfold Qdiv in Hle, Hlt.
  rewrite <- Qmult_assoc, (Qmult_comm (/ 3)), Qmult_inv_r, Qmult_1_r in Hle, Hlt
    by discriminate.
  rewrite !inject_Z_mult. change (inject_Z 3) with 3%Q.
  split; [|split; [|reflexivity]].
  - rewrite Qmult_comm. exact Hlt.
  - rewrite Qmult_comm. exact Hle.
Qed.

(** The bounds of [pointsNeeded_ceiling], read in the integers. *)
Lemma ceiling_bounds (q : Q) (c lo hi : Z) :
  (inject_Z (3 * (c - 1)) < q)%Q -> (q <= inject_Z (3 * c))%Q ->
  ((inject_Z lo < q)%Q -> (lo < 3 * c)%Z) /\
  ((q <= inject_Z hi)%Q -> (3 * (c - 1) < hi)%Z).
Proof.
  intros Hlt Hle. split; intros H.
  - rewrite Zlt_Qlt. eapply Qlt_le_trans; eassumption.
  - rewrite Zlt_Qlt. eapply Qlt_le_trans; eassumption.
Qed.

Lemma sliceLast_suffix {A} (n : nat) (l : list A) :
  n <= length l ->
  exists older, l = older ++ sliceLast n l /\ length (sliceLast n l) = n.
Proof.
  intros Hn. unfold sliceLast. exists (take (length l - n) l). split.
  - symmetry. apply take_drop.
  - rewrite length_drop. lia.
Qed.

Lemma exceeded_sustained (m : MetricType) (threshold : JsNumber)
    (l : list MetricPoint.t) :
  forallb (fun p => Qgtb (reading m p) (toQ threshold)) l = true
  <-> Forall (fun p => (toQ threshold < reading m p)%Q) l.
Proof.
  induction l as [|p l IH]; simpl.
  - split; [constructor | reflexivity].
  - rewrite andb_true_iff, Qgtb_true, IH, Forall_cons. reflexivity.
Qed.

Lemma raise_elem (alertDuration : JsNumber) (dismissed : gset string)
    (now : MetricType -> Z) (d : Device.t) (m : MetricType)
    (threshold : JsNumber) (latest : Q) (a : Alert.t) :
  a ∈ raise alertDuration dismissed now d m threshold latest
  <-> (alertId (Device.id d) m threshold alertDuration ∉ dismissed) /\
      a = Alert.mk (alertId (Device.id d) m threshold alertDuration)
            (Device.id d) (Device.name d) m latest (now m).
Proof.
  unfold raise. case_bool_decide as Hd.
  - split; [intros H; inversion H | intros [H _]; contradiction].
  - rewrite list_elem_of_singleton. tauto.
Qed.

(** What the [forEach] callback pushes for a device that passes the
    history-length guard. *)
Lemma evaluateDevice_enough (cpuT ramT dur : JsNumber)
    (dismissed : gset string) (now : MetricType -> Z) (d : Device.t) :
  (pointsNeeded dur <= Z.of_nat (length (Device.metrics d)))%Z ->
  exists latest,
    last (Device.metrics d) = Some latest /\
    evaluateDevice cpuT ramT dur dismissed now d
    = (if forallb (fun p => Qgtb (reading CPU p) (toQ cpuT)) (window dur d)
       then raise dur dismissed now d CPU cpuT (reading CPU latest) else [])
      ++
      (if forallb (fun p => Qgtb (reading RAM p) (toQ ramT)) (window dur d)
       then raise dur dismissed now d RAM ramT (reading RAM latest) else []).
Proof.
  intros Hlen. unfold evaluateDevice.
  case_bool_decide as Hshort; [lia|].
  destruct (last (Device.metrics d)) as [latest|] eqn:Hlast.
  - exists latest. split; reflexivity.
  - apply last_None in Hlast. rewrite Hlast in Hlen. simpl in Hlen.
    pose proof (pointsNeeded_pos dur). lia.
Qed.

Lemma evaluateDevice_short (cpuT ramT dur : JsNumber)
    (dismissed : gset string) (now : MetricType -> Z) (d : Device.t) :
  (Z.of_nat (length (Device.metrics d)) < pointsNeeded dur)%Z ->
  evaluateDevice cpuT ramT dur dismissed now d = [].
Proof.
  intros Hlen. unfold evaluateDevice. case_bool_decide; [reflexivity | lia].
Qed.

(** Every alert the callback pushes is one of the two it can build. *)
Lemma evaluateDevice_elem (cpuT ramT dur : JsNumber)
    (dismissed : gset string) (now : MetricType -> Z) (d : Device.t)
    (a : Alert.t) :
  a ∈ evaluateDevice cpuT ramT dur dismissed now d ->
  exists m latest,
    last (Device.metrics d) = Some latest /\
    sustained m (thresholdFor m cpuT ramT) dur d /\
    (alertId (Device.id d) m (thresholdFor m cpuT ramT) dur ∉ dismissed) /\
    a = Alert.mk
          (alertId (Device.id d) m (thresholdFor m cpuT ramT) dur)
          (Device.id d) (Device.name d) m (reading m latest) (now m).
Proof.
  destruct (Z_lt_le_dec (Z.of_nat (length (Device.metrics d))) (pointsNeeded dur))
    as [Hshort|Hlen].
  { rewrite evaluateDevice_short by exact Hshort. intros H; inversion H. }
  destruct (evaluateDevice_enough cpuT ramT dur dismissed now d Hlen)
    as (latest & Hlast & ->).
  rewrite elem_of_app. intros [H|H].
  - destruct (forallb _ _) eqn:Hall in H; [|inversion H].
    apply raise_elem in H as [Hnd ->]. apply exceeded_sustained in Hall.
    exists CPU, latest. auto.
  - destruct (forallb _ _) eqn:Hall in H; [|inversion H].
    apply raise_elem in H as [Hnd ->]. apply exceeded_sustained in Hall.
    exists RAM, latest. auto.
Qed.

(** A device that qualifies for metric [m] gets the alert of [m]. *)
Lemma evaluateDevice_raises (cpuT ramT dur : JsNumber)
    (dismissed : gset string) (now : MetricType -> Z) (d : Device.t)
    (m : MetricType) :
  (pointsNeeded dur <= Z.of_nat (length (Device.metrics d)))%Z ->
  sustained m (thresholdFor m cpuT ramT) dur d ->
  alertId (Device.id d) m (thresholdFor m cpuT ramT) dur ∉ dismissed ->
  exists latest,
    last (Device.metrics d) = Some latest /\
    Alert.mk (alertId (Device.id d) m (thresholdFor m cpuT ramT) dur)
             (Device.id d) (Device.name d) m (reading m latest) (now m)
    ∈ evaluateDevice cpuT ramT dur dismissed now d.
Proof.
  intros Hlen Hs Hnd.
  destruct (evaluateDevice_enough cpuT ramT dur dismissed now d Hlen)
    as (latest & Hlast & ->).
  apply exceeded_sustained in Hs.
  exists latest. split; [exact Hlast|]. rewrite elem_of_app.
  destruct m; [left | right]; unfold thresholdFor in Hs; rewrite Hs;
    apply raise_elem; auto.
Qed.

Lemma evaluateDevice_emits (cpuT ramT dur : JsNumber)
    (dismissed : gset string) (now : MetricType -> Z) (d : Device.t)
    (m : MetricType) :
  (pointsNeeded dur <= Z.of_nat (length (Device.metrics d)))%Z ->
  emits m (evaluateDevice cpuT ramT dur dismissed now d)
  <-> sustained m (thresholdFor m cpuT ramT) dur d /\
      (alertId (Device.id d) m (thresholdFor m cpuT ramT) dur ∉ dismissed).
Proof.
  intros Hlen. split.
  - intros (a & Ha & Hm).
    apply evaluateDevice_elem in Ha as (m' & latest & _ & Hs & Hnd & ->).
    simpl in Hm. subst m'. auto.
  - intros [Hs Hnd].
    destruct (evaluateDevice_raises cpuT ramT dur dismissed now d m Hlen Hs Hnd)
      as (latest & _ & Ha).
    eexists. split; [exact Ha | reflexivity].
Qed.

(** The callback reads the clock only through the two readings it is
    given. *)
Lemma evaluateDevice_ext (cpuT ramT dur : JsNumber) (dismissed : gset string)
    (now now' : MetricType -> Z) (d : Device.t) :
  (forall m, now m = now' m) ->
  evaluateDevice cpuT ramT dur dismissed now d
  = evaluateDevice cpuT ramT dur dismissed now' d.
Proof.
  intros H. unfold evaluateDevice, raise. rewrite !H. reflexivity.
Qed.

Lemma evaluate_ext (cpuT ramT dur : JsNumber) (dismissed : gset string)
    (now now' : nat -> MetricType -> Z) (ds : list Device.t) :
  (forall i m, i < length ds -> now i m = now' i m) ->
  evaluate cpuT ramT dur dismissed now ds
  = evaluate cpuT ramT dur dismissed now' ds.
Proof.
  revert now now'. induction ds as [|d ds IH]; intros now now' H; simpl;
    [reflexivity|].
  f_equal.
  - apply evaluateDevice_ext. intros m. apply H. simpl. lia.
  - apply IH. intros i m Hi. apply H. simpl. lia.
Qed.

Lemma evaluate_app (cpuT ramT dur : JsNumber) (dismissed : gset string)
    (now : nat -> MetricType -> Z) (ds1 ds2 : list Device.t) :
  evaluate cpuT ramT dur dismissed now (ds1 ++ ds2)
  = evaluate cpuT ramT dur dismissed now ds1
    ++ evaluate cpuT ramT dur dismissed (fun i => now (length ds1 + i)) ds2.
Proof.
  revert now. induction ds1 as [|d ds1 IH]; intros now; simpl; [reflexivity|].
  rewrite IH, app_assoc. reflexivity.
Qed.

Lemma evaluate_elem (cpuT ramT dur : JsNumber) (dismissed : gset string)
    (now : nat -> MetricType -> Z) (ds : list Device.t) (a : Alert.t) :
  a ∈ evaluate cpuT ramT dur dismissed now ds
  <-> exists i d, ds !! i = Some d /\
                  a ∈ evaluateDevice cpuT ramT dur dismissed (now i) d.
Proof.
  revert now. induction ds as [|d0 ds IH]; intros now; simpl.
  - split; [intros H; inversion H|].
    intros (i & d & Hi & _). discriminate Hi.
  - rewrite elem_of_app, IH. split.
    + intros [H|(i & d & Hi & Ha)]; [exists 0, d0 | exists (S i), d]; auto.
    + intros (i & d & Hi & Ha). destruct i as [|i]; simpl in Hi.
      * injection Hi as ->. left. exact Ha.
      * right. eauto.
Qed.

(** Every alert of [newAlerts] was pushed for some device of the list. *)
Lemma evaluate_elem_device (cpuT ramT dur : JsNumber)
    (dismissed : gset string) (now : nat -> MetricType -> Z)
    (ds : list Device.t) (a : Alert.t) :
  a ∈ evaluate cpuT ramT dur dismissed now ds ->
  exists d clock,
    d ∈ ds /\ a ∈ evaluateDevice cpuT ramT dur dismissed clock d.
Proof.
  intros Ha. apply evaluate_elem in Ha as (i & d & Hi & Ha).
  exists d, (now i). split; [|exact Ha]. apply list_elem_of_lookup. eauto.
Qed.

Lemma evaluate_not_dismissed (cpuT ramT dur : JsNumber)
    (dismissed : gset string) (now : nat -> MetricType -> Z)
    (ds : list Device.t) (a : Alert.t) :
  a ∈ evaluate cpuT ramT dur dismissed now ds -> Alert.id a ∉ dismissed.
Proof.
  intros Ha. apply evaluate_elem_device in Ha as (d & clock & _ & Ha).
  apply evaluateDevice_elem in Ha as (m & latest & _ & _ & Hnd & ->).
  exact Hnd.
Qed.

(** C1 (as amended). For a device whose history has at least
    [pointsNeeded] samples, the window is the trailing [pointsNeeded]
    samples of the history, and the evaluator emits a CPU alert for the
    device if and only if every sample of the window has cpu strictly above
    [cpuThreshold] and the alert's id is not in the dismissal set (likewise
    for RAM and [ramThreshold]); every alert emitted carries the reading of
    the most recent sample, and all of it ends up in [newAlerts], wherever
    the device stands in the list. *)
Theorem sustained_breach_emits (cpuT ramT dur : JsNumber)
    (dismissed : gset string) (now : MetricType -> Z) (d : Device.t) :
  (pointsNeeded dur <= Z.of_nat (length (Device.metrics d)))%Z ->
  let out := evaluateDevice cpuT ramT dur dismissed now d in
  (exists older,
     Device.metrics d = older ++ window dur d /\
     Z.of_nat (length (window dur d)) = pointsNeeded dur) /\
  (emits CPU out <->
     sustained CPU cpuT dur d /\
     (alertId (Device.id d) CPU cpuT dur ∉ dismissed)) /\
  (emits RAM out <->
     sustained RAM ramT dur d /\
     (alertId (Device.id d) RAM ramT dur ∉ dismissed)) /\
  (forall a, a ∈ out ->
     exists latest,
       last (Device.metrics d) = Some latest /\
       Alert.value a = reading (Alert.metricType a) latest /\
       Alert.deviceId a = Device.id d) /\
  (forall ds i clocks a,
     ds !! i = Some d -> (forall m, clocks i m = now m) -> a ∈ out ->
     a ∈ evaluate cpuT ramT dur dismissed clocks ds).
Proof.
  intros Hlen out. pose proof (pointsNeeded_pos dur) as Hpos.
  split; [|split; [|split; [|split]]].
  - destruct (sliceLast_suffix (Z.to_nat (pointsNeeded dur)) (Device.metrics d))
      as (older & Heq & Hn); [lia|].
    exists older. unfold window. split; [exact Heq | rewrite Hn; lia].
  - apply (evaluateDevice_emits cpuT ramT dur dismissed now d CPU Hlen).
  - apply (evaluateDevice_emits cpuT ramT dur dismissed now d RAM Hlen).
  - intros a Ha.
    apply evaluateDevice_elem in Ha as (m & latest & Hlast & _ & _ & ->).
    exists latest. auto.
  - intros ds i clocks a Hi Hclock Ha. apply evaluate_elem. exists i, d.
    split; [exact Hi|].
    rewrite (evaluateDevice_ext _ _ _ _ (clocks i) now) by exact Hclock.
    exact Ha.
Qed.

Lemma sustained_breach_emits_witness :
  let d := deviceWith (replicate 20 (hot 95)) in
  (pointsNeeded (num 60) <= Z.of_nat (length (Device.metrics d)))%Z /\
  (emits CPU (evaluateDevice (num 90) (num 90) (num 60) ∅ (fun _ => 0%Z) d) <->
     sustained CPU (num 90) (num 60) d /\
     (alertId (Device.id d) CPU (num 90) (num 60) ∉ (∅ : gset string))).
Proof.
  intros d.
  assert (Hlen : (pointsNeeded (num 60) <= Z.of_nat (length (Device.metrics d)))%Z)
    by (vm_compute; discriminate).
  split; [exact Hlen|].
  destruct (sustained_breach_emits (num 90) (num 90) (num 60) ∅ (fun _ => 0%Z)
              d Hlen) as (_ & H & _).
  exact H.
Defined.

(** C1, the claim as stated fails: with the id ["dev-0-CPU-90-3"] dismissed,
    a device whose whole window is above the CPU threshold gets no CPU
    alert. *)
Lemma dismissed_breach_not_emitted :
  let d := deviceWith [hot 95] in
  let dismissed : gset string := {[ "dev-0-CPU-90-3" ]} in
  let out :=
    evaluateDevice (num 90) (num 90) (num 3) dismissed (fun _ => 0%Z) d in
  (pointsNeeded (num 3) <= Z.of_nat (length (Device.metrics d)))%Z /\
  sustained CPU (num 90) (num 3) d /\
  out = [] /\
  ~ (emits CPU out <-> sustained CPU (num 90) (num 3) d).
Proof.
  intros d dismissed out.
  assert (Hs : sustained CPU (num 90) (num 3) d).
  { apply exceeded_sustained. vm_compute. reflexivity. }
  assert (He : out = []) by (vm_compute; reflexivity).
  split; [vm_compute; discriminate|].
  split; [exact Hs|]. split; [exact He|].
  rewrite He. intros [_ H]. destruct (H Hs) as (a & Ha & _). inversion Ha.
Qed.

(** C5. The window size is the ceiling of [alertDuration / 3] (the integer
    [c] with [3 (c - 1) < alertDuration <= 3 c]) raised to at least 1; and a
    device whose history has fewer samples than that pushes nothing onto
    [newAlerts], whatever its metric values, thresholds and dismissals: the
    evaluator's output is the same as without the device. *)
Theorem window_size_and_sufficiency (cpuT ramT dur : JsNumber)
    (dismissed : gset string) (now : nat -> MetricType -> Z) (d : Device.t)
    (before after : list Device.t) :
  (exists c : Z,
     (inject_Z (3 * (c - 1)) < toQ dur)%Q /\
     (toQ dur <= inject_Z (3 * c))%Q /\
     pointsNeeded dur = Z.max 1 c) /\
  ((Z.of_nat (length (Device.metrics d)) < pointsNeeded dur)%Z ->
   (forall clock, evaluateDevice cpuT ramT dur dismissed clock d = []) /\
   evaluate cpuT ramT dur dismissed now (before ++ d :: after)
   = evaluate cpuT ramT dur dismissed (skipIndex (length before) now)
              (before ++ after)).
Proof.
  split; [apply pointsNeeded_ceiling|]. intros Hshort. split.
  - intros clock. apply evaluateDevice_short, Hshort.
  - rewrite !evaluate_app. simpl.
    rewrite (evaluateDevice_short _ _ _ _ _ _ Hshort). simpl. f_equal.
    + apply evaluate_ext. intros i m Hi. unfold skipIndex.
      rewrite decide_True by exact Hi. reflexivity.
    + apply evaluate_ext. intros i m Hi. unfold skipIndex.
      rewrite decide_False by lia.
      replace (length before + S i) with (S (length before + i)) by lia.
      reflexivity.
Qed.

Lemma window_size_and_sufficiency_witness :
  let d := deviceWith (replicate 19 (hot 99)) in
  (Z.of_nat (length (Device.metrics d)) < pointsNeeded (num 60))%Z /\
  pointsNeeded (num 60) = 20%Z /\
  evaluateDevice (num 90) (num 90) (num 60) ∅ (fun _ => 0%Z) d = [].
Proof.
  intros d.
  assert (Hshort : (Z.of_nat (length (Device.metrics d)) < pointsNeeded (num 60))%Z)
    by (vm_compute; reflexivity).
  split; [exact Hshort|]. split; [reflexivity|].
  destruct (window_size_and_sufficiency (num 90) (num 90) (num 60) ∅
              (fun _ _ => 0%Z) d [] []) as (_ & H).
  destruct (H Hshort) as (He & _). apply He.
Defined.

(** ** The active alerts *)

Lemma mergeAlerts_app (prev newAlerts : list Alert.t) :
  mergeAlerts prev newAlerts
  = prev ++ filter (fun a => Alert.id a ∉ (list_to_set (map Alert.id prev) : gset string))
                   newAlerts.
Proof.
  unfold mergeAlerts. case_bool_decide as Hnil; [|reflexivity].
  apply nil_length_inv in Hnil. rewrite Hnil, app_nil_r. reflexivity.
Qed.

Lemma mergeAlerts_added (prev newAlerts : list Alert.t) :
  exists added,
    mergeAlerts prev newAlerts = prev ++ added /\
    Forall (fun a => a ∈ newAlerts /\ Alert.id a ∉ idsOf prev) added.
Proof.
  rewrite mergeAlerts_app. eexists. split; [reflexivity|].
  apply Forall_forall. intros a Ha.
  apply list_elem_of_filter in Ha as [Hid Ha]. split; [exact Ha|].
  intros Hin. apply Hid, elem_of_list_to_set, Hin.
Qed.

Lemma alertEffect_active (now : nat -> MetricType -> Z) (st : AppState) :
  exists added,
    activeAlerts (alertEffect now st) = activeAlerts st ++ added /\
    Forall (fun a => a ∈ newAlertsOf st now /\ Alert.id a ∉ idsOf (activeAlerts st))
           added.
Proof.
  unfold alertEffect. case_bool_decide.
  - exists []. rewrite app_nil_r. split; [reflexivity | constructor].
  - simpl. apply mergeAlerts_added.
Qed.

Lemma alertEffect_frame (now : nat -> MetricType -> Z) (st : AppState) :
  devices (alertEffect now st) = devices st /\
  dismissedAlertIds (alertEffect now st) = dismissedAlertIds st /\
  cpuThreshold (alertEffect now st) = cpuThreshold st /\
  ramThreshold (alertEffect now st) = ramThreshold st /\
  alertDuration (alertEffect now st) = alertDuration st.
Proof.
  unfold alertEffect. case_bool_decide; simpl; auto.
Qed.

Lemma handle_active (ev : Event) (w : World) (st : AppState) :
  activeAlerts (handle ev w st) = survivors ev (activeAlerts st).
Proof. destruct ev; reflexivity. Qed.

Lemma handle_dismissed (ev : Event) (w : World) (st : AppState) :
  dismissedAlertIds st ⊆ dismissedAlertIds (handle ev w st).
Proof. destruct ev; simpl; set_solver. Qed.

Lemma survivors_sublist (ev : Event) (active : list Alert.t) (a : Alert.t) :
  a ∈ survivors ev active -> a ∈ active.
Proof.
  destruct ev; simpl; auto. intros H. now apply list_elem_of_filter in H.
Qed.

(** C4. The merge returns the previous active alerts, each one unchanged and
    in place, followed only by new alerts whose id was not present; and
    across any event the active list is what the event's own handler leaves
    (everything, unless the event is a dismissal, which filters out the
    dismissed id) followed by what the merge appends. So no tick removes or
    rewrites an active alert, whatever the evaluator finds. *)
Theorem reconcile_keeps_active_alerts :
  (forall prev newAlerts : list Alert.t,
     exists added,
       mergeAlerts prev newAlerts = prev ++ added /\
       Forall (fun a => a ∈ newAlerts /\ Alert.id a ∉ idsOf prev) added) /\
  (forall (st : AppState) (ev : Event) (w : World),
     let kept :=
       match ev with
       | DismissAlert id => filter (fun a => Alert.id a ≠ id) (activeAlerts st)
       | _ => activeAlerts st
       end in
     exists added,
       activeAlerts (step st (ev, w)) = kept ++ added /\
       Forall (fun a => Alert.id a ∉ idsOf kept) added).
Proof.
  split; [exact mergeAlerts_added|].
  intros st ev w kept. unfold step; simpl.
  destruct (alertEffect_active (alertClock w) (handle ev w st))
    as (added & -> & Hadd).
  exists added. rewrite handle_active in *. split; [reflexivity|].
  eapply Forall_impl; [exact Hadd|]. intros a [_ Ha]. exact Ha.
Qed.

(** *** Re-running the effect

    React re-runs the effect only when one of its dependencies was set to a
    new value; [step] runs it after every event. The two agree, because a
    second run over unchanged devices, dismissals and thresholds adds
    nothing. *)

Lemma evaluateDevice_ids_clock (cpuT ramT dur : JsNumber)
    (dismissed : gset string) (now now' : MetricType -> Z) (d : Device.t) :
  idsOf (evaluateDevice cpuT ramT dur dismissed now d)
  = idsOf (evaluateDevice cpuT ramT dur dismissed now' d).
Proof.
  unfold evaluateDevice, raise, idsOf.
  repeat (case_bool_decide || case_match); reflexivity.
Qed.

Lemma evaluate_ids_clock (cpuT ramT dur : JsNumber) (dismissed : gset string)
    (now now' : nat -> MetricType -> Z) (ds : list Device.t) :
  idsOf (evaluate cpuT ramT dur dismissed now ds)
  = idsOf (evaluate cpuT ramT dur dismissed now' ds).
Proof.
  revert now now'. induction ds as [|d ds IH]; intros now now'; simpl;
    [reflexivity|].
  unfold idsOf in *. rewrite !map_app.
  rewrite (IH (fun i => now (S i)) (fun i => now' (S i))).
  f_equal. apply evaluateDevice_ids_clock.
Qed.

Lemma mergeAlerts_absorbs (prev newAlerts again : list Alert.t) :
  idsOf again = idsOf newAlerts ->
  mergeAlerts (mergeAlerts prev newAlerts) again = mergeAlerts prev newAlerts.
Proof.
  intros Hids. rewrite (mergeAlerts_app (mergeAlerts prev newAlerts) again).
  match goal with |- _ ++ ?f = _ => destruct f as [|a l] eqn:Hf end;
    [apply app_nil_r|].
  exfalso.
  assert (Ha : a ∈ a :: l) by left. rewrite <- Hf in Ha.
  apply list_elem_of_filter in Ha as [Hfresh Ha]. apply Hfresh.
  apply elem_of_list_to_set.
  assert (Hid : Alert.id a ∈ idsOf newAlerts).
  { rewrite <- Hids. unfold idsOf. apply list_elem_of_fmap. eauto. }
  apply list_elem_of_fmap in Hid as (b & Hb & Hin).
  rewrite mergeAlerts_app, map_app, elem_of_app.
  destruct (decide (Alert.id b ∈ (list_to_set (map Alert.id prev) : gset string)))
    as [Hold|Hnew].
  - left. rewrite Hb. now apply elem_of_list_to_set in Hold.
  - right. apply list_elem_of_fmap. exists b. split; [exact Hb|].
    apply list_elem_of_filter. auto.
Qed.

Lemma alertEffect_idempotent (now now' : nat -> MetricType -> Z)
    (st : AppState) :
  alertEffect now' (alertEffect now st) = alertEffect now st.
Proof.
  unfold alertEffect. case_bool_decide as Hempty.
  - case_bool_decide; [reflexivity | contradiction].
  - simpl. case_bool_decide; [contradiction|].
    unfold newAlertsOf; simpl. f_equal.
    apply mergeAlerts_absorbs, evaluate_ids_clock.
Qed.

(** ** Dismissal *)

Lemma newAlertsOf_not_dismissed (st : AppState)
    (now : nat -> MetricType -> Z) (K : string) :
  K ∈ dismissedAlertIds st -> K ∉ idsOf (newAlertsOf st now).
Proof.
  intros HK Hin. unfold idsOf in Hin.
  apply list_elem_of_fmap in Hin as (a & -> & Ha).
  apply evaluate_not_dismissed in Ha. contradiction.
Qed.

Lemma alertEffect_silenced (K : string) (now : nat -> MetricType -> Z)
    (st : AppState) :
  silenced K st -> silenced K (alertEffect now st).
Proof.
  intros [HK Hact].
  destruct (alertEffect_frame now st) as (_ & Hd & _).
  split; [rewrite Hd; exact HK|].
  destruct (alertEffect_active now st) as (added & -> & Hadd).
  unfold idsOf. rewrite map_app, elem_of_app. intros [Hin|Hin].
  - now apply Hact.
  - apply list_elem_of_fmap in Hin as (a & -> & Ha).
    rewrite Forall_forall in Hadd. destruct (Hadd a Ha) as [Hnew _].
    eapply (newAlertsOf_not_dismissed _ now); [exact HK|].
    unfold idsOf. apply list_elem_of_fmap. eauto.
Qed.

Lemma handle_silenced (K : string) (ev : Event) (w : World) (st : AppState) :
  silenced K st -> silenced K (handle ev w st).
Proof.
  intros [HK Hact]. split; [eapply handle_dismissed, HK|].
  rewrite handle_active. unfold idsOf. intros Hin.
  apply list_elem_of_fmap in Hin as (a & -> & Ha).
  apply survivors_sublist in Ha.
  apply Hact. unfold idsOf. apply list_elem_of_fmap. eauto.
Qed.

Lemma step_silenced (K : string) (st : AppState) (e : Event * World) :
  silenced K st -> silenced K (step st e).
Proof.
  intros H. unfold step. apply alertEffect_silenced, handle_silenced, H.
Qed.

Lemma run_silenced (K : string) (es : list (Event * World)) (st : AppState) :
  silenced K st -> silenced K (run st es).
Proof.
  revert st. induction es as [|e es IH]; intros st H; simpl; [exact H|].
  apply IH, step_silenced, H.
Qed.

Lemma handleDismissAlert_silenced (K : string) (st : AppState) :
  silenced K (handleDismissAlert K st).
Proof.
  split; simpl; [set_solver|].
  unfold idsOf. intros Hin. apply list_elem_of_fmap in Hin as (a & -> & Ha).
  apply list_elem_of_filter in Ha as [Hne _]. now apply Hne.
Qed.

(** C3. [handleDismissAlert K] keeps exactly the active alerts whose id is
    not [K], in their order, adds [K] to the dismissed ids and changes
    nothing else; and after the dismissal, whatever events follow (ticks in
    any worlds, and also further dismissals and threshold changes), [K] stays
    dismissed, no active alert has id [K], and no alert with id [K] is in
    the evaluator's output. *)
Theorem dismiss_is_durable (st : AppState) (K : string) (w : World)
    (es : list (Event * World)) (now : nat -> MetricType -> Z) :
  let st1 := handleDismissAlert K st in
  let st' := run (step st (DismissAlert K, w)) es in
  activeAlerts st1 = filter (fun a => Alert.id a ≠ K) (activeAlerts st) /\
  dismissedAlertIds st1 = dismissedAlertIds st ∪ {[ K ]} /\
  devices st1 = devices st /\
  (cpuThreshold st1, ramThreshold st1, alertDuration st1)
  = (cpuThreshold st, ramThreshold st, alertDuration st) /\
  (K ∉ idsOf (activeAlerts st1)) /\
  (K ∈ dismissedAlertIds st') /\
  (K ∉ idsOf (activeAlerts st')) /\
  (K ∉ idsOf (newAlertsOf st' now)).
Proof.
  intros st1 st'.
  assert (Hsil1 : silenced K st1) by apply handleDismissAlert_silenced.
  assert (Hsil : silenced K st').
  { apply run_silenced. unfold step; simpl.
    apply alertEffect_silenced, Hsil1. }
  destruct Hsil1 as [_ Hact1]. destruct Hsil as [HK Hact].
  split; [reflexivity|]. split; [reflexivity|]. split; [reflexivity|].
  split; [reflexivity|]. split; [exact Hact1|]. split; [exact HK|].
  split; [exact Hact|]. apply newAlertsOf_not_dismissed, HK.
Qed.

(** ** Threshold configuration *)

Lemma pointsNeeded_one (n : JsNumber) :
  pointsNeeded n = 1%Z <-> (toQ n <= 3)%Q.
Proof.
  destruct (pointsNeeded_ceiling n) as (c & Hlt & Hle & ->).
  destruct (ceiling_bounds _ c 0 3 Hlt Hle) as [_ Hhi].
  change (inject_Z 3) with 3%Q in Hhi. split.
  - intros Hc. eapply Qle_trans; [exact Hle|].
    change 3%Q with (inject_Z 3). rewrite <- Zle_Qle. lia.
  - intros H3. specialize (Hhi H3). lia.
Qed.

(** C9 (as amended). The three input handlers apply whatever number they are
    given: after the change the state holds that value, in range or not,
    nothing else of the state having changed before the effect runs, and
    the evaluation that follows reads it. There is no rejection and no
    error; a duration of 3 or less, non-positive ones included, gives the
    smallest window of one sample. *)
Theorem threshold_changes_apply_unchecked (st : AppState) (n : JsNumber)
    (w : World) (now : nat -> MetricType -> Z) :
  cpuThreshold (step st (ChangeCpuThreshold n, w)) = n /\
  ramThreshold (step st (ChangeRamThreshold n, w)) = n /\
  alertDuration (step st (ChangeAlertDuration n, w)) = n /\
  newAlertsOf (step st (ChangeCpuThreshold n, w)) now
  = evaluate n (ramThreshold st) (alertDuration st) (dismissedAlertIds st)
             now (devices st) /\
  newAlertsOf (step st (ChangeRamThreshold n, w)) now
  = evaluate (cpuThreshold st) n (alertDuration st) (dismissedAlertIds st)
             now (devices st) /\
  newAlertsOf (step st (ChangeAlertDuration n, w)) now
  = evaluate (cpuThreshold st) (ramThreshold st) n (dismissedAlertIds st)
             now (devices st) /\
  (1 <= pointsNeeded n)%Z /\
  (pointsNeeded n = 1%Z <-> (toQ n <= 3)%Q).
Proof.
  unfold step, newAlertsOf; simpl.
  pose proof (alertEffect_frame (alertClock w) (setCpuThreshold n st))
    as (Hc1 & Hc2 & Hc3 & Hc4 & Hc5).
  pose proof (alertEffect_frame (alertClock w) (setRamThreshold n st))
    as (Hr1 & Hr2 & Hr3 & Hr4 & Hr5).
  pose proof (alertEffect_frame (alertClock w) (setAlertDuration n st))
    as (Hd1 & Hd2 & Hd3 & Hd4 & Hd5).
  rewrite Hc1, Hc2, Hc3, Hc4, Hc5, Hr1, Hr2, Hr3, Hr4, Hr5,
    Hd1, Hd2, Hd3, Hd4, Hd5. simpl.
  repeat (split; [reflexivity|]).
  split; [apply pointsNeeded_pos | apply pointsNeeded_one].
Qed.

(** C9, the claim as stated fails: entering the duration -5 replaces the
    valid duration 60 (the prior value is not retained), and entering the
    CPU threshold -1 makes the evaluation raise an alert under that
    threshold for a device whose cpu is 0 throughout. *)
Lemma out_of_range_config_is_applied :
  let st := mkApp [deviceWith (replicate 20 (hot 0))] [] ∅
                  (num 90) (num 90) (num 60) in
  let st1 := step st (ChangeAlertDuration (num (-5)), constWorld 0.5 0) in
  let st2 := step st (ChangeCpuThreshold (num (-1)), constWorld 0.5 0) in
  alertDuration st1 = num (-5) /\
  alertDuration st1 <> alertDuration st /\
  pointsNeeded (alertDuration st1) = 1%Z /\
  cpuThreshold st2 = num (-1) /\
  idsOf (activeAlerts st2) = ["dev-0-CPU--1-60"].
Proof.
  cbv zeta. split; [reflexivity|]. split; [discriminate|].
  split; [reflexivity|]. split; [reflexivity|]. vm_compute. reflexivity.
Qed.

(** ** Alert ids *)

Lemma chars_app (s1 s2 : string) : chars (s1 +:+ s2) = chars s1 ++ chars s2.
Proof.
  induction s1 as [|c s1 IH]; simpl; [reflexivity|].
  unfold chars in *; simpl. now rewrite IH.
Qed.

Lemma chars_inj (s1 s2 : string) : chars s1 = chars s2 -> s1 = s2.
Proof.
  intros H. rewrite <- (String.string_of_list_ascii_of_string s1),
    <- (String.string_of_list_ascii_of_string s2).
  unfold chars in H. now rewrite H.
Qed.

Lemma chars_of_list (l : list ascii) :
  chars (String.string_of_list_ascii l) = l.
Proof. apply String.list_ascii_of_string_of_list_ascii. Qed.

(** *** The characters of a numeral *)

Lemma not_digit_dash : ~ isDigit dash.
Proof. unfold isDigit, dash. simpl. intuition discriminate. Qed.

Lemma not_digit_e : ~ isDigit "e"%char.
Proof. unfold isDigit. simpl. intuition discriminate. Qed.

Lemma not_digit_point : ~ isDigit "."%char.
Proof. unfold isDigit. simpl. intuition discriminate. Qed.

Lemma isDigit_not_dash (c : ascii) : isDigit c -> c <> dash.
Proof. intros H ->. exact (not_digit_dash H). Qed.

Lemma isDigit_not_e (c : ascii) : isDigit c -> c <> "e"%char.
Proof. intros H ->. exact (not_digit_e H). Qed.

Lemma digitChar_isDigit (d : Digit) : isDigit (digitChar d).
Proof. unfold isDigit. destruct d; simpl; tauto. Qed.

Lemma digitChar_inj (d1 d2 : Digit) : digitChar d1 = digitChar d2 -> d1 = d2.
Proof. destruct d1, d2; intros H; first [reflexivity | discriminate H]. Qed.

Lemma digitChars_inj (f1 f2 : list Digit) :
  map digitChar f1 = map digitChar f2 -> f1 = f2.
Proof.
  revert f2. induction f1 as [|d f1 IH]; intros [|d' f2] H;
    try discriminate H; [reflexivity|].
  injection H as Hd H. apply digitChar_inj in Hd. apply IH in H. congruence.
Qed.

Lemma digitChars_digits (f : list Digit) : Forall isDigit (map digitChar f).
Proof. apply Forall_fmap, Forall_forall. intros d _. apply digitChar_isDigit. Qed.

Lemma pretty_N_char_digit (x : N) : isDigit (pretty_N_char x).
Proof.
  unfold pretty_N_char, isDigit.
  repeat case_match; simpl; repeat first [left; reflexivity | right].
Qed.

(** The digit loop of the decimal printer puts digits, and nothing else,
    in front of its accumulator. *)
Lemma pretty_N_go_digits (x : N) (s : string) :
  exists ds,
    chars (pretty_N_go x s) = ds ++ chars s /\
    Forall isDigit ds /\
    ((0 < x)%N -> ds <> []).
Proof.
  revert s. induction (N.lt_wf_0 x) as [x _ IH]; intros s.
  destruct (decide (0 < x)%N) as [Hx|Hx].
  - rewrite pretty_N_go_step by exact Hx.
    destruct (IH (x `div` 10)%N (N.div_lt x 10 Hx eq_refl)
                (String (pretty_N_char (x `mod` 10)) s))
      as (ds & Heq & Hds & _).
    exists (ds ++ [pretty_N_char (x `mod` 10)%N]). split; [|split].
    + rewrite Heq, <- app_assoc. reflexivity.
    + apply Forall_app. split; [exact Hds|].
      constructor; [apply pretty_N_char_digit | constructor].
    + intros _ Hnil. apply app_eq_nil in Hnil as [_ Hnil]. discriminate Hnil.
  - assert (x = 0%N) as -> by lia. exists []. rewrite pretty_N_go_0.
    split; [reflexivity|]. split; [constructor | intros H; lia].
Qed.

Lemma pretty_N_digits (x : N) :
  chars (pretty x) <> [] /\ Forall isDigit (chars (pretty x)).
Proof.
  unfold pretty, pretty_N. case_decide as H0.
  - split; [discriminate|]. repeat constructor.
  - destruct (pretty_N_go_digits x "") as (ds & Heq & Hds & Hne).
    rewrite Heq, app_nil_r. split; [apply Hne; lia | exact Hds].
Qed.

Lemma pretty_positive_digits (p : positive) :
  chars (pretty p) <> [] /\ Forall isDigit (chars (pretty p)).
Proof. apply (pretty_N_digits (N.pos p)). Qed.

Lemma fractionChars_plain (f : list Digit) :
  Forall (fun c => isDigit c \/ c = "."%char) (fractionChars f).
Proof.
  destruct f as [|d f]; [constructor|]. unfold fractionChars.
  constructor; [right; reflexivity|].
  eapply Forall_impl; [apply digitChars_digits|]. intros c Hc. left. exact Hc.
Qed.

Lemma fractionChars_no_dash (f : list Digit) :
  Forall (fun c => c <> dash) (fractionChars f).
Proof.
  eapply Forall_impl; [apply fractionChars_plain|].
  intros c [Hc| ->]; [apply isDigit_not_dash, Hc | discriminate].
Qed.

Lemma fractionChars_no_e (f : list Digit) :
  Forall (fun c => c <> "e"%char) (fractionChars f).
Proof.
  eapply Forall_impl; [apply fractionChars_plain|].
  intros c [Hc| ->]; [apply isDigit_not_e, Hc | discriminate].
Qed.

Lemma fractionChars_inj (f1 f2 : list Digit) :
  fractionChars f1 = fractionChars f2 -> f1 = f2.
Proof.
  destruct f1 as [|d1 f1], f2 as [|d2 f2]; unfold fractionChars; intros H;
    try discriminate H; [reflexivity|].
  injection H as Hd H. apply digitChar_inj in Hd. apply digitChars_inj in H.
  congruence.
Qed.

Lemma digits_no_dash (ds : list ascii) :
  Forall isDigit ds -> Forall (fun c => c <> dash) ds.
Proof.
  intros H. eapply Forall_impl; [exact H|]. exact isDigit_not_dash.
Qed.

Lemma digits_no_e (ds : list ascii) :
  Forall isDigit ds -> Forall (fun c => c <> "e"%char) ds.
Proof.
  intros H. eapply Forall_impl; [exact H|]. exact isDigit_not_e.
Qed.

Lemma chars_fractionToString (f : list Digit) :
  chars (fractionToString f) = fractionChars f.
Proof.
  destruct f as [|d f]; [reflexivity|].
  unfold fractionToString, fractionChars, digitsToString.
  rewrite chars_app, chars_of_list. reflexivity.
Qed.

(** [numeralChars] spells out what [numeralToString] writes. *)
Lemma chars_numeralToString (u : Numeral) :
  chars (numeralToString u) = numeralChars u.
Proof.
  destruct u as [neg w f|neg l f en e]; unfold numeralToString, numeralChars.
  - rewrite !chars_app, chars_fractionToString.
    unfold digitsToString. rewrite chars_of_list. destruct neg; reflexivity.
  - rewrite !chars_app, chars_fractionToString.
    unfold digitsToString. rewrite chars_of_list.
    destruct neg, en; simpl; reflexivity.
Qed.

(** The whole part that [Number::toString] writes is never empty. *)
Lemma toNumeral_whole (x : JsNumber) (neg : bool) (f : list Digit) :
  toNumeral x <> Plain neg [] f.
Proof.
  unfold toNumeral. cbv zeta.
  destruct (significand x) as [|lead rest]; [discriminate|].
  repeat case_bool_decide; try discriminate.
  destruct (Z.to_nat (pointPosition x)) eqn:Hn; [lia | discriminate].
Qed.

(** *** Reading a numeral back *)

Lemma endsWithDigit_app (l1 l2 : list ascii) :
  endsWithDigit l2 -> endsWithDigit (l1 ++ l2).
Proof.
  intros (pre & c & -> & Hc). exists (l1 ++ pre), c.
  rewrite app_assoc. auto.
Qed.

Lemma endsWithDigit_cons (x : ascii) (l : list ascii) :
  endsWithDigit l -> endsWithDigit (x :: l).
Proof. apply (endsWithDigit_app [x]). Qed.

Lemma endsWithDigit_digits (ds : list ascii) :
  ds <> [] -> Forall isDigit ds -> endsWithDigit ds.
Proof.
  intros Hne Hds. destruct ds as [|c ds _] using rev_ind; [contradiction|].
  apply Forall_app in Hds as [_ Hc]. apply Forall_inv in Hc.
  exists ds, c. auto.
Qed.

Lemma numeral_endsWithDigit (u : Numeral) :
  (forall neg f, u <> Plain neg [] f) -> endsWithDigit (numeralChars u).
Proof.
  destruct u as [neg w f|neg l f en e]; unfold numeralChars; intros Hw.
  - apply endsWithDigit_app.
    destruct f as [|d f]; simpl fractionChars.
    + rewrite app_nil_r. apply endsWithDigit_digits; [|apply digitChars_digits].
      destruct w; [exfalso; now apply (Hw neg []) | discriminate].
    + apply endsWithDigit_app, endsWithDigit_cons, endsWithDigit_digits;
        [discriminate | apply (digitChars_digits (d :: f))].
  - apply endsWithDigit_app, endsWithDigit_cons, endsWithDigit_app.
    do 2 apply endsWithDigit_cons.
    apply endsWithDigit_digits; apply pretty_positive_digits.
Qed.

Lemma endsWithDigit_last (P N : list ascii) :
  endsWithDigit N ->
  last (P ++ dash :: N) <> Some dash /\ last (P ++ dash :: N) <> Some "e"%char.
Proof.
  intros (pre & c & -> & Hc).
  replace (P ++ dash :: pre ++ [c]) with ((P ++ dash :: pre) ++ [c])
    by (rewrite <- app_assoc; reflexivity).
  rewrite last_snoc. split; intros [= ->];
    [exact (not_digit_dash Hc) | exact (not_digit_e Hc)].
Qed.

(** Reading past a stretch without dashes. *)
Lemma skip_dashless (A R Y Z : list ascii) :
  Forall (fun c => c <> dash) A ->
  A ++ R = Y ++ dash :: Z ->
  exists Y', Y = A ++ Y' /\ R = Y' ++ dash :: Z.
Proof.
  revert Y. induction A as [|c A IH]; intros Y HA H.
  - exists Y. auto.
  - apply Forall_cons in HA as [Hc HA]. destruct Y as [|y Y]; simpl in H.
    + injection H as Hd _. contradiction.
    + injection H as -> H. destruct (IH Y HA H) as (Y' & -> & HR).
      exists Y'. auto.
Qed.

(** In a numeral a dash stands in front, as the sign, or right after the
    [e] of the exponent. *)
Lemma numeral_dash_position (u : Numeral) (Y Z : list ascii) :
  numeralChars u = Y ++ dash :: Z -> Y = [] \/ last Y = Some "e"%char.
Proof.
  assert (Hbody : forall B R Y' Z',
            Forall (fun c => c <> dash) B ->
            (R = [] \/ exists es E, R = "e"%char :: es :: E /\
                                    Forall (fun c => c <> dash) E) ->
            B ++ R = Y' ++ dash :: Z' ->
            last Y' = Some "e"%char).
  { intros B R Y' Z' HB HR H.
    destruct (skip_dashless _ _ _ _ HB H) as (Y1 & -> & HR1).
    destruct HR as [->|(es & E & -> & HE)].
    { destruct Y1; discriminate HR1. }
    destruct Y1 as [|c Y1]; [discriminate HR1|].
    injection HR1 as <- HR1.
    destruct Y1 as [|c Y1].
    - apply last_snoc.
    - injection HR1 as _ HR1. exfalso. rewrite HR1 in HE.
      apply Forall_app in HE as [_ HE]. apply Forall_inv in HE. now apply HE. }
  assert (Hsigned : forall neg B R,
            Forall (fun c => c <> dash) B ->
            (R = [] \/ exists es E, R = "e"%char :: es :: E /\
                                    Forall (fun c => c <> dash) E) ->
            signChars neg ++ B ++ R = Y ++ dash :: Z ->
            Y = [] \/ last Y = Some "e"%char).
  { intros neg B R HB HR H. destruct neg; simpl in H.
    - destruct Y as [|y Y]; [left; reflexivity|]. right.
      injection H as <- H.
      pose proof (Hbody B R Y Z HB HR H) as Hl.
      destruct Y as [|y Y]; [discriminate Hl | exact Hl].
    - right. eapply Hbody; eassumption. }
  destruct u as [neg w f|neg l f en e]; unfold numeralChars; intros H.
  - apply (Hsigned neg (map digitChar w ++ fractionChars f) []).
    + apply Forall_app. split; [|apply fractionChars_no_dash].
      apply digits_no_dash, digitChars_digits.
    + left; reflexivity.
    + rewrite app_nil_r. exact H.
  - apply (Hsigned neg (digitChar l :: fractionChars f)
             ("e"%char :: (if en then dash else "+"%char) :: chars (pretty e))).
    + constructor; [apply isDigit_not_dash, digitChar_isDigit|].
      apply fractionChars_no_dash.
    + right. eexists _, _. split; [reflexivity|].
      apply digits_no_dash, pretty_positive_digits.
    + exact H.
Qed.

(** The longest run of digits at the front of a string is determined. *)
Lemma digit_run_unique (W1 W2 F1 F2 : list ascii) :
  Forall isDigit W1 -> Forall isDigit W2 ->
  Forall (fun c => ~ isDigit c) (take 1 F1) ->
  Forall (fun c => ~ isDigit c) (take 1 F2) ->
  W1 ++ F1 = W2 ++ F2 -> W1 = W2 /\ F1 = F2.
Proof.
  intros H1 H2 HF1 HF2. revert W2 H2.
  induction H1 as [|c W1 Hc _ IH]; intros W2 H2 H.
  - destruct H2 as [|c' W2 Hc' _]; [auto|].
    simpl in H. subst F1. simpl in HF1. apply Forall_inv in HF1. contradiction.
  - destruct H2 as [|c' W2 Hc' H2].
    + simpl in H. subst F2. simpl in HF2. apply Forall_inv in HF2. contradiction.
    + simpl in H. injection H as -> H. destruct (IH W2 H2 H) as [-> ->]. auto.
Qed.

Lemma fractionChars_stops (f : list Digit) :
  Forall (fun c => ~ isDigit c) (take 1 (fractionChars f)).
Proof.
  destruct f as [|d f]; simpl; [constructor|].
  constructor; [exact not_digit_point | constructor].
Qed.

(** Splitting at the first occurrence of a character is unambiguous. *)
Lemma first_split (c : ascii) (A1 A2 R1 R2 : list ascii) :
  Forall (fun x => x <> c) A1 -> Forall (fun x => x <> c) A2 ->
  A1 ++ c :: R1 = A2 ++ c :: R2 -> A1 = A2 /\ R1 = R2.
Proof.
  intros H1. revert A2. induction H1 as [|x A1 Hx _ IH]; intros A2 H2 H.
  - destruct H2 as [|y A2 Hy _]; simpl in H.
    + injection H as H. auto.
    + injection H as <- _. contradiction.
  - destruct H2 as [|y A2 Hy H2]; simpl in H.
    + injection H as -> _. contradiction.
    + injection H as -> H. destruct (IH A2 H2 H) as [-> ->]. auto.
Qed.

Lemma sign_unique (neg1 neg2 : bool) (B1 B2 : list ascii) :
  Forall (fun c => c <> dash) (take 1 B1) ->
  Forall (fun c => c <> dash) (take 1 B2) ->
  signChars neg1 ++ B1 = signChars neg2 ++ B2 ->
  neg1 = neg2 /\ B1 = B2.
Proof.
  intros H1 H2 H. destruct neg1, neg2; simpl in H.
  - injection H as ->. auto.
  - exfalso. subst B2. simpl in H2. apply Forall_inv in H2. now apply H2.
  - exfalso. subst B1. simpl in H1. apply Forall_inv in H1. now apply H1.
  - auto.
Qed.

(** Different numerals are written differently. *)
Lemma numeralChars_inj (u1 u2 : Numeral) :
  numeralChars u1 = numeralChars u2 -> u1 = u2.
Proof.
  assert (Hplain : forall neg w f,
            Forall (fun c => c <> "e"%char) (numeralChars (Plain neg w f))).
  { intros neg w f. unfold numeralChars. repeat apply Forall_app_2.
    - destruct neg; repeat constructor. discriminate.
    - apply digits_no_e, digitChars_digits.
    - apply fractionChars_no_e. }
  assert (Hsci : forall neg l f en e,
            ~ Forall (fun c => c <> "e"%char)
                     (numeralChars (Scientific neg l f en e))).
  { intros neg l f en e H. unfold numeralChars in H.
    apply Forall_app in H as [_ H]. apply Forall_cons in H as [_ H].
    apply Forall_app in H as [_ H]. apply Forall_inv in H. now apply H. }
  assert (Hbody : forall w f,
            Forall (fun c => c <> dash)
                   (take 1 (map digitChar w ++ fractionChars f))).
  { intros w f. apply Forall_take, Forall_app. split.
    - apply digits_no_dash, digitChars_digits.
    - apply fractionChars_no_dash. }
  destruct u1 as [neg1 w1 f1|neg1 l1 f1 en1 e1],
           u2 as [neg2 w2 f2|neg2 l2 f2 en2 e2]; intros H.
  - unfold numeralChars in H.
    apply sign_unique in H as [-> H]; [|apply Hbody..].
    apply digit_run_unique in H as [Hw Hf];
      [|apply digitChars_digits|apply digitChars_digits
       |apply fractionChars_stops|apply fractionChars_stops].
    apply digitChars_inj in Hw. apply fractionChars_inj in Hf. congruence.
  - exfalso. apply (Hsci neg2 l2 f2 en2 e2). rewrite <- H. apply Hplain.
  - exfalso. apply (Hsci neg1 l1 f1 en1 e1). rewrite H. apply Hplain.
  - unfold numeralChars in H.
    apply sign_unique in H as [-> H];
      [|simpl; repeat constructor; apply isDigit_not_dash, digitChar_isDigit..].
    injection H as Hl H. apply digitChar_inj in Hl.
    apply first_split in H as [Hf H]; [|apply fractionChars_no_e..].
    apply fractionChars_inj in Hf. injection H as Hs He.
    apply chars_inj, (inj pretty) in He.
    assert (en1 = en2) by (destruct en1, en2; first [reflexivity | discriminate Hs]).
    congruence.
Qed.

(** Splitting at the last dash is unambiguous. *)
Lemma last_dash_split (a b x y : list ascii) :
  Forall (fun c => c <> dash) x -> Forall (fun c => c <> dash) y ->
  a ++ dash :: x = b ++ dash :: y -> a = b /\ x = y.
Proof.
  intros Hx Hy. revert b. induction a as [|c a IH]; intros [|c' b] H; simpl in H.
  - now inversion H.
  - inversion H; subst. exfalso.
    rewrite Forall_app, Forall_cons in Hx. tauto.
  - inversion H; subst. exfalso.
    rewrite Forall_app, Forall_cons in Hy. tauto.
  - inversion H; subst. destruct (IH b) as [-> ->]; auto.
Qed.

(** A numeral after a dash can be read off the end of a string, provided
    what precedes the dash ends neither with a dash nor with an [e]: the
    dashes inside the numeral are then told apart from the separator. *)
Lemma numeral_suffix_unique (P1 P2 : list ascii) (x1 x2 : Numeral) :
  (last P1 <> Some dash /\ last P1 <> Some "e"%char) ->
  (last P2 <> Some dash /\ last P2 <> Some "e"%char) ->
  P1 ++ dash :: numeralChars x1 = P2 ++ dash :: numeralChars x2 ->
  P1 = P2 /\ x1 = x2.
Proof.
  assert (Hlonger : forall P P' x x' k,
            (last P <> Some dash /\ last P <> Some "e"%char) ->
            P = P' ++ k -> dash :: numeralChars x' = k ++ dash :: numeralChars x ->
            P = P' /\ x = x').
  { intros P P' x x' k [Hd He] HP HN. destruct k as [|c k].
    - rewrite app_nil_r in HP. simpl in HN. injection HN as HN.
      split; [exact HP|]. symmetry. apply numeralChars_inj, HN.
    - exfalso. simpl in HN. injection HN as <- HN.
      apply numeral_dash_position in HN as [->|Hl].
      + apply Hd. rewrite HP. apply last_snoc.
      + apply He. rewrite HP, last_app, last_cons, Hl. reflexivity. }
  intros H1 H2 H. apply app_eq_inv in H as [(k & HP & HN)|(k & HP & HN)].
  - apply (Hlonger P1 P2 x1 x2 k H1 HP HN).
  - destruct (Hlonger P2 P1 x2 x1 k H2 HP HN) as [-> ->]. auto.
Qed.

Lemma metricName_last (P : list ascii) (m : MetricType) :
  last (P ++ dash :: chars (metricName m)) <> Some dash /\
  last (P ++ dash :: chars (metricName m)) <> Some "e"%char.
Proof.
  destruct m; simpl.
  - change (P ++ _) with (P ++ [dash; "C"; "P"]%char ++ ["U"%char]).
    rewrite app_assoc, last_snoc. split; discriminate.
  - change (P ++ _) with (P ++ [dash; "R"; "A"]%char ++ ["M"%char]).
    rewrite app_assoc, last_snoc. split; discriminate.
Qed.

Lemma metricName_no_dash (m : MetricType) :
  Forall (fun c => c <> dash) (chars (metricName m)).
Proof. destruct m; simpl; repeat constructor; discriminate. Qed.

Lemma metricName_inj (m1 m2 : MetricType) :
  chars (metricName m1) = chars (metricName m2) -> m1 = m2.
Proof. destruct m1, m2; simpl; intros H; congruence. Qed.

Lemma chars_alertId (i : string) (m : MetricType) (t u : JsNumber) :
  chars (alertId i m t u)
  = ((chars i ++ dash :: chars (metricName m))
       ++ dash :: numeralChars (toNumeral t))
      ++ dash :: numeralChars (toNumeral u).
Proof.
  unfold alertId, numToString. rewrite !chars_app, !chars_numeralToString.
  simpl. rewrite <- !app_assoc. reflexivity.
Qed.

Lemma toNumeral_endsWithDigit (x : JsNumber) :
  endsWithDigit (numeralChars (toNumeral x)).
Proof. apply numeral_endsWithDigit. intros neg f. apply toNumeral_whole. Qed.

(** Numbers that are written alike have the same value. *)
Lemma toNumeral_inj (x y : JsNumber) :
  toNumeral x = toNumeral y -> (toQ x == toQ y)%Q.
Proof.
  intros H. rewrite <- (toNumeral_value x), <- (toNumeral_value y), H.
  reflexivity.
Qed.

(** The id tells the device id, the metric and the value of both
    numbers. *)
Lemma alertId_inj (i1 i2 : string) (m1 m2 : MetricType)
    (t1 t2 u1 u2 : JsNumber) :
  alertId i1 m1 t1 u1 = alertId i2 m2 t2 u2 ->
  i1 = i2 /\ m1 = m2 /\ (toQ t1 == toQ t2)%Q /\ (toQ u1 == toQ u2)%Q.
Proof.
  intros H. apply (f_equal chars) in H. rewrite !chars_alertId in H.
  apply numeral_suffix_unique in H as [H Hu];
    [|apply endsWithDigit_last, toNumeral_endsWithDigit..].
  apply numeral_suffix_unique in H as [H Ht]; [|apply metricName_last..].
  apply last_dash_split in H as [Hi Hm]; auto using metricName_no_dash.
  apply chars_inj in Hi. apply metricName_inj in Hm.
  apply toNumeral_inj in Ht, Hu. auto.
Qed.

(** Numbers of one value give one id. *)
Lemma alertId_value (i : string) (m : MetricType) (t t' u u' : JsNumber) :
  (toQ t == toQ t')%Q -> (toQ u == toQ u')%Q ->
  alertId i m t u = alertId i m t' u'.
Proof.
  intros Ht Hu. unfold alertId, numToString.
  rewrite (toNumeral_normal t t' Ht), (toNumeral_normal u u' Hu). reflexivity.
Qed.

(** C2. The id of an alert is a function of the device id, the metric, the
    threshold in effect and the duration in effect, and of nothing else.
    A device that qualifies for a metric, under an id that has not been
    dismissed, gets an alert, and that alert carries the id of the
    combination; every alert the evaluator pushes carries the id of its
    combination. So alerts of two evaluations, whatever their clocks,
    histories and dismissal sets, have the same id if and only if device
    id and metric agree and threshold and duration have the same values.
    Two ids are equal exactly when all four components are, whatever the
    device ids are and whether the numbers are whole, fractional, negative
    or written in exponent form; so a threshold or a duration of another
    value, by any amount, gives another id. And with the id of one
    combination dismissed, a qualifying device gets no alert for exactly
    that device id, metric, threshold and duration, and gets its alert for
    every other combination. *)
Theorem alert_key_identifies_condition :
  (forall (cpuT ramT dur : JsNumber) (dismissed : gset string)
          (now : MetricType -> Z) (d : Device.t) (m : MetricType),
     (pointsNeeded dur <= Z.of_nat (length (Device.metrics d)))%Z ->
     sustained m (thresholdFor m cpuT ramT) dur d ->
     alertId (Device.id d) m (thresholdFor m cpuT ramT) dur ∉ dismissed ->
     exists a,
       a ∈ evaluateDevice cpuT ramT dur dismissed now d /\
       Alert.metricType a = m /\
       Alert.id a = alertId (Device.id d) m (thresholdFor m cpuT ramT) dur) /\
  (forall (cpuT ramT dur : JsNumber) (dismissed : gset string)
          (now : MetricType -> Z) (d : Device.t) (a : Alert.t),
     a ∈ evaluateDevice cpuT ramT dur dismissed now d ->
     Alert.id a
     = alertId (Device.id d) (Alert.metricType a)
               (thresholdFor (Alert.metricType a) cpuT ramT) dur) /\
  (forall (cpuT1 ramT1 dur1 cpuT2 ramT2 dur2 : JsNumber)
          (dismissed1 dismissed2 : gset string) (now1 now2 : MetricType -> Z)
          (d1 d2 : Device.t) (a1 a2 : Alert.t),
     a1 ∈ evaluateDevice cpuT1 ramT1 dur1 dismissed1 now1 d1 ->
     a2 ∈ evaluateDevice cpuT2 ramT2 dur2 dismissed2 now2 d2 ->
     (Alert.id a1 = Alert.id a2 <->
      Device.id d1 = Device.id d2 /\
      Alert.metricType a1 = Alert.metricType a2 /\
      (toQ (thresholdFor (Alert.metricType a1) cpuT1 ramT1)
       == toQ (thresholdFor (Alert.metricType a2) cpuT2 ramT2))%Q /\
      (toQ dur1 == toQ dur2)%Q)) /\
  (forall (i1 i2 : string) (m1 m2 : MetricType) (t1 t2 u1 u2 : JsNumber),
     alertId i1 m1 t1 u1 = alertId i2 m2 t2 u2 <->
     i1 = i2 /\ m1 = m2 /\ (toQ t1 == toQ t2)%Q /\ (toQ u1 == toQ u2)%Q) /\
  (forall (i : string) (m : MetricType) (t t' u u' : JsNumber),
     ~ (toQ t == toQ t')%Q \/ ~ (toQ u == toQ u')%Q ->
     alertId i m t u <> alertId i m t' u') /\
  (forall (cpuT ramT dur : JsNumber) (now : MetricType -> Z) (d : Device.t)
          (m : MetricType) (i0 : string) (m0 : MetricType) (t0 u0 : JsNumber),
     (pointsNeeded dur <= Z.of_nat (length (Device.metrics d)))%Z ->
     sustained m (thresholdFor m cpuT ramT) dur d ->
     (emits m (evaluateDevice cpuT ramT dur {[ alertId i0 m0 t0 u0 ]} now d)
      <-> ~ (Device.id d = i0 /\ m = m0 /\
             (toQ (thresholdFor m cpuT ramT) == toQ t0)%Q /\
             (toQ dur == toQ u0)%Q))).
Proof.
  assert (Hiff : forall i1 i2 m1 m2 t1 t2 u1 u2,
            alertId i1 m1 t1 u1 = alertId i2 m2 t2 u2 <->
            i1 = i2 /\ m1 = m2 /\ (toQ t1 == toQ t2)%Q /\ (toQ u1 == toQ u2)%Q).
  { intros. split; [apply alertId_inj|].
    intros (-> & -> & Ht & Hu). apply alertId_value; assumption. }
  split; [|split; [|split; [|split; [|split]]]].
  - intros cpuT ramT dur dismissed now d m Hlen Hs Hnd.
    destruct (evaluateDevice_raises cpuT ramT dur dismissed now d m Hlen Hs Hnd)
      as (latest & _ & Ha).
    eexists. split; [exact Ha|]. split; reflexivity.
  - intros cpuT ramT dur dismissed now d a Ha.
    apply evaluateDevice_elem in Ha as (m & latest & _ & _ & _ & ->).
    reflexivity.
  - intros cpuT1 ramT1 dur1 cpuT2 ramT2 dur2 dismissed1 dismissed2 now1 now2
      d1 d2 a1 a2 Ha1 Ha2.
    apply evaluateDevice_elem in Ha1 as (m1 & l1 & _ & _ & _ & ->).
    apply evaluateDevice_elem in Ha2 as (m2 & l2 & _ & _ & _ & ->).
    simpl. apply Hiff.
  - exact Hiff.
  - intros i m t t' u u' Hdiff Heq.
    apply alertId_inj in Heq as (_ & _ & Ht & Hu).
    destruct Hdiff as [H|H]; apply H; assumption.
  - intros cpuT ramT dur now d m i0 m0 t0 u0 Hlen Hs.
    rewrite (evaluateDevice_emits cpuT ramT dur _ now d m Hlen).
    rewrite elem_of_singleton, Hiff. tauto.
Qed.

Lemma alert_key_identifies_condition_witness :
  let d := deviceWith (replicate 20 (hot 95)) in
  let ninetyAndAHalf := mkNumber false [D9; D0; D5] (-1) in
  let dismissed : gset string := {[ alertId "dev-0" CPU (num 90) (num 60) ]} in
  alertId "dev-0" CPU ninetyAndAHalf (num 60) = "dev-0-CPU-90.5-60" /\
  emits CPU (evaluateDevice ninetyAndAHalf (num 90) (num 60) dismissed
               (fun _ => 0%Z) d) /\
  ~ emits CPU (evaluateDevice (num 90) (num 90) (num 60) dismissed
                 (fun _ => 0%Z) d).
Proof.
  intros d ninetyAndAHalf dismissed. split; [reflexivity|].
  destruct alert_key_identifies_condition as (_ & _ & _ & _ & _ & H).
  assert (Hlen : (pointsNeeded (num 60) <= Z.of_nat (length (Device.metrics d)))%Z)
    by (vm_compute; discriminate).
  split.
  - apply H; [exact Hlen | apply exceeded_sustained; vm_compute; reflexivity |].
    intros (_ & _ & Ht & _). vm_compute in Ht. discriminate Ht.
  - intros He. apply H in He.
    + apply He. repeat split; reflexivity.
    + exact Hlen.
    + apply exceeded_sustained. vm_compute. reflexivity.
Defined.

(** ** Scenarios *)

(** A duration of 60 seconds, sampled every 3 seconds, needs 20 samples;
    one of 4.5 seconds needs 2. *)
Example scenario_window_size :
  pointsNeeded (num 60) = 20%Z /\
  pointsNeeded (mkNumber false [D4; D5] (-1)) = 2%Z.
Proof. split; reflexivity. Qed.

(** The ids of a fractional threshold, of a large and of a small one and
    of a tiny duration, as the template literal writes them: the exponent
    form sets in at 1e21 and below 1e-6, and zeros around the digits of a
    number do not show. *)
Example scenario_rendering :
  alertId "dev-0" CPU (mkNumber false [D9; D0; D5] (-1)) (num 60)
  = "dev-0-CPU-90.5-60" /\
  alertId "dev-0" CPU (mkNumber false [D0; D9; D0; D5; D0] (-2)) (num 60)
  = "dev-0-CPU-90.5-60" /\
  alertId "dev-0" RAM (num (-1000000000000000000000)) (num 60)
  = "dev-0-RAM--1e+21-60" /\
  alertId "dev-0" RAM (num 100000000000000000000) (num 60)
  = "dev-0-RAM-100000000000000000000-60" /\
  alertId "dev-0" RAM (mkNumber true [D2; D5] (-2)) (num 60)
  = "dev-0-RAM--0.25-60" /\
  alertId "dev-0" CPU (num 90) (mkNumber false [D1] (-6))
  = "dev-0-CPU-90-0.000001" /\
  alertId "dev-0" CPU (num 90) (mkNumber false [D1; D5] (-8))
  = "dev-0-CPU-90-1.5e-7".
Proof. repeat split. Qed.

(** Twenty consecutive samples at cpu 95 give one CPU alert that reports 95
    and carries the clock reading of its push. *)
Example scenario_sustained :
  evaluate (num 90) (num 90) (num 60) ∅ (fun _ _ => 1000%Z)
           [deviceWith (replicate 20 (hot 95))]
  = [Alert.mk "dev-0-CPU-90-60" "dev-0" "US-WEST-SRV-01" CPU 95 1000].
Proof. vm_compute. reflexivity. Qed.

(** Lowering the twentieth sample to cpu 50 gives no alert. *)
Example scenario_dip :
  evaluate (num 90) (num 90) (num 60) ∅ (fun _ _ => 1000%Z)
           [deviceWith (replicate 19 (hot 95) ++ [hot 50])]
  = [].
Proof. vm_compute. reflexivity. Qed.

(** A dip anywhere in the window has the same effect. *)
Example scenario_early_dip :
  evaluate (num 90) (num 90) (num 60) ∅ (fun _ _ => 1000%Z)
           [deviceWith (hot 90 :: replicate 19 (hot 95))]
  = [].
Proof. vm_compute. reflexivity. Qed.

(** After the alert of the first scenario is dismissed, five more ticks
    with cpu held at 95 (every roll is 0.5, so the drift is 0) leave the
    active list empty. *)
Example scenario_dismissed_stays_away :
  let st0 := mkApp [deviceWith (replicate 20 (hot 95))] [] ∅
                   (num 90) (num 90) (num 60) in
  let st1 := alertEffect (fun _ _ => 1000%Z) st0 in
  let st2 := step st1 (DismissAlert "dev-0-CPU-90-60", constWorld 0.5 2000) in
  let st3 := run st2 (replicate 5 (Tick, constWorld 0.5 3000)) in
  idsOf (activeAlerts st1) = ["dev-0-CPU-90-60"] /\
  activeAlerts st2 = [] /\
  activeAlerts st3 = [] /\
  map (fun d => forallb (fun p => Qgtb (MetricPoint.cpu p) 90) (Device.metrics d))
      (devices st3) = [true].
Proof. vm_compute. repeat split. Qed.

(** Changing the threshold mints a new id, which the old dismissal does not
    cover. *)
Example scenario_new_threshold_raises_again :
  let st0 := mkApp [deviceWith (replicate 20 (hot 95))] []
                   {[ "dev-0-CPU-90-60" ]} (num 90) (num 90) (num 60) in
  idsOf (activeAlerts (alertEffect (fun _ _ => 1000%Z) st0)) = [] /\
  idsOf (activeAlerts
           (step st0 (ChangeCpuThreshold (num 91), constWorld 0.5 2000)))
  = ["dev-0-CPU-91-60"].
Proof. vm_compute. repeat split. Qed.

(** * Further properties of the code *)

(** ** Identity of the devices of a fleet *)

Lemma createDevice_identity (i : nat) (w : World) :
  Device.id (fst (createDevice i w)) = deviceIdAt i /\
  Device.name (fst (createDevice i w))
  = default "" (DEVICE_NAMES !! (i mod length DEVICE_NAMES)).
Proof.
  unfold createDevice, bind, random, dateNow, ret.
  set (w1 := mkWorld _ _ _ _).
  destruct (backfill 20 None [] w1) as [ms w2]. simpl. split; reflexivity.
Qed.

Lemma updateDevices_ids (ds : list Device.t) (w : World) :
  map Device.id (fst (updateDevices ds w)) = map Device.id ds /\
  map Device.name (fst (updateDevices ds w)) = map Device.name ds.
Proof.
  pose proof (updateDevices_advanced ds w) as H.
  split; (eapply Forall2_map_eq; [|exact H]); intros d d' [w' ->];
    destruct (updateDevice_shape d w') as (roll & w'' & now & ->); reflexivity.
Qed.

Lemma deviceIdAt_inj (i j : nat) : deviceIdAt i = deviceIdAt j -> i = j.
Proof.
  unfold deviceIdAt. intros H. apply (inj (String.app "dev-")) in H.
  now apply (inj pretty) in H.
Qed.

Lemma fleetAfter_ids (count : nat) (w0 : World) (ws : list World) :
  map Device.id (fleetAfter count w0 ws) = map deviceIdAt (seq 0 count) /\
  map Device.name (fleetAfter count w0 ws)
  = map (fun i => default "" (DEVICE_NAMES !! (i mod length DEVICE_NAMES)))
        (seq 0 count).
Proof.
  unfold fleetAfter.
  assert (H0 : map Device.id (fst (createInitialDevices count w0))
               = map deviceIdAt (seq 0 count) /\
               map Device.name (fst (createInitialDevices count w0))
               = map (fun i => default "" (DEVICE_NAMES !! (i mod length DEVICE_NAMES)))
                     (seq 0 count)).
  { unfold createInitialDevices.
    pose proof (mapM_Forall2 createDevice (seq 0 count) w0) as H.
    split; (eapply Forall2_map_eq; [|exact H]); intros i d [w' ->];
      destruct (createDevice_identity i w') as [Hi Hn]; assumption. }
  revert H0. generalize (fst (createInitialDevices count w0)) as ds.
  induction ws as [|w ws IH]; intros ds Hds; simpl; [exact Hds|].
  apply IH. destruct (updateDevices_ids ds w) as [-> ->]. exact Hds.
Qed.

(** X1. A fleet made by [createInitialDevices count] has [count] devices,
    the one at index [i] with id ["dev-i"] and the name at position
    [i mod 12] of [DEVICE_NAMES]; the ids are pairwise distinct, and ids
    and names stay as they are through any number of [updateDevices]
    calls. *)
Theorem fleet_ids_unique_and_stable (count : nat) (w0 : World)
    (ws : list World) :
  let fleet := fleetAfter count w0 ws in
  length fleet = count /\
  (forall i, i < count ->
     exists d, fleet !! i = Some d /\
       Device.id d = "dev-" +:+ pretty i /\
       DEVICE_NAMES !! (i mod 12) = Some (Device.name d)) /\
  NoDup (map Device.id fleet).
Proof.
  intros fleet. destruct (fleetAfter_ids count w0 ws) as [Hids Hnames].
  fold fleet in Hids, Hnames.
  assert (Hlen : length fleet = count).
  { rewrite <- (length_map Device.id), Hids, length_map. apply length_seq. }
  split; [exact Hlen|]. split.
  - intros i Hi.
    destruct (lookup_lt_is_Some_2 fleet i) as [d Hd]; [lia|].
    exists d. split; [exact Hd|].
    assert (Hi' : seq 0 count !! i = Some i).
    { rewrite lookup_seq. split; [reflexivity | exact Hi]. }
    split.
    + assert (H : map Device.id fleet !! i = Some (Device.id d))
        by (rewrite list_lookup_fmap, Hd; reflexivity).
      rewrite Hids, list_lookup_fmap, Hi' in H.
      apply fmap_Some in H as (j & [= <-] & ->). reflexivity.
    + assert (H : map Device.name fleet !! i = Some (Device.name d))
        by (rewrite list_lookup_fmap, Hd; reflexivity).
      rewrite Hnames, list_lookup_fmap, Hi' in H.
      apply fmap_Some in H as (j & [= <-] & ->).
      change (length DEVICE_NAMES) with 12.
      destruct (lookup_lt_is_Some_2 DEVICE_NAMES (i mod 12)) as [nm Hnm].
      { change (length DEVICE_NAMES) with 12. apply Nat.mod_upper_bound. lia. }
      rewrite Hnm. reflexivity.
  - rewrite Hids. apply NoDup_fmap_2; [|apply NoDup_seq].
    intros i j. apply deviceIdAt_inj.
Qed.

(** ** Statuses a fleet can show *)

Lemma rollStatus_cases (roll : Q) (s : DeviceStatus) :
  rollStatus roll s = WARNING \/ rollStatus roll s = ONLINE \/
  rollStatus roll s = s.
Proof.
  unfold rollStatus.
  destruct (Qgtb roll 0.98) eqn:H98; [auto|].
  destruct (Qgtb roll 0.995) eqn:H995.
  { apply (Qgtb_weaken roll 0.98) in H995; [congruence | discriminate]. }
  destruct (Qgtb roll 0.999) eqn:H999.
  { apply (Qgtb_weaken roll 0.98) in H999; [congruence | discriminate]. }
  destruct (Qltb roll 0.1 && negb (bool_decide (s = ONLINE))); auto.
Qed.

Lemma createDevice_status (i : nat) (w : World) :
  Device.status (fst (createDevice i w)) = ONLINE \/
  Device.status (fst (createDevice i w)) = WARNING.
Proof.
  unfold createDevice, bind, random, dateNow, ret.
  set (w1 := mkWorld _ _ _ _).
  destruct (backfill 20 None [] w1) as [ms w2]. simpl.
  destruct (Qgtb _ _); auto.
Qed.

(** X2. Every device of a fleet made by [createInitialDevices] is ONLINE or
    WARNING, and stays so through any number of [updateDevices] calls: the
    app never shows a device as ERROR or OFFLINE, so the error count of
    [stats] is 0 and so is the Offline slice of the pie. *)
Theorem fleet_never_error_or_offline (count : nat) (w0 : World)
    (ws : list World) :
  let fleet := fleetAfter count w0 ws in
  Forall (fun d => Device.status d = ONLINE \/ Device.status d = WARNING) fleet /\
  errorCount (stats fleet) = 0%Z /\
  map PieSlice.value (pieData (stats fleet))
  = [onlineCount (stats fleet); warningCount (stats fleet); 0%Z; 0%Z] /\
  (onlineCount (stats fleet) + warningCount (stats fleet))%Z
  = totalDevices (stats fleet).
Proof.
  intros fleet.
  assert (Hst : Forall (fun d => Device.status d = ONLINE \/
                                 Device.status d = WARNING) fleet).
  { apply fleetAfter_invariant.
    - apply createDevice_status.
    - intros d w Hd.
      destruct (updateDevice_shape d w) as (roll & w' & now & ->). simpl.
      destruct (rollStatus_cases roll (Device.status d)) as [H|[H|H]];
        rewrite H; tauto. }
  split; [exact Hst|].
  assert (Hcount : countStatus ERROR fleet = 0%Z /\
                   (countStatus ONLINE fleet + countStatus WARNING fleet)%Z
                   = Z.of_nat (length fleet)).
  { unfold countStatus. induction Hst as [|d l Hd _ IH]; [split; reflexivity|].
    destruct IH as [IH1 IH2]. rewrite !filter_cons.
    destruct Hd as [Hd|Hd]; rewrite Hd;
      repeat case_decide; try congruence; simpl length; split; lia. }
  destruct Hcount as [Herr Hsum].
  split; [exact Herr|]. split; [|exact Hsum].
  unfold pieData. cbn [map PieSlice.value].
  change (errorCount (stats fleet)) with (countStatus ERROR fleet).
  change (onlineCount (stats fleet)) with (countStatus ONLINE fleet).
  change (warningCount (stats fleet)) with (countStatus WARNING fleet).
  change (totalDevices (stats fleet)) with (Z.of_nat (length fleet)).
  rewrite Herr, <- Hsum.
  replace (countStatus ONLINE fleet + countStatus WARNING fleet
           - countStatus ONLINE fleet - countStatus WARNING fleet - 0)%Z
    with 0%Z by lia.
  reflexivity.
Qed.

(** ** The summary statistics *)

Lemma countStatus_partition (devices : list Device.t) :
  (countStatus ONLINE devices + countStatus WARNING devices
   + countStatus ERROR devices + countStatus OFFLINE devices)%Z
  = Z.of_nat (length devices).
Proof.
  unfold countStatus. induction devices as [|d l IH]; [reflexivity|].
  rewrite !filter_cons.
  destruct (Device.status d);
    repeat case_decide; try congruence; simpl length; lia.
Qed.

Lemma countStatus_nonneg (s : DeviceStatus) (devices : list Device.t) :
  (0 <= countStatus s devices)%Z.
Proof. unfold countStatus. lia. Qed.

(** X3. For any device list the three counts of [stats] and the Offline
    slice of the pie add up to the total: the Offline slice is exactly the
    number of OFFLINE devices, the [Math.max(0, ...)] around it never
    changing the difference it guards. *)
Theorem pie_slices_partition_fleet (devices : list Device.t) :
  let s := stats devices in
  map PieSlice.value (pieData s)
  = [countStatus ONLINE devices; countStatus WARNING devices;
     countStatus ERROR devices; countStatus OFFLINE devices] /\
  (totalDevices s - onlineCount s - warningCount s - errorCount s)%Z
  = countStatus OFFLINE devices /\
  foldr Z.add 0%Z (map PieSlice.value (pieData s)) = totalDevices s /\
  Forall (fun v => (0 <= v)%Z) (map PieSlice.value (pieData s)).
Proof.
  intros s. pose proof (countStatus_partition devices) as Hp.
  pose proof (countStatus_nonneg OFFLINE devices) as Hoff.
  assert (Hdiff : (totalDevices s - onlineCount s - warningCount s
                   - errorCount s)%Z = countStatus OFFLINE devices).
  { unfold s, stats; simpl. lia. }
  assert (Hval : map PieSlice.value (pieData s)
                 = [countStatus ONLINE devices; countStatus WARNING devices;
                    countStatus ERROR devices; countStatus OFFLINE devices]).
  { unfold pieData. cbn [map PieSlice.value]. rewrite Hdiff, Z.max_r by exact Hoff.
    reflexivity. }
  split; [exact Hval|]. split; [exact Hdiff|]. rewrite Hval. split.
  - unfold s, stats; simpl. lia.
  - repeat constructor; apply countStatus_nonneg.
Qed.

Lemma orZero_inRange (x : Q) : inRange x -> inRange (orZero x).
Proof.
  unfold orZero, inRange. destruct (Qeq_bool x 0); [|tauto].
  intros _. split; discriminate.
Qed.

Lemma orZero_eq (x : Q) : (orZero x == x)%Q.
Proof.
  unfold orZero. destruct (Qeq_bool x 0) eqn:H; [|reflexivity].
  apply Qeq_bool_eq in H. symmetry. exact H.
Qed.

Lemma latestOrZero_inRange (field : MetricPoint.t -> Q) (d : Device.t) :
  (forall m, m ∈ Device.metrics d -> inRange (field m)) ->
  inRange (latestOrZero field d).
Proof.
  intros H. unfold latestOrZero.
  destruct (last (Device.metrics d)) as [m|] eqn:Hlast.
  - apply orZero_inRange, H. apply last_Some_elem_of, Hlast.
  - split; discriminate.
Qed.

Lemma sum_latest_bounds (field : MetricPoint.t -> Q) (devices : list Device.t)
    (acc : Q) :
  Forall (fun d => inRange (latestOrZero field d)) devices ->
  (acc <= fold_left (fun a d => a + latestOrZero field d) devices acc)%Q /\
  (fold_left (fun a d => a + latestOrZero field d) devices acc
   <= acc + 100 * inject_Z (Z.of_nat (length devices)))%Q.
Proof.
  intros H. revert acc. induction H as [|d l [Hlo Hhi] _ IH]; intros acc.
  - simpl. change (inject_Z (Z.of_nat 0)) with 0%Q. split; lra.
  - simpl fold_left. destruct (IH (acc + latestOrZero field d)%Q) as [IH1 IH2].
    change (length (d :: l)) with (S (length l)).
    rewrite Nat2Z.inj_succ, <- Z.add_1_r, inject_Z_plus.
    change (inject_Z 1) with 1%Q. split; lra.
Qed.

Lemma sum_latest_proper (field : MetricPoint.t -> Q) (devices : list Device.t)
    (x y : Q) :
  (x == y)%Q ->
  (fold_left (fun a d => a + latestOrZero field d) devices x
   == fold_left (fun a d => a + latestOrZero field d) devices y)%Q.
Proof.
  revert x y. induction devices as [|d l IH]; intros x y H; simpl; [exact H|].
  apply IH. rewrite H. reflexivity.
Qed.

Lemma average_times_count (field : MetricPoint.t -> Q)
    (devices : list Device.t) :
  (average field devices * inject_Z (lengthOrOne devices)
   == fold_left (fun a d => a + latestOrZero field d) devices 0)%Q.
Proof.
  unfold average. rewrite Qmult_comm. apply Qmult_div_r.
  unfold lengthOrOne. case_bool_decide as Hn; [discriminate|].
  change 0%Q with (inject_Z 0). rewrite inject_Z_injective. lia.
Qed.

Lemma latestOrZero_empty (field : MetricPoint.t -> Q) (d : Device.t) :
  Device.metrics d = [] -> latestOrZero field d = 0%Q.
Proof. intros H. unfold latestOrZero. rewrite H. reflexivity. Qed.

(** The sum under an average is the same with and without a device that
    has no samples. *)
Lemma average_skips_empty (field : MetricPoint.t -> Q)
    (before after : list Device.t) (d : Device.t) :
  Device.metrics d = [] ->
  (average field (before ++ d :: after)
     * inject_Z (Z.of_nat (length (before ++ d :: after)))
   == average field (before ++ after)
        * inject_Z (lengthOrOne (before ++ after)))%Q.
Proof.
  intros Hd.
  assert (Hlen : lengthOrOne (before ++ d :: after)
                 = Z.of_nat (length (before ++ d :: after))).
  { unfold lengthOrOne. case_bool_decide as Hn; [|reflexivity].
    rewrite length_app in Hn. simpl in Hn. lia. }
  rewrite <- Hlen, !average_times_count, !fold_left_app. simpl.
  rewrite (latestOrZero_empty field d Hd).
  apply sum_latest_proper. apply Qplus_0_r.
Qed.

(** X4. The averages of [stats] are 0 for an empty device list (the divisor
    is [devices.length || 1], so nothing is divided by zero), and for a
    device list whose samples are all in [[0,100]] the average cpu and the
    average ram lie in [[0,100]]. A device without samples counts as 0: its
    latest cpu and ram read as 0, so wherever it stands in the list it adds
    nothing to the sums that are divided, while it is counted in the
    divisor. *)
Theorem stats_averages_in_range (devices : list Device.t) :
  Forall (fun d => Forall sampleInRange (Device.metrics d)) devices ->
  avgCpuUsage (stats []) = 0%Q /\
  avgRamUsage (stats []) = 0%Q /\
  inRange (avgCpuUsage (stats devices)) /\
  inRange (avgRamUsage (stats devices)) /\
  (forall d, d ∈ devices -> Device.metrics d = [] ->
     latestOrZero MetricPoint.cpu d = 0%Q /\
     latestOrZero MetricPoint.ram d = 0%Q) /\
  (forall before d after,
     devices = before ++ d :: after -> Device.metrics d = [] ->
     let count := inject_Z (Z.of_nat (length devices)) in
     let others := before ++ after in
     (avgCpuUsage (stats devices) * count
      == avgCpuUsage (stats others) * inject_Z (lengthOrOne others))%Q /\
     (avgRamUsage (stats devices) * count
      == avgRamUsage (stats others) * inject_Z (lengthOrOne others))%Q).
Proof.
  intros Hall. split; [reflexivity|]. split; [reflexivity|].
  assert (Havg : forall field,
             (forall m, sampleInRange m -> inRange (field m)) ->
             inRange (average field devices)).
  { intros field Hfield.
    assert (Hl : Forall (fun d => inRange (latestOrZero field d)) devices).
    { eapply Forall_impl; [exact Hall|]. intros d Hd.
      apply latestOrZero_inRange. intros m Hm. apply Hfield.
      rewrite Forall_forall in Hd. auto. }
    destruct (sum_latest_bounds field devices 0 Hl) as [Hlo Hhi].
    unfold average, lengthOrOne. case_bool_decide as Hn.
    - apply nil_length_inv in Hn. subst devices. simpl.
      split; discriminate.
    - assert (Hpos : (0 < inject_Z (Z.of_nat (length devices)))%Q).
      { change 0%Q with (inject_Z 0). rewrite <- Zlt_Qlt. lia. }
      split.
      + apply Qle_shift_div_l; [exact Hpos|]. lra.
      + apply Qle_shift_div_r; [exact Hpos|]. lra. }
  split; [apply Havg; intros m (Hc & Hr & _); assumption|].
  split; [apply Havg; intros m (Hc & Hr & _); assumption|].
  split.
  - intros d _ Hd. split; apply latestOrZero_empty, Hd.
  - intros before d after -> Hd. cbv zeta.
    split; apply average_skips_empty, Hd.
Qed.

Lemma stats_averages_in_range_witness :
  let devices := [deviceWith [hot 40; hot 60]; deviceWith []] in
  inRange (avgCpuUsage (stats devices)) /\
  (avgCpuUsage (stats devices) == 30)%Q /\
  (avgCpuUsage (stats devices) * 2
   == avgCpuUsage (stats [deviceWith [hot 40; hot 60]]) * 1)%Q.
Proof.
  intros devices.
  assert (H : Forall (fun d => Forall sampleInRange (Device.metrics d)) devices).
  { repeat constructor; simpl; discriminate. }
  destruct (stats_averages_in_range devices H) as (_ & _ & Hc & _ & _ & Hskip).
  split; [exact Hc|]. split; [reflexivity|].
  destruct (Hskip [deviceWith [hot 40; hot 60]] (deviceWith []) []
              eq_refl eq_refl) as [Hcpu _].
  exact Hcpu.
Defined.

(** ** What the evaluator emits *)

Lemma last_in_sliceLast {A} (n : nat) (l : list A) (x : A) :
  1 <= n -> last l = Some x -> x ∈ sliceLast n l.
Proof.
  intros Hn Hlast. apply last_Some in Hlast as [l' ->].
  unfold sliceLast. rewrite length_app. simpl.
  rewrite drop_app_le by lia. apply elem_of_app. right. left.
Qed.

(** X5. Every alert in the evaluator's output reports a value strictly above
    the threshold of its metric (the latest sample is itself in the window),
    has an id that is not dismissed, and belongs to a device of the input:
    it copies the id and the name of that device and is stamped with what
    the clock read at its own push. *)
Theorem emitted_alert_exceeds_threshold (cpuT ramT dur : JsNumber)
    (dismissed : gset string) (now : nat -> MetricType -> Z)
    (ds : list Device.t) :
  Forall (fun a =>
            (toQ (thresholdFor (Alert.metricType a) cpuT ramT)
             < Alert.value a)%Q /\
            (Alert.id a ∉ dismissed) /\
            exists i d,
              ds !! i = Some d /\
              Alert.deviceId a = Device.id d /\
              Alert.deviceName a = Device.name d /\
              Alert.timestamp a = now i (Alert.metricType a))
         (evaluate cpuT ramT dur dismissed now ds).
Proof.
  apply Forall_forall. intros a Ha.
  apply evaluate_elem in Ha as (i & d & Hd & Ha).
  apply evaluateDevice_elem in Ha as (m & latest & Hlast & Hs & Hnd & ->).
  simpl. split; [|split; [exact Hnd|]].
  - unfold sustained in Hs. rewrite Forall_forall in Hs. apply Hs.
    unfold window. apply last_in_sliceLast; [|exact Hlast].
    pose proof (pointsNeeded_pos dur). lia.
  - exists i, d. auto.
Qed.

(** Two alerts of one evaluation can carry different clock readings. *)
Example scenario_two_clock_readings :
  map Alert.timestamp
      (evaluate (num 90) (num 90) (num 3) ∅
         (fun i m => match m with CPU => 1000 | RAM => 1001 end)%Z
         [deviceWith [MetricPoint.mk 0 95 95 10 10]])
  = [1000%Z; 1001%Z].
Proof. vm_compute. reflexivity. Qed.

Lemma evaluateDevice_ids (cpuT ramT dur : JsNumber) (dismissed : gset string)
    (now : MetricType -> Z) (d : Device.t) :
  idsOf (evaluateDevice cpuT ramT dur dismissed now d)
  `sublist_of` [alertId (Device.id d) CPU cpuT dur;
                alertId (Device.id d) RAM ramT dur].
Proof.
  unfold evaluateDevice, raise, idsOf.
  repeat (case_bool_decide || case_match); simpl;
    repeat first [apply sublist_skip, sublist_nil_l
                 | apply sublist_nil_l
                 | apply sublist_skip | apply sublist_cons].
Qed.

Lemma evaluateDevice_ids_NoDup (cpuT ramT dur : JsNumber)
    (dismissed : gset string) (now : MetricType -> Z) (d : Device.t) :
  NoDup (idsOf (evaluateDevice cpuT ramT dur dismissed now d)).
Proof.
  eapply sublist_NoDup; [|apply evaluateDevice_ids].
  apply NoDup_cons. split; [|apply NoDup_singleton].
  intros Hin. apply list_elem_of_singleton in Hin.
  apply alertId_inj in Hin as (_ & Hm & _). discriminate Hm.
Qed.

Lemma evaluate_ids_NoDup (cpuT ramT dur : JsNumber) (dismissed : gset string)
    (now : nat -> MetricType -> Z) (ds : list Device.t) :
  NoDup (map Device.id ds) ->
  NoDup (idsOf (evaluate cpuT ramT dur dismissed now ds)).
Proof.
  unfold idsOf. revert now.
  induction ds as [|d ds IH]; simpl; intros now Hnd.
  - constructor.
  - apply NoDup_cons in Hnd as [Hd Hnd]. rewrite map_app.
    apply NoDup_app. split; [apply evaluateDevice_ids_NoDup|].
    split; [|apply IH, Hnd].
    intros k Hk Hk'. apply Hd.
    apply list_elem_of_fmap in Hk as (a & -> & Ha).
    apply list_elem_of_fmap in Hk' as (b & Hab & Hb).
    apply evaluateDevice_elem in Ha as (m & latest & _ & _ & _ & ->).
    apply evaluate_elem_device in Hb as (d' & clock' & Hd' & Hb).
    apply evaluateDevice_elem in Hb as (m' & latest' & _ & _ & _ & ->).
    simpl in Hab. apply alertId_inj in Hab as (-> & _).
    apply list_elem_of_fmap. eauto.
Qed.

(** ** Invariants of the component state *)

Lemma handle_ids (ev : Event) (w : World) (st : AppState) :
  map Device.id (devices (handle ev w st)) = map Device.id (devices st) /\
  map Device.name (devices (handle ev w st)) = map Device.name (devices st).
Proof.
  destruct ev; simpl; auto. apply updateDevices_ids.
Qed.

Lemma step_ids (st : AppState) (e : Event * World) :
  map Device.id (devices (step st e)) = map Device.id (devices st) /\
  map Device.name (devices (step st e)) = map Device.name (devices st).
Proof.
  unfold step. destruct (alertEffect_frame (alertClock (snd e))
    (handle (fst e) (snd e) st)) as (-> & _). apply handle_ids.
Qed.

Lemma survivors_ids_sublist (ev : Event) (active : list Alert.t) :
  idsOf (survivors ev active) `sublist_of` idsOf active.
Proof.
  destruct ev; simpl; try reflexivity.
  unfold idsOf. apply fmap_sublist, sublist_filter.
Qed.

Lemma mergeAlerts_NoDup (prev newAlerts : list Alert.t) :
  NoDup (idsOf prev) -> NoDup (idsOf newAlerts) ->
  NoDup (idsOf (mergeAlerts prev newAlerts)).
Proof.
  intros Hp Hn. rewrite mergeAlerts_app. unfold idsOf. rewrite map_app.
  apply NoDup_app. split; [exact Hp|]. split.
  - intros k Hk Hk'. apply list_elem_of_fmap in Hk' as (a & -> & Ha).
    apply list_elem_of_filter in Ha as [Hfresh _].
    apply Hfresh, elem_of_list_to_set, Hk.
  - eapply sublist_NoDup; [exact Hn|]. apply fmap_sublist, sublist_filter.
Qed.

Lemma step_NoDup (st : AppState) (e : Event * World) :
  NoDup (map Device.id (devices st)) -> NoDup (idsOf (activeAlerts st)) ->
  NoDup (idsOf (activeAlerts (step st e))).
Proof.
  intros Hd Ha. destruct e as [ev w]. unfold step; simpl.
  set (st1 := handle ev w st).
  assert (Ha1 : NoDup (idsOf (activeAlerts st1))).
  { unfold st1. rewrite handle_active.
    eapply sublist_NoDup; [exact Ha | apply survivors_ids_sublist]. }
  assert (Hd1 : NoDup (map Device.id (devices st1))).
  { unfold st1. destruct (handle_ids ev w st) as [-> _]. exact Hd. }
  unfold alertEffect. case_bool_decide; [exact Ha1|]. simpl.
  apply mergeAlerts_NoDup; [exact Ha1|]. apply evaluate_ids_NoDup, Hd1.
Qed.

(** X6. When the devices have pairwise distinct ids and the active alerts
    have pairwise distinct ids, the active alerts still have pairwise
    distinct ids after any sequence of ticks, dismissals and threshold
    changes: the list never holds two alerts under one id. *)
Theorem active_alert_ids_stay_distinct (st : AppState)
    (es : list (Event * World)) :
  NoDup (map Device.id (devices st)) ->
  NoDup (idsOf (activeAlerts st)) ->
  NoDup (idsOf (activeAlerts (run st es))) /\
  NoDup (map Device.id (devices (run st es))).
Proof.
  revert st. induction es as [|e es IH]; intros st Hd Ha; simpl; [auto|].
  apply IH.
  - destruct (step_ids st e) as [-> _]. exact Hd.
  - apply step_NoDup; assumption.
Qed.

Lemma active_alert_ids_stay_distinct_witness :
  let st := mkApp [deviceWith (replicate 20 (hot 95))] [] ∅
                  (num 90) (num 90) (num 60) in
  NoDup (idsOf (activeAlerts
    (run st [(Tick, constWorld 0.5 3000);
             (ChangeCpuThreshold (num 80), constWorld 0.5 4000)]))).
Proof.
  intros st.
  assert (Hd : NoDup (map Device.id (devices st))) by apply NoDup_singleton.
  assert (Ha : NoDup (idsOf (activeAlerts st))) by apply NoDup_nil_2.
  destruct (active_alert_ids_stay_distinct st
    [(Tick, constWorld 0.5 3000);
     (ChangeCpuThreshold (num 80), constWorld 0.5 4000)]
    Hd Ha) as [H _].
  exact H.
Defined.

Lemma alertEffect_undismissed (now : nat -> MetricType -> Z) (st : AppState) :
  undismissed st -> undismissed (alertEffect now st).
Proof.
  unfold undismissed. intros H.
  destruct (alertEffect_frame now st) as (_ & -> & _).
  destruct (alertEffect_active now st) as (added & -> & Hadd).
  apply Forall_app. split; [exact H|].
  eapply Forall_impl; [exact Hadd|]. intros a [Ha _].
  eapply evaluate_not_dismissed, Ha.
Qed.

Lemma handle_undismissed (ev : Event) (w : World) (st : AppState) :
  undismissed st -> undismissed (handle ev w st).
Proof.
  unfold undismissed. intros H. destruct ev; simpl; try exact H.
  apply Forall_forall. intros a Ha.
  apply list_elem_of_filter in Ha as [Hne Ha].
  rewrite Forall_forall in H. specialize (H a Ha). set_solver.
Qed.

(** X7. If no active alert carries a dismissed id, this remains so after any
    sequence of ticks, dismissals and threshold changes: the active list and
    the dismissed ids never overlap. *)
Theorem active_alerts_never_dismissed (st : AppState)
    (es : list (Event * World)) :
  undismissed st -> undismissed (run st es).
Proof.
  revert st. induction es as [|e es IH]; intros st H; simpl; [exact H|].
  apply IH. unfold step. apply alertEffect_undismissed, handle_undismissed, H.
Qed.

Lemma active_alerts_never_dismissed_witness :
  let busy := MetricPoint.mk 0 95 95 10 10 in
  let cpuAlert :=
    Alert.mk "dev-0-CPU-90-60" "dev-0" "US-WEST-SRV-01" CPU 95 1000 in
  let ramAlert :=
    Alert.mk "dev-0-RAM-90-60" "dev-0" "US-WEST-SRV-01" RAM 95 1000 in
  let st := mkApp [deviceWith (replicate 20 busy)] [cpuAlert; ramAlert]
                  {[ "dev-0-CPU-80-60" ]} (num 90) (num 90) (num 60) in
  let st' := run st [(DismissAlert "dev-0-CPU-90-60", constWorld 0.5 2000);
                     (Tick, constWorld 0.5 3000);
                     (ChangeCpuThreshold (num 85), constWorld 0.5 4000)] in
  undismissed st' /\
  idsOf (activeAlerts st') = ["dev-0-RAM-90-60"; "dev-0-CPU-85-60"] /\
  "dev-0-CPU-90-60" ∈ dismissedAlertIds st'.
Proof.
  intros busy cpuAlert ramAlert st st'.
  assert (H : undismissed st).
  { unfold undismissed, st. cbn [activeAlerts dismissedAlertIds].
    repeat constructor; cbn [Alert.id cpuAlert ramAlert];
      rewrite elem_of_singleton; discriminate. }
  split; [exact (active_alerts_never_dismissed st _ H)|].
  split; [vm_compute; reflexivity|].
  apply (bool_decide_unpack _). vm_compute. exact I.
Defined.

(** X8. The dismissed ids after any sequence of events are the dismissed ids
    before it together with the ids named by the dismissals of the
    sequence: ticks and threshold changes leave the set alone, and no event
    ever takes an id out of it. *)
Theorem dismissed_ids_accumulate (st : AppState) (es : list (Event * World)) :
  dismissedAlertIds (run st es)
  = dismissedAlertIds st ∪ list_to_set (dismissedIn es).
Proof.
  revert st. induction es as [|[ev w] es IH]; intros st; simpl.
  - set_solver.
  - rewrite IH. unfold step; simpl.
    destruct (alertEffect_frame (alertClock w) (handle ev w st))
      as (_ & -> & _).
    destruct ev; simpl; set_solver.
Qed.

Lemma advanced_elem (ds ds' : list Device.t) (d : Device.t) :
  Forall2 advanced ds ds' -> d ∈ ds ->
  exists d', d' ∈ ds' /\ Device.id d' = Device.id d /\
             Device.name d' = Device.name d.
Proof.
  intros H Hd. apply list_elem_of_lookup in Hd as [i Hi].
  destruct (Forall2_lookup_l _ _ _ _ _ H Hi) as (d' & Hi' & [w ->]).
  exists (fst (updateDevice d w)). split.
  - apply list_elem_of_lookup. eauto.
  - destruct (updateDevice_shape d w) as (roll & w' & now & ->). auto.
Qed.

Lemma handle_raisedFor (ev : Event) (w : World) (st : AppState) (a : Alert.t) :
  raisedFor (devices st) a -> raisedFor (devices (handle ev w st)) a.
Proof.
  destruct ev; simpl; auto.
  intros (d & thr & dur & Hd & Hi & Hn & Hk).
  destruct (advanced_elem _ _ d (updateDevices_advanced (devices st) w) Hd)
    as (d' & Hd' & Hid & Hname).
  exists d', thr, dur. rewrite Hid, Hname. auto.
Qed.

Lemma newAlertsOf_raisedFor (st : AppState) (now : nat -> MetricType -> Z)
    (a : Alert.t) :
  a ∈ newAlertsOf st now -> raisedFor (devices st) a.
Proof.
  unfold newAlertsOf. intros Ha.
  apply evaluate_elem_device in Ha as (d & clock' & Hd & Ha).
  apply evaluateDevice_elem in Ha as (m & latest & _ & _ & _ & ->).
  exists d, (thresholdFor m (cpuThreshold st) (ramThreshold st)),
    (alertDuration st). simpl. auto.
Qed.

Lemma alertEffect_raisedFor (now : nat -> MetricType -> Z) (st : AppState) :
  Forall (raisedFor (devices st)) (activeAlerts st) ->
  Forall (raisedFor (devices (alertEffect now st)))
         (activeAlerts (alertEffect now st)).
Proof.
  intros H.
  destruct (alertEffect_frame now st) as (-> & _).
  destruct (alertEffect_active now st) as (added & -> & Hadd).
  apply Forall_app. split; [exact H|].
  eapply Forall_impl; [exact Hadd|]. intros a [Ha _].
  eapply newAlertsOf_raisedFor, Ha.
Qed.

Lemma step_raisedFor (st : AppState) (e : Event * World) :
  Forall (raisedFor (devices st)) (activeAlerts st) ->
  Forall (raisedFor (devices (step st e))) (activeAlerts (step st e)).
Proof.
  intros H. destruct e as [ev w]. unfold step; simpl.
  apply alertEffect_raisedFor.
  rewrite handle_active. apply Forall_forall. intros a Ha.
  apply handle_raisedFor. apply survivors_sublist in Ha.
  rewrite Forall_forall in H. auto.
Qed.

(** X9. After mounting and any sequence of ticks, dismissals and threshold
    changes, every active alert belongs to a device of the current fleet:
    it carries that device's id and name, and its own id is the one built
    from that device id, its metric and some threshold and duration. *)
Theorem active_alerts_name_fleet_devices (w0 : World)
    (es : list (Event * World)) :
  let st := run (mountApp w0) es in
  Forall (raisedFor (devices st)) (activeAlerts st).
Proof.
  intros st. unfold st. clear st.
  assert (H0 : Forall (raisedFor (devices (mountApp w0)))
                      (activeAlerts (mountApp w0))).
  { unfold mountApp. apply alertEffect_raisedFor. constructor. }
  revert H0. generalize (mountApp w0) as st.
  induction es as [|e es IH]; intros st H; simpl; [exact H|].
  apply IH, step_raisedFor, H.
Qed.

(** X10. Running the alert effect again on the state it produced, at any
    later clock, changes nothing; so it makes no difference whether the
    effect is re-run after an event that set no dependency to a new
    value. *)
Theorem alert_effect_rerun_is_noop (st : AppState)
    (now now' : nat -> MetricType -> Z) (e : Event * World) :
  alertEffect now' (alertEffect now st) = alertEffect now st /\
  alertEffect now' (step st e) = step st e.
Proof.
  split; [|unfold step]; apply alertEffect_idempotent.
Qed.

(** X11. Dismissing an id twice is the same as dismissing it once, and two
    dismissals give the same state in either order. *)
Theorem dismissals_idempotent_and_commute (st : AppState) (K1 K2 : string) :
  handleDismissAlert K1 (handleDismissAlert K1 st) = handleDismissAlert K1 st /\
  handleDismissAlert K1 (handleDismissAlert K2 st)
  = handleDismissAlert K2 (handleDismissAlert K1 st).
Proof.
  unfold handleDismissAlert; simpl. split; f_equal.
  - rewrite list_filter_filter. apply list_filter_iff. tauto.
  - apply set_eq. intros x. rewrite !elem_of_union, !elem_of_singleton. tauto.
  - rewrite !list_filter_filter. apply list_filter_iff. tauto.
  - apply set_eq. intros x. rewrite !elem_of_union, !elem_of_singleton. tauto.
Qed.

(** ** The selected device *)

Lemma selectedDevice_Some (ds : list Device.t) (sel : option string)
    (d : Device.t) :
  selectedDevice ds sel = Some d -> d ∈ ds /\ sel = Some (Device.id d).
Proof.
  unfold selectedDevice. intros H. apply find_some in H as [Hin Hb].
  apply bool_decide_eq_true in Hb. split; [now apply list_elem_of_In | auto].
Qed.

Lemma selectedDevice_None (ds : list Device.t) (i : string) :
  selectedDevice ds (Some i) = None <-> i ∉ map Device.id ds.
Proof.
  unfold selectedDevice. induction ds as [|d ds IH]; simpl.
  - split; [intros _ H; inversion H | reflexivity].
  - case_bool_decide as Hd.
    + split; [discriminate|]. intros H. exfalso. apply H.
      injection Hd as ->. left.
    + rewrite IH, not_elem_of_cons. split; [|tauto].
      intros H. split; [congruence | exact H].
Qed.

(** X12. The selected device, when there is one, is the first device of the
    list with the selected id; there is none exactly when no id is selected
    or no device has the selected id; and a tick keeps the selection: after
    [updateDevices] the selected device is the next generation of the one
    selected before. *)
Theorem selected_device_survives_ticks (ds : list Device.t) (w : World)
    (sel : option string) :
  selectedDevice ds None = None /\
  (forall i, selectedDevice ds (Some i) = None <-> i ∉ map Device.id ds) /\
  (forall d, selectedDevice ds sel = Some d ->
             d ∈ ds /\ sel = Some (Device.id d)) /\
  option_Forall2 advanced (selectedDevice ds sel)
                 (selectedDevice (fst (updateDevices ds w)) sel).
Proof.
  split; [|split; [|split]].
  - unfold selectedDevice. induction ds as [|d ds IH]; simpl; [reflexivity|].
    first [exact IH | case_bool_decide; [discriminate | exact IH]].
  - intros i. apply selectedDevice_None.
  - intros d. apply selectedDevice_Some.
  - pose proof (updateDevices_advanced ds w) as H. unfold selectedDevice.
    induction H as [|d d' l l' Hadv _ IH]; simpl; [constructor|].
    assert (Hid : Device.id d' = Device.id d).
    { destruct Hadv as [w' ->].
      destruct (updateDevice_shape d w') as (roll & w'' & now & ->).
      reflexivity. }
    rewrite Hid. case_bool_decide; [constructor; exact Hadv | exact IH].
Qed.

(** ** The random walk of the samples *)

Lemma clamp100_cases (x : Q) :
  ((x <= 0)%Q /\ (clamp100 x == 0)%Q) \/
  ((0 <= x)%Q /\ (x <= 100)%Q /\ (clamp100 x == x)%Q) \/
  ((100 <= x)%Q /\ (clamp100 x == 100)%Q).
Proof.
  unfold clamp100.
  destruct (Q.max_spec 0 x) as [[H1 E1]|[H1 E1]];
    destruct (Q.min_spec 100 (Qmax 0 x)) as [[H2 E2]|[H2 E2]];
    rewrite E2; rewrite ?E1 in *; lra.
Qed.

Lemma drift_bounds (r : Q) :
  (0 <= r)%Q -> (r < 1)%Q ->
  (-5 <= (r - 0.5) * 10)%Q /\ ((r - 0.5) * 10 < 5)%Q.
Proof. intros H0 H1. split; lra. Qed.

Lemma generateMetricPoint_drifted (p : MetricPoint.t) (w : World) :
  let r k := rolls w (k + cursor w) in
  generateMetricPoint (Some p) w
  = (MetricPoint.mk (clock w)
       (clamp100 (MetricPoint.cpu p + (r 0 - 0.5) * 10))
       (clamp100 (MetricPoint.ram p + (r 1 - 0.5) * 10))
       (clamp100 (MetricPoint.disk p + (r 2 - 0.5) * 10))
       (clamp100 (MetricPoint.network p + (r 3 - 0.5) * 10)),
     mkWorld (rolls w) (4 + cursor w) (clock w) (alertClock w)).
Proof. destruct w. reflexivity. Qed.

Lemma generateMetricPoint_seeded (w : World) :
  let r k := rolls w (k + cursor w) in
  generateMetricPoint None w
  = (MetricPoint.mk (clock w)
       (clamp100 (r 0 * 40 + 20 + (r 1 - 0.5) * 10))
       (clamp100 (r 2 * 50 + 30 + (r 3 - 0.5) * 10))
       (clamp100 (r 4 * 10 + 60 + (r 5 - 0.5) * 10))
       (clamp100 (r 6 * 20 + 10 + (r 7 - 0.5) * 10)),
     mkWorld (rolls w) (8 + cursor w) (clock w) (alertClock w)).
Proof. destruct w. reflexivity. Qed.

Lemma clamp100_step (c d : Q) :
  inRange c -> (-5 <= d)%Q -> (d < 5)%Q ->
  (c - 5 <= clamp100 (c + d))%Q /\ (clamp100 (c + d) <= c + 5)%Q.
Proof.
  intros [Hc0 Hc1] Hd0 Hd1.
  destruct (clamp100_cases (c + d)) as [[H E]|[(H & H' & E)|[H E]]];
    rewrite E; split; lra.
Qed.

(** X13. With rolls in [[0,1)] and a previous sample in [[0,100]], the next
    sample differs from the previous one by at most 5 in each of cpu, ram,
    disk and network; it takes four rolls and is stamped with the clock. *)
Theorem sample_drift_at_most_five (p : MetricPoint.t) (w : World) :
  fairRolls w -> sampleInRange p ->
  let m := fst (generateMetricPoint (Some p) w) in
  (MetricPoint.cpu p - 5 <= MetricPoint.cpu m <= MetricPoint.cpu p + 5)%Q /\
  (MetricPoint.ram p - 5 <= MetricPoint.ram m <= MetricPoint.ram p + 5)%Q /\
  (MetricPoint.disk p - 5 <= MetricPoint.disk m <= MetricPoint.disk p + 5)%Q /\
  (MetricPoint.network p - 5 <= MetricPoint.network m
   <= MetricPoint.network p + 5)%Q /\
  MetricPoint.timestamp m = clock w /\
  cursor (snd (generateMetricPoint (Some p) w)) = 4 + cursor w.
Proof.
  intros Hfair (Hc & Hr & Hd & Hn) m. unfold m.
  rewrite generateMetricPoint_drifted. simpl.
  repeat split;
    try (apply clamp100_step; [assumption | apply drift_bounds; apply Hfair ..]).
Qed.

Lemma sample_drift_at_most_five_witness :
  let m := fst (generateMetricPoint (Some (hot 99)) (constWorld 0.9 1000)) in
  (MetricPoint.cpu (hot 99) - 5 <= MetricPoint.cpu m
   <= MetricPoint.cpu (hot 99) + 5)%Q.
Proof.
  assert (Hfair : fairRolls (constWorld 0.9 1000)).
  { intros k. simpl. split; [discriminate | reflexivity]. }
  assert (Hp : sampleInRange (hot 99)).
  { repeat split; simpl; discriminate. }
  destruct (sample_drift_at_most_five (hot 99) (constWorld 0.9 1000) Hfair Hp)
    as (H & _).
  exact H.
Defined.

Lemma clamp100_between (lo hi x : Q) :
  (0 <= lo)%Q -> (hi <= 100)%Q -> (lo <= x)%Q -> (x <= hi)%Q ->
  (lo <= clamp100 x)%Q /\ (clamp100 x <= hi)%Q.
Proof.
  intros Hlo Hhi H1 H2.
  destruct (clamp100_cases x) as [[H E]|[(H & H' & E)|[H E]]];
    rewrite E; split; lra.
Qed.

(** X14. With rolls in [[0,1)], a sample generated without a previous one
    has cpu in [[15,65]], ram in [[25,85]], disk in [[55,75]] and network in
    [[5,35]] (the seed range of each dimension widened by the drift of at
    most 5), and takes eight rolls. *)
Theorem seeded_sample_ranges (w : World) :
  fairRolls w ->
  let m := fst (generateMetricPoint None w) in
  (15 <= MetricPoint.cpu m <= 65)%Q /\
  (25 <= MetricPoint.ram m <= 85)%Q /\
  (55 <= MetricPoint.disk m <= 75)%Q /\
  (5 <= MetricPoint.network m <= 35)%Q /\
  cursor (snd (generateMetricPoint None w)) = 8 + cursor w.
Proof.
  intros Hfair m. unfold m. rewrite generateMetricPoint_seeded. simpl.
  pose proof (Hfair (0 + cursor w)) as [? ?].
  pose proof (Hfair (1 + cursor w)) as [? ?].
  pose proof (Hfair (2 + cursor w)) as [? ?].
  pose proof (Hfair (3 + cursor w)) as [? ?].
  pose proof (Hfair (4 + cursor w)) as [? ?].
  pose proof (Hfair (5 + cursor w)) as [? ?].
  pose proof (Hfair (6 + cursor w)) as [? ?].
  pose proof (Hfair (7 + cursor w)) as [? ?].
  cbn [Nat.add] in *.
  split; [apply clamp100_between; lra|].
  split; [apply clamp100_between; lra|].
  split; [apply clamp100_between; lra|].
  split; [apply clamp100_between; lra | reflexivity].
Qed.

Lemma seeded_sample_ranges_witness :
  (15 <= MetricPoint.cpu (fst (generateMetricPoint None (constWorld 0.25 0)))
   <= 65)%Q.
Proof.
  assert (Hfair : fairRolls (constWorld 0.25 0)).
  { intros k. simpl. split; [discriminate | reflexivity]. }
  destruct (seeded_sample_ranges (constWorld 0.25 0) Hfair) as (H & _).
  exact H.
Defined.

(** ** The insight service *)

Lemma retryLoop_body (retries : nat) (n : Net) :
  retryLoop retries n
  = if lt_dec retries maxRetries
    then match outcomes n (calls n) with
         | Resolved text => (text, mkNet (outcomes n) (S (calls n)) (sleeps n))
         | Rejected error =>
             if isRateLimit error && bool_decide (retries < maxRetries - 1)
             then retryLoop (S retries)
                    (sleep (baseDelay * 2 ^ Z.of_nat (S retries))
                           (mkNet (outcomes n) (S (calls n)) (sleeps n)))
             else (settle (Rejected error),
                   mkNet (outcomes n) (S (calls n)) (sleeps n))
         end
    else (None, n).
Proof.
  funelim (retryLoop retries n); try clear Heqcall;
    repeat match goal with
      | E : lt_dec _ _ = _ |- _ => rewrite E; clear E
      | E : outcomes _ _ = _ |- _ => rewrite E; clear E
      | E : (_ && _) = _ |- _ => rewrite E; clear E
      end;
    try reflexivity.
  unfold settle. destruct (isRateLimit error); reflexivity.
Qed.

Example throttled_run :
  getSystemInsights [] throttled
  = (Some QUOTA_MESSAGE,
     mkNet (outcomes throttled) 3 [4000%Z; 8000%Z]).
Proof. reflexivity. Qed.


Lemma retryLoop_last (n : Net) :
  retryLoop 2 n
  = (settle (outcomes n (calls n)),
     mkNet (outcomes n) (S (calls n)) (sleeps n)).
Proof.
  rewrite retryLoop_body.
  destruct (lt_dec 2 maxRetries) as [_|H]; [|unfold maxRetries in H; lia].
  destruct (outcomes n (calls n)) as [text|error]; [reflexivity|].
  replace (bool_decide (2 < maxRetries - 1)) with false
    by (symmetry; apply bool_decide_eq_false; unfold maxRetries; simpl; lia).
  rewrite andb_false_r. reflexivity.
Qed.

Lemma retryLoop_early (retries : nat) (n : Net) :
  retries < 2 ->
  retryLoop retries n
  = if rateLimited (outcomes n (calls n))
    then retryLoop (S retries)
           (mkNet (outcomes n) (S (calls n))
                  (sleeps n ++ [(baseDelay * 2 ^ Z.of_nat (S retries))%Z]))
    else (settle (outcomes n (calls n)),
          mkNet (outcomes n) (S (calls n)) (sleeps n)).
Proof.
  intros Hr. rewrite retryLoop_body.
  destruct (lt_dec retries maxRetries) as [_|H]; [|unfold maxRetries in H; lia].
  destruct (outcomes n (calls n)) as [text|error]; [reflexivity|].
  replace (bool_decide (retries < maxRetries - 1)) with true
    by (symmetry; apply bool_decide_eq_true; unfold maxRetries; simpl; lia).
  rewrite andb_true_r. simpl rateLimited.
  destruct (isRateLimit error); reflexivity.
Qed.

Lemma getSystemInsights_schedule (devices : list Device.t) (n : Net) :
  getSystemInsights devices n
  = if rateLimited (attempt n 0)
    then if rateLimited (attempt n 1)
         then (settle (attempt n 2),
               mkNet (outcomes n) (3 + calls n) (sleeps n ++ [4000; 8000]%Z))
         else (settle (attempt n 1),
               mkNet (outcomes n) (2 + calls n) (sleeps n ++ [4000]%Z))
    else (settle (attempt n 0),
          mkNet (outcomes n) (1 + calls n) (sleeps n)).
Proof.
  unfold getSystemInsights, attempt. simpl Nat.add.
  rewrite (retryLoop_early 0) by lia.
  destruct (rateLimited (outcomes n (calls n))); [|reflexivity].
  rewrite (retryLoop_early 1) by lia. cbn [outcomes calls sleeps].
  destruct (rateLimited (outcomes n (S (calls n)))); [|reflexivity].
  rewrite retryLoop_last. cbn [outcomes calls sleeps].
  rewrite <- app_assoc. reflexivity.
Qed.

(** X15. [getSystemInsights] answers with its first attempt unless that
    attempt hits a rate limit (a message containing 429, or status 429); it
    then sleeps 4000 ms and tries again, and after a second rate limit
    sleeps 8000 ms and tries a third and last time. Whatever attempt is the
    last decides the result: the response text if it resolved, the
    network message if it failed otherwise, the quota message if it was the
    third rate limit. A failure other than a rate limit is never retried. *)
Theorem insights_retry_schedule (devices : list Device.t) (n : Net) :
  let r := getSystemInsights devices n in
  (rateLimited (attempt n 0) = false ->
   r = (settle (attempt n 0),
        mkNet (outcomes n) (1 + calls n) (sleeps n))) /\
  (rateLimited (attempt n 0) = true -> rateLimited (attempt n 1) = false ->
   r = (settle (attempt n 1),
        mkNet (outcomes n) (2 + calls n) (sleeps n ++ [4000]%Z))) /\
  (rateLimited (attempt n 0) = true -> rateLimited (attempt n 1) = true ->
   r = (settle (attempt n 2),
        mkNet (outcomes n) (3 + calls n) (sleeps n ++ [4000; 8000]%Z))) /\
  (rateLimited (attempt n 0) = true -> rateLimited (attempt n 1) = true ->
   rateLimited (attempt n 2) = true -> fst r = Some QUOTA_MESSAGE).
Proof.
  intros r. unfold r. rewrite getSystemInsights_schedule.
  repeat split.
  - intros ->. reflexivity.
  - intros -> ->. reflexivity.
  - intros -> ->. reflexivity.
  - intros -> -> H. simpl. unfold rateLimited, settle in *.
    destruct (attempt n 2) as [text|error]; [discriminate|]. now rewrite H.
Qed.

(** X16. One run of [getSystemInsights] makes between one and three calls
    to the service and sleeps one time less than it calls, for 4000 ms and
    then 8000 ms, so for at most 12 seconds in all; it never leaves the
    loop without a result, returning [undefined] only when the service
    itself resolved without a text. *)
Theorem insights_retry_bounds (devices : list Device.t) (n : Net) :
  let r := getSystemInsights devices n in
  outcomes (snd r) = outcomes n /\
  calls n < calls (snd r) <= calls n + 3 /\
  (exists slept,
     sleeps (snd r) = sleeps n ++ slept /\
     slept `prefix_of` [4000; 8000]%Z /\
     S (length slept) = calls (snd r) - calls n /\
     (foldr Z.add 0 slept <= 12000)%Z) /\
  (fst r = None ->
   exists k, k < 3 /\ attempt n k = Resolved None).
Proof.
  intros r. unfold r. rewrite getSystemInsights_schedule.
  destruct (rateLimited (attempt n 0)) eqn:H0;
    [destruct (rateLimited (attempt n 1)) eqn:H1|]; simpl.
  - split; [reflexivity|]. split; [lia|]. split.
    + exists [4000; 8000]%Z. split; [reflexivity|]. split; [reflexivity|].
      split; simpl; lia.
    + intros Hnone. exists 2. split; [lia|].
      destruct (attempt n 2); simpl in Hnone; congruence.
  - split; [reflexivity|]. split; [lia|]. split.
    + exists [4000]%Z. split; [reflexivity|].
      split; [exists [8000%Z]; reflexivity|]. split; simpl; lia.
    + intros Hnone. exists 1. split; [lia|].
      destruct (attempt n 1); simpl in Hnone; congruence.
  - split; [reflexivity|]. split; [lia|]. split.
    + exists []. rewrite app_nil_r. split; [reflexivity|].
      split; [apply prefix_nil|]. split; simpl; lia.
    + intros Hnone. exists 0. split; [lia|].
      destruct (attempt n 0); simpl in Hnone; congruence.
Qed.


(** ** The insight panel *)

Lemma fetchInsight_cooling (devices : list Device.t) (captured : Z)
    (st : Insights) (n : Net) :
  (0 < captured)%Z -> fetchInsight devices captured st n = (st, n).
Proof.
  intros H. unfold fetchInsight. case_bool_decide; [reflexivity | lia].
Qed.

Lemma fetchInsight_ready (devices : list Device.t) (captured : Z)
    (st : Insights) (n : Net) :
  (captured <= 0)%Z ->
  fetchInsight devices captured st n
  = (if quotaExhausted (fst (getSystemInsights devices n))
     then mkInsights RESTING_MESSAGE false 60
     else mkInsights (orFallback (fst (getSystemInsights devices n))) false
                     (cooldown st),
     snd (getSystemInsights devices n)).
Proof.
  intros H. unfold fetchInsight. case_bool_decide; [lia|].
  destruct (getSystemInsights devices n) as [result n']. simpl.
  destruct (quotaExhausted result); reflexivity.
Qed.

Lemma getSystemInsights_calls (devices : list Device.t) (n : Net) :
  calls n < calls (snd (getSystemInsights devices n)).
Proof.
  rewrite getSystemInsights_schedule.
  destruct (rateLimited (attempt n 0)); [|simpl; lia].
  destruct (rateLimited (attempt n 1)); simpl; lia.
Qed.

(** X17. A [fetchInsight] whose closure holds a positive cooldown returns at
    once: no call is made and nothing changes. Any other calls the service
    and clears [loading], whatever cooldown the component shows by then:
    three rate limits in a row show the resting message, set the cooldown
    to 60 and disable the refresh button; a first attempt that fails for
    another reason shows the network message and leaves the cooldown of
    the component as it is, so the button is disabled afterwards exactly
    when that cooldown is still running; and a first attempt that resolves
    without a text, or with an empty one, shows the fallback message. The
    interval runs the closure of the first render, which holds cooldown 0,
    so it always calls the service; a click runs the closure of the current
    render, and only when the button is enabled, so with no cooldown
    running. *)
Theorem fetch_insight_outcomes (devices : list Device.t) (captured : Z)
    (st : Insights) (n : Net) :
  let st' := fst (fetchInsight devices captured st n) in
  let n' := snd (fetchInsight devices captured st n) in
  ((0 < captured)%Z -> st' = st /\ n' = n) /\
  ((captured <= 0)%Z ->
   calls n < calls n' /\
   loading st' = false /\
   (rateLimited (attempt n 0) = true -> rateLimited (attempt n 1) = true ->
    rateLimited (attempt n 2) = true ->
    st' = mkInsights RESTING_MESSAGE false 60 /\
    isRateLimited st' = true /\ refreshDisabled st' = true /\
    calls n' = 3 + calls n) /\
   (forall error, attempt n 0 = Rejected error -> isRateLimit error = false ->
    st' = mkInsights NETWORK_MESSAGE false (cooldown st) /\
    isRateLimited st' = false /\
    refreshDisabled st' = bool_decide (0 < cooldown st)%Z /\
    calls n' = 1 + calls n) /\
   (attempt n 0 = Resolved None \/ attempt n 0 = Resolved (Some "") ->
    st' = mkInsights FALLBACK_MESSAGE false (cooldown st))) /\
  intervalFetch devices st n = fetchInsight devices 0 st n /\
  calls n < calls (snd (intervalFetch devices st n)) /\
  (refreshDisabled st = true -> clickRefresh devices st n = (st, n)) /\
  (refreshDisabled st = false ->
   (cooldown st <= 0)%Z /\
   clickRefresh devices st n = fetchInsight devices (cooldown st) st n /\
   calls n < calls (snd (clickRefresh devices st n))).
Proof.
  intros st' n'. unfold st', n'.
  split; [|split; [|split; [|split; [|split]]]].
  - intros H. rewrite fetchInsight_cooling by exact H. auto.
  - intros Hc. rewrite fetchInsight_ready by exact Hc. simpl.
    split; [apply getSystemInsights_calls|].
    split; [destruct (quotaExhausted _); reflexivity|].
    rewrite getSystemInsights_schedule. split; [|split].
    + intros H0 H1 H2. rewrite H0, H1.
      assert (Hs : settle (attempt n 2) = Some QUOTA_MESSAGE).
      { unfold rateLimited, settle in *.
        destruct (attempt n 2); [discriminate | now rewrite H2]. }
      simpl. rewrite Hs. repeat split; reflexivity.
    + intros error H0 Hrl. rewrite H0. simpl. rewrite Hrl. simpl.
      repeat split; reflexivity.
    + intros [H0|H0]; rewrite H0; reflexivity.
  - reflexivity.
  - unfold intervalFetch. rewrite fetchInsight_ready by (simpl; lia). simpl.
    apply getSystemInsights_calls.
  - intros Hd. unfold clickRefresh. rewrite Hd. reflexivity.
  - intros Hd. unfold clickRefresh. rewrite Hd.
    assert (Hc : (cooldown st <= 0)%Z).
    { unfold refreshDisabled in Hd. apply orb_false_elim in Hd as [_ Hd].
      apply bool_decide_eq_false in Hd. lia. }
    split; [exact Hc|]. split; [reflexivity|].
    rewrite fetchInsight_ready by exact Hc. simpl.
    apply getSystemInsights_calls.
Qed.

(** With 43 seconds of cooldown on screen, a firing of the interval still
    makes three calls to a throttled service, and sets the cooldown back
    to 60; a click in that state does nothing. *)
Example scenario_interval_during_cooldown :
  let st := mkInsights RESTING_MESSAGE false 43 in
  intervalFetch [] st throttled
  = (mkInsights RESTING_MESSAGE false 60,
     mkNet (outcomes throttled) 3 [4000%Z; 8000%Z]) /\
  clickRefresh [] st throttled = (st, throttled).
Proof. split; reflexivity. Qed.

Lemma cooldownTick_iter (st : Insights) (k : nat) :
  Nat.iter k cooldownTick st
  = mkInsights (insight st) (loading st)
      (if bool_decide (0 < cooldown st)%Z
       then Z.max 0 (cooldown st - Z.of_nat k) else cooldown st).
Proof.
  induction k as [|k IH].
  - simpl. destruct st as [i l c]. simpl. f_equal.
    case_bool_decide; lia.
  - rewrite Nat.iter_succ, IH. unfold cooldownTick. simpl.
    repeat case_bool_decide; f_equal; lia.
Qed.

(** X18. After a quota exhaustion the cooldown of 60 goes down by one with
    each firing of the timer and stops at 0, the resting message staying in
    place as long as no fetch replaces it. Before the sixtieth firing the
    refresh button is disabled and a click makes no call; from the sixtieth
    on the button is enabled and a click calls the service again. The
    interval does not wait for the cooldown: whenever it fires it calls the
    service, and unless the quota is exhausted again it replaces the
    resting message while the cooldown goes on. *)
Theorem cooldown_expires_after_sixty (devices firstDevices : list Device.t)
    (n : Net) (k : nat) :
  let st := Nat.iter k cooldownTick (mkInsights RESTING_MESSAGE false 60) in
  insight st = RESTING_MESSAGE /\
  cooldown st = Z.max 0 (60 - Z.of_nat k) /\
  (k < 60 ->
   refreshDisabled st = true /\ clickRefresh devices st n = (st, n)) /\
  (60 <= k ->
   refreshDisabled st = false /\
   calls n < calls (snd (clickRefresh devices st n))) /\
  calls n < calls (snd (intervalFetch firstDevices st n)) /\
  (quotaExhausted (fst (getSystemInsights firstDevices n)) = true ->
   fst (intervalFetch firstDevices st n)
   = mkInsights RESTING_MESSAGE false 60) /\
  (quotaExhausted (fst (getSystemInsights firstDevices n)) = false ->
   fst (intervalFetch firstDevices st n)
   = mkInsights (orFallback (fst (getSystemInsights firstDevices n))) false
                (Z.max 0 (60 - Z.of_nat k))).
Proof.
  intros st. unfold st. rewrite cooldownTick_iter. simpl.
  assert (Hint : forall st0,
            intervalFetch firstDevices st0 n
            = (if quotaExhausted (fst (getSystemInsights firstDevices n))
               then mkInsights RESTING_MESSAGE false 60
               else mkInsights
                      (orFallback (fst (getSystemInsights firstDevices n)))
                      false (cooldown st0),
               snd (getSystemInsights firstDevices n))).
  { intros st0. unfold intervalFetch. apply fetchInsight_ready. simpl. lia. }
  split; [reflexivity|]. split; [reflexivity|].
  split; [|split; [|split; [|split]]].
  - intros Hk.
    assert (Hd : refreshDisabled
                   (mkInsights RESTING_MESSAGE false (Z.max 0 (60 - Z.of_nat k)))
                 = true).
    { unfold refreshDisabled. simpl. apply bool_decide_eq_true. lia. }
    split; [exact Hd|]. unfold clickRefresh. rewrite Hd. reflexivity.
  - intros Hk.
    assert (Hd : refreshDisabled
                   (mkInsights RESTING_MESSAGE false (Z.max 0 (60 - Z.of_nat k)))
                 = false).
    { unfold refreshDisabled. simpl. apply bool_decide_eq_false. lia. }
    split; [exact Hd|]. unfold clickRefresh. rewrite Hd.
    rewrite fetchInsight_ready by (simpl; lia). simpl.
    apply getSystemInsights_calls.
  - rewrite Hint. simpl. apply getSystemInsights_calls.
  - intros Hq. rewrite Hint, Hq. reflexivity.
  - intros Hq. rewrite Hint, Hq. reflexivity.
Qed.

(** ** The prompt summary *)

Lemma mathRound_percent (x : Q) :
  inRange x -> (0 <= mathRound x <= 100)%Z.
Proof.
  intros [H0 H1]. unfold mathRound.
  pose proof (Qfloor_le (x + 0.5)) as Hle.
  pose proof (Qlt_floor (x + 0.5)) as Hlt.
  set (f := Qfloor (x + 0.5)) in *.
  rewrite inject_Z_plus in Hlt. change (inject_Z 1) with 1%Q in Hlt.
  split.
  - assert (H : (inject_Z (-1) < inject_Z f)%Q).
    { change (inject_Z (-1)) with (-1)%Q. lra. }
    rewrite <- Zlt_Qlt in H. lia.
  - assert (H : (inject_Z f < inject_Z 101)%Q).
    { change (inject_Z 101) with 101%Q. lra. }
    rewrite <- Zlt_Qlt in H. lia.
Qed.

(** X19. The summary sent with the prompt has one entry per device, in
    order, with the device's name and status; a device without samples is
    entered with cpu 0 and ram 0; and when the samples of the devices are in
    [[0,100]], the rounded cpu and ram of every entry are whole percentages
    between 0 and 100. *)
Theorem prompt_summary_percentages (devices : list Device.t) :
  Forall (fun d => Forall sampleInRange (Device.metrics d)) devices ->
  map SummaryEntry.name (insightSummary devices) = map Device.name devices /\
  map SummaryEntry.status (insightSummary devices)
  = map Device.status devices /\
  Forall2 (fun d e => Device.metrics d = [] ->
                      SummaryEntry.cpu e = 0%Z /\ SummaryEntry.ram e = 0%Z)
          devices (insightSummary devices) /\
  Forall (fun e => (0 <= SummaryEntry.cpu e <= 100)%Z /\
                   (0 <= SummaryEntry.ram e <= 100)%Z)
         (insightSummary devices).
Proof.
  intros Hall. unfold insightSummary.
  split; [|split; [|split]].
  - rewrite map_map. reflexivity.
  - rewrite map_map. reflexivity.
  - apply Forall2_fmap_r, Forall_Forall2_diag, Forall_forall.
    intros d _ Hd. simpl. unfold latestOrZero. rewrite Hd. split; reflexivity.
  - apply Forall_forall. intros e He.
    apply list_elem_of_fmap in He as (d & -> & Hd). simpl.
    rewrite Forall_forall in Hall. specialize (Hall d Hd).
    split; apply mathRound_percent, latestOrZero_inRange;
      intros m Hm; rewrite Forall_forall in Hall;
      destruct (Hall m Hm) as (Hc & Hr & _); assumption.
Qed.

Lemma prompt_summary_percentages_witness :
  let devices := [deviceWith [hot 40; hot 99.5]; deviceWith []] in
  Forall (fun e => (0 <= SummaryEntry.cpu e <= 100)%Z /\
                   (0 <= SummaryEntry.ram e <= 100)%Z)
         (insightSummary devices) /\
  map SummaryEntry.cpu (insightSummary devices) = [100%Z; 0%Z].
Proof.
  intros devices.
  assert (H : Forall (fun d => Forall sampleInRange (Device.metrics d)) devices).
  { repeat constructor; simpl; discriminate. }
  destruct (prompt_summary_percentages devices H) as (_ & _ & _ & Hp).
  split; [exact Hp | reflexivity].
Defined.


(** ** The device list shown *)

Lemma insertBy_Permutation {A} (cmp : A -> A -> Z) (x : A) (l : list A) :
  insertBy cmp x l ≡ₚ x :: l.
Proof.
  induction l as [|y l IH]; simpl; [reflexivity|].
  case_bool_decide; [|reflexivity].
  rewrite IH. apply Permutation_swap.
Qed.

Lemma sortBy_Permutation {A} (cmp : A -> A -> Z) (l : list A) :
  sortBy cmp l ≡ₚ l.
Proof.
  unfold sortBy. induction l as [|x l IH]; simpl; [reflexivity|].
  rewrite insertBy_Permutation, IH. reflexivity.
Qed.

Lemma includes_empty (hay : string) : includes "" hay = true.
Proof. destruct hay; reflexivity. Qed.

(** X20. Whatever the sort key, the sort order, the locale and the way the
    browser lower-cases text, the list shown holds exactly the devices that
    pass the filter, each as often as it occurs in [devices]: a device is
    shown if and only if it is in [devices], matches the search text (the
    lower-cased text in its lower-cased name, or the text as typed in its
    ip) and has the selected status; with an empty search text and the
    status filter on ALL, all devices are shown. *)
Theorem processed_devices_are_the_matches
    (localeCompare : string -> string -> Z) (toLowerCase : string -> string)
    (devices : list Device.t) (search : string) (filterStatus : StatusFilter)
    (sortKey : SortKey) (sortOrder : SortOrder) :
  let shown :=
    processedDevices localeCompare toLowerCase devices search filterStatus
                     sortKey sortOrder in
  shown ≡ₚ List.filter (matchesFilter toLowerCase search filterStatus) devices /\
  (forall d, d ∈ shown <->
     d ∈ devices /\
     (includes (toLowerCase search) (toLowerCase (Device.name d)) = true \/
      includes search (Device.ip d) = true) /\
     (filterStatus = AllStatuses \/ filterStatus = OnlyStatus (Device.status d))) /\
  processedDevices localeCompare toLowerCase devices "" AllStatuses sortKey
                   sortOrder
  ≡ₚ devices.
Proof.
  intros shown.
  assert (Hp : shown
               ≡ₚ List.filter (matchesFilter toLowerCase search filterStatus)
                    devices)
    by apply sortBy_Permutation.
  split; [exact Hp|]. split.
  - intros d. rewrite Hp, list_elem_of_In, filter_In, <- list_elem_of_In.
    unfold matchesFilter. rewrite andb_true_iff, orb_true_iff.
    destruct filterStatus as [|s]; simpl.
    + intuition congruence.
    + rewrite bool_decide_eq_true. intuition congruence.
  - unfold processedDevices. rewrite sortBy_Permutation.
    replace (List.filter (matchesFilter toLowerCase "" AllStatuses) devices)
      with devices; [reflexivity|].
    assert (Hall : forall d, matchesFilter toLowerCase "" AllStatuses d = true).
    { intros d. unfold matchesFilter.
      rewrite (includes_empty (Device.ip d)), orb_true_r. reflexivity. }
    clear shown Hp. symmetry.
    induction devices as [|d l IH]; simpl; [reflexivity|].
    rewrite Hall. f_equal. exact IH.
Qed.

Lemma insertBy_Sorted {A} (cmp : A -> A -> Z) (x : A) (l : list A) :
  (forall a b, (0 < cmp a b)%Z -> (cmp b a <= 0)%Z) ->
  Sorted (fun a b => (cmp a b <= 0)%Z) l ->
  Sorted (fun a b => (cmp a b <= 0)%Z) (insertBy cmp x l).
Proof.
  intros Htot Hs. induction Hs as [|y l Hs IH Hhd]; simpl.
  - repeat constructor.
  - case_bool_decide as Hc.
    + constructor; [exact IH|].
      destruct Hhd as [|z l' Hyz]; simpl.
      * constructor. apply Htot, Hc.
      * case_bool_decide; constructor; [exact Hyz | apply Htot, Hc].
    + constructor; [constructor; assumption|]. constructor. lia.
Qed.

Lemma sortBy_Sorted {A} (cmp : A -> A -> Z) (l : list A) :
  (forall a b, (0 < cmp a b)%Z -> (cmp b a <= 0)%Z) ->
  Sorted (fun a b => (cmp a b <= 0)%Z) (sortBy cmp l).
Proof.
  intros Htot. unfold sortBy. induction l as [|x l IH]; simpl.
  - constructor.
  - apply insertBy_Sorted; assumption.
Qed.

Lemma Sorted_weaken {A} (R R' : A -> A -> Prop) (l : list A) :
  (forall a b, R a b -> R' a b) -> Sorted R l -> Sorted R' l.
Proof.
  intros HR Hs. induction Hs as [|x l Hs IH Hhd]; constructor; [exact IH|].
  destruct Hhd; constructor. auto.
Qed.

Lemma insertBy_stable {A} (cmp : A -> A -> Z) (P : A -> Prop)
    `{!forall a, Decision (P a)} (x : A) (l : list A) :
  (forall y, P x -> P y -> (cmp x y <= 0)%Z) ->
  filter P (insertBy cmp x l) = filter P (x :: l).
Proof.
  intros Heq. induction l as [|y l IH]; simpl; [reflexivity|].
  case_bool_decide as Hc; [|reflexivity].
  rewrite !filter_cons in *. rewrite IH.
  destruct (decide (P x)) as [Hx|Hx]; [|reflexivity].
  destruct (decide (P y)) as [Hy|Hy]; [|reflexivity].
  specialize (Heq y Hx Hy). lia.
Qed.

(** X21. Sorted by status, the list shown runs through the priorities
    ERROR, WARNING, ONLINE, OFFLINE in ascending order, and the other way
    round in descending order; sorted by update, it runs from the most
    recently updated device to the least in ascending order. The devices
    of one status keep the order they have in [devices], in either
    direction. *)
Theorem processed_devices_sorted (localeCompare : string -> string -> Z)
    (toLowerCase : string -> string) (devices : list Device.t)
    (search : string) (filterStatus : StatusFilter) :
  let shown :=
    processedDevices localeCompare toLowerCase devices search filterStatus in
  Sorted (fun a b => (statusPriority (Device.status a)
                      <= statusPriority (Device.status b))%Z)
         (shown ByStatus Asc) /\
  Sorted (fun a b => (statusPriority (Device.status b)
                      <= statusPriority (Device.status a))%Z)
         (shown ByStatus Desc) /\
  Sorted (fun a b => (Device.lastUpdate b <= Device.lastUpdate a)%Z)
         (shown ByUpdate Asc) /\
  Sorted (fun a b => (Device.lastUpdate a <= Device.lastUpdate b)%Z)
         (shown ByUpdate Desc) /\
  (forall (s : DeviceStatus) (order : SortOrder),
     filter (fun d => Device.status d = s) (shown ByStatus order)
     = filter (fun d => Device.status d = s)
              (List.filter (matchesFilter toLowerCase search filterStatus)
                           devices)).
Proof.
  intros shown. unfold shown, processedDevices.
  split; [|split; [|split; [|split]]].
  - eapply Sorted_weaken;
      [|apply (sortBy_Sorted (compareDevices localeCompare ByStatus Asc))].
    + intros a b; simpl; lia.
    + intros a b; simpl; lia.
  - eapply Sorted_weaken;
      [|apply (sortBy_Sorted (compareDevices localeCompare ByStatus Desc))].
    + intros a b; simpl; lia.
    + intros a b; simpl; lia.
  - eapply Sorted_weaken;
      [|apply (sortBy_Sorted (compareDevices localeCompare ByUpdate Asc))].
    + intros a b; simpl; lia.
    + intros a b; simpl; lia.
  - eapply Sorted_weaken;
      [|apply (sortBy_Sorted (compareDevices localeCompare ByUpdate Desc))].
    + intros a b; simpl; lia.
    + intros a b; simpl; lia.
  - intros s order.
    generalize (List.filter (matchesFilter toLowerCase search filterStatus)
                            devices) as l.
    unfold sortBy. induction l as [|x l IH]; simpl; [reflexivity|].
    rewrite insertBy_stable.
    + rewrite !filter_cons, IH. reflexivity.
    + intros y Hx Hy. simpl in Hx, Hy. destruct order; simpl;
        rewrite Hx, Hy; lia.
Qed.


Example shown_search_ignores_case :
  map Device.id
      (processedDevices (fun _ _ => 0%Z) asciiLowerCase
         [deviceWith []; Device.mk "dev-1" "EU-CENTRAL-DB-02" DATABASE ERROR
                           "Frankfurt" "192.168.7.9" [] 0]
         "srv" AllStatuses ByStatus Asc)
  = ["dev-0"].
Proof. reflexivity. Qed.

(** ** The fields of a created device *)

Lemma generateMetricPoint_rolls (prev : option MetricPoint.t) (w : World) :
  rolls (snd (generateMetricPoint prev w)) = rolls w.
Proof.
  destruct prev as [p|].
  - rewrite generateMetricPoint_drifted. reflexivity.
  - rewrite generateMetricPoint_seeded. reflexivity.
Qed.

Lemma backfill_rolls (n : nat) (lastMetric : option MetricPoint.t)
    (acc : list MetricPoint.t) (w : World) :
  rolls (snd (backfill n lastMetric acc w)) = rolls w.
Proof.
  revert lastMetric acc w. induction n as [|n IH]; intros lastMetric acc w;
    simpl; [reflexivity|].
  unfold bind. pose proof (generateMetricPoint_rolls lastMetric w) as Hm.
  destruct (generateMetricPoint lastMetric w) as [m w1]. simpl in Hm.
  rewrite IH. exact Hm.
Qed.

Lemma createDevice_fields (i : nat) (w : World) :
  exists k1 k2 k3,
    Device.location (fst (createDevice i w))
    = pick "" LOCATIONS (rolls w k1 * inject_Z (Z.of_nat (length LOCATIONS))) /\
    Device.ip (fst (createDevice i w))
    = "192.168." +:+ pretty (Qfloor (rolls w k2 * 254)) +:+ "."
        +:+ pretty (Qfloor (rolls w k3 * 254)) /\
    rolls (snd (createDevice i w)) = rolls w.
Proof.
  unfold createDevice, bind, random, dateNow, ret.
  set (w1 := mkWorld _ _ _ _).
  pose proof (backfill_rolls 20 None [] w1) as Hr.
  destruct (backfill 20 None [] w1) as [ms w2]. simpl in Hr. simpl.
  rewrite Hr.
  exists (S (cursor w2)), (S (S (cursor w2))), (S (S (S (cursor w2)))).
  repeat split.
Qed.

Lemma floor_scaled (r : Q) (n : Z) :
  (0 < n)%Z -> (0 <= r)%Q -> (r < 1)%Q ->
  (0 <= Qfloor (r * inject_Z n) < n)%Z.
Proof.
  intros Hn H0 H1.
  assert (Hn' : (0 < inject_Z n)%Q).
  { change 0%Q with (inject_Z 0). now rewrite <- Zlt_Qlt. }
  assert (Hlo : (0 <= r * inject_Z n)%Q) by (apply Qmult_le_0_compat; lra).
  assert (Hhi : (r * inject_Z n < inject_Z n)%Q).
  { rewrite <- (Qmult_1_l (inject_Z n)) at 2.
    apply Qmult_lt_compat_r; assumption. }
  split.
  - apply (Qfloor_resp_le 0) in Hlo. exact Hlo.
  - pose proof (Qfloor_le (r * inject_Z n)) as Hf.
    rewrite Zlt_Qlt. eapply Qle_lt_trans; eassumption.
Qed.

Lemma pick_elem {A} (dflt : A) (arr : list A) (r : Q) :
  arr <> [] -> (0 <= r)%Q -> (r < 1)%Q ->
  pick dflt arr (r * inject_Z (Z.of_nat (length arr))) ∈ arr.
Proof.
  intros Hne H0 H1. unfold pick.
  assert (Hlen : (0 < Z.of_nat (length arr))%Z).
  { destruct arr; [contradiction | simpl; lia]. }
  pose proof (floor_scaled r _ Hlen H0 H1) as [Hlo Hhi].
  destruct (lookup_lt_is_Some_2 arr
              (Z.to_nat (Qfloor (r * inject_Z (Z.of_nat (length arr))))))
    as [x Hx]; [lia|].
  rewrite Hx. simpl. apply list_elem_of_lookup. eauto.
Qed.

Lemma mapM_Forall2_rolls {A B} (f : A -> Eff B) (l : list A) (w : World) :
  (forall x w', rolls (snd (f x w')) = rolls w') ->
  Forall2 (fun x y => exists w', rolls w' = rolls w /\ y = fst (f x w'))
          l (fst (mapM f l w)).
Proof.
  intros Hf. remember (rolls w) as rs eqn:Hrs. revert w Hrs.
  induction l as [|x l IH]; intros w Hrs; simpl; [constructor|].
  unfold bind. pose proof (Hf x w) as Hx.
  destruct (f x w) as [y w1] eqn:Hy. simpl in Hx.
  specialize (IH w1 ltac:(congruence)).
  destruct (mapM f l w1) as [ys w2]. simpl in *.
  constructor; [|exact IH]. exists w. rewrite Hy. auto.
Qed.

(** X22. With rolls in [[0,1)], every device made by [createInitialDevices]
    has a location taken from [LOCATIONS] and an ip of the form
    192.168.a.b with a and b between 0 and 253: no index computed from a
    roll falls outside its table. *)
Theorem created_devices_are_well_formed (count : nat) (w : World) :
  fairRolls w ->
  Forall (fun d =>
            Device.location d ∈ LOCATIONS /\
            exists a b : Z,
              (0 <= a <= 253)%Z /\ (0 <= b <= 253)%Z /\
              Device.ip d = "192.168." +:+ pretty a +:+ "." +:+ pretty b)
         (fst (createInitialDevices count w)).
Proof.
  intros Hfair. unfold createInitialDevices.
  pose proof (mapM_Forall2_rolls createDevice (seq 0 count) w) as H.
  assert (Hr : forall i w', rolls (snd (createDevice i w')) = rolls w').
  { intros i w'. destruct (createDevice_fields i w') as (_ & _ & _ & _ & _ & Hr).
    exact Hr. }
  specialize (H Hr). clear Hr.
  induction H as [|i d l l' (w' & Hw' & ->) _ IH]; constructor; [|exact IH].
  destruct (createDevice_fields i w') as (k1 & k2 & k3 & -> & -> & _).
  rewrite Hw'. split.
  - apply pick_elem; [discriminate | apply Hfair ..].
  - exists (Qfloor (rolls w k2 * 254)), (Qfloor (rolls w k3 * 254)).
    pose proof (floor_scaled (rolls w k2) 254 ltac:(lia)
                  (proj1 (Hfair k2)) (proj2 (Hfair k2))) as H2.
    pose proof (floor_scaled (rolls w k3) 254 ltac:(lia)
                  (proj1 (Hfair k3)) (proj2 (Hfair k3))) as H3.
    change (inject_Z 254) with 254%Q in H2, H3.
    split; [lia|]. split; [lia | reflexivity].
Qed.

Lemma created_devices_are_well_formed_witness :
  Forall (fun d => Device.location d ∈ LOCATIONS)
         (fst (createInitialDevices 3 (constWorld 0.5 0))).
Proof.
  assert (Hfair : fairRolls (constWorld 0.5 0)).
  { intros k. simpl. split; [discriminate | reflexivity]. }
  eapply Forall_impl;
    [apply (created_devices_are_well_formed 3 (constWorld 0.5 0) Hfair)|].
  intros d [H _]. exact H.
Defined.


(** ** The mounted component *)

Lemma step_devices (st : AppState) (e : Event * World) :
  devices (step st e)
  = match fst e with
    | Tick => fst (updateDevices (devices st) (snd e))
    | _ => devices st
    end.
Proof.
  unfold step.
  destruct (alertEffect_frame (alertClock (snd e)) (handle (fst e) (snd e) st))
    as (-> & _).
  destruct (fst e); reflexivity.
Qed.

Lemma run_devices (st : AppState) (es : list (Event * World)) :
  devices (run st es)
  = fold_left (fun ds w => fst (updateDevices ds w)) (ticksOf es) (devices st).
Proof.
  revert st. induction es as [|[ev w] es IH]; intros st; simpl; [reflexivity|].
  rewrite IH, step_devices. simpl. unfold ticksOf; simpl.
  destruct ev; reflexivity.
Qed.

Lemma alertEffect_nonempty (now : nat -> MetricType -> Z) (st : AppState) :
  length (devices st) <> 0 ->
  alertEffect now st
  = mkApp (devices st) (mergeAlerts (activeAlerts st) (newAlertsOf st now))
          (dismissedAlertIds st) (cpuThreshold st) (ramThreshold st)
          (alertDuration st).
Proof.
  intros H. unfold alertEffect. case_bool_decide; [contradiction | reflexivity].
Qed.

Lemma mountApp_eq (w0 : World) :
  mountApp w0
  = mkApp (fst (createInitialDevices 16 w0))
          (mergeAlerts []
             (evaluate (num 90) (num 90) (num 60) ∅ (alertClock w0)
                       (fst (createInitialDevices 16 w0))))
          ∅ (num 90) (num 90) (num 60).
Proof.
  unfold mountApp. rewrite alertEffect_nonempty.
  - reflexivity.
  - cbn [devices]. unfold createInitialDevices.
    rewrite mapM_length, length_seq. discriminate.
Qed.

Lemma run_NoDup (st : AppState) (es : list (Event * World)) :
  NoDup (map Device.id (devices st)) -> NoDup (idsOf (activeAlerts st)) ->
  NoDup (idsOf (activeAlerts (run st es))).
Proof.
  revert st. induction es as [|e es IH]; intros st Hd Ha; simpl; [auto|].
  apply IH.
  - destruct (step_ids st e) as [-> _]. exact Hd.
  - apply step_NoDup; assumption.
Qed.

Lemma run_undismissed (st : AppState) (es : list (Event * World)) :
  undismissed st -> undismissed (run st es).
Proof.
  revert st. induction es as [|e es IH]; intros st H; simpl; [exact H|].
  apply IH. unfold step. apply alertEffect_undismissed, handle_undismissed, H.
Qed.

Lemma invariants_from_devices (ds0 : list Device.t)
    (now : nat -> MetricType -> Z) (es : list (Event * World)) :
  NoDup (map Device.id ds0) ->
  let st0 := mkApp ds0
               (mergeAlerts []
                  (evaluate (num 90) (num 90) (num 60) ∅ now ds0))
               ∅ (num 90) (num 90) (num 60) in
  devices (run st0 es)
  = fold_left (fun ds w => fst (updateDevices ds w)) (ticksOf es) ds0 /\
  NoDup (idsOf (activeAlerts (run st0 es))) /\
  undismissed (run st0 es).
Proof.
  intros Hnd st0. split; [apply run_devices|]. split.
  - apply run_NoDup; [exact Hnd|]. unfold st0. cbn [activeAlerts].
    apply mergeAlerts_NoDup; [constructor|].
    apply evaluate_ids_NoDup, Hnd.
  - apply run_undismissed. unfold undismissed, st0.
    cbn [activeAlerts dismissedAlertIds].
    apply Forall_forall. intros a _. apply not_elem_of_empty.
Qed.

Lemma createInitialDevices_ids (count : nat) (w0 : World) :
  map Device.id (fst (createInitialDevices count w0))
  = map deviceIdAt (seq 0 count).
Proof.
  unfold createInitialDevices.
  pose proof (mapM_Forall2 createDevice (seq 0 count) w0) as H.
  eapply Forall2_map_eq; [|exact H]. intros i d [w' ->].
  destruct (createDevice_identity i w') as [Hi _]. exact Hi.
Qed.

(** X23. After mounting and any sequence of ticks, dismissals and threshold
    changes, the devices of the component are the sixteen created at mount,
    advanced once per tick of the sequence and by nothing else; each has a
    history of 20 samples; no two active alerts share an id, and no active
    alert carries a dismissed id. *)
Theorem mounted_app_invariants (w0 : World) (es : list (Event * World)) :
  let st := run (mountApp w0) es in
  devices st = fleetAfter 16 w0 (ticksOf es) /\
  length (devices st) = 16 /\
  Forall (fun d => length (Device.metrics d) = 20) (devices st) /\
  NoDup (idsOf (activeAlerts st)) /\
  undismissed st.
Proof.
  intros st. unfold st. rewrite mountApp_eq.
  assert (Hnd0 : NoDup (map Device.id (fst (createInitialDevices 16 w0)))).
  { rewrite createInitialDevices_ids.
    apply NoDup_fmap_2; [|apply NoDup_seq]. intros i j. apply deviceIdAt_inj. }
  destruct (invariants_from_devices (fst (createInitialDevices 16 w0))
              (alertClock w0) es Hnd0) as (Hdev & Hnd & Hund).
  fold (fleetAfter 16 w0 (ticksOf es)) in Hdev.
  destruct (fleetAfter_ids 16 w0 (ticksOf es)) as [Hids _].
  split; [exact Hdev|]. rewrite Hdev. split; [|split; [|split]].
  - rewrite <- (length_map Device.id), Hids, length_map. apply length_seq.
  - apply fleetAfter_full.
  - exact Hnd.
  - exact Hund.
Qed.

(** ** Settings that silence the evaluator *)

Lemma pointsNeeded_above_history (dur : JsNumber) :
  (60 < toQ dur)%Q -> (20 < pointsNeeded dur)%Z.
Proof.
  intros H. destruct (pointsNeeded_ceiling dur) as (c & Hlt & Hle & ->).
  destruct (ceiling_bounds _ c 60 0 Hlt Hle) as [Hlo _].
  change (inject_Z 60) with 60%Q in Hlo. specialize (Hlo H). lia.
Qed.

Lemma evaluate_all_short (cpuT ramT dur : JsNumber) (dismissed : gset string)
    (now : nat -> MetricType -> Z) (ds : list Device.t) :
  Forall (fun d => (Z.of_nat (length (Device.metrics d)) < pointsNeeded dur)%Z)
         ds ->
  evaluate cpuT ramT dur dismissed now ds = [].
Proof.
  intros H. revert now. induction H as [|d l Hd _ IH]; intros now; simpl;
    [reflexivity|].
  rewrite (evaluateDevice_short _ _ _ _ _ _ Hd), IH. reflexivity.
Qed.

(** X24. The histories of the fleet never hold more than 20 samples, so a
    duration above 60 seconds asks for a window no device can fill: with
    such a duration the evaluator emits nothing for a fleet made by
    [createInitialDevices], however many ticks have passed and whatever the
    metrics and thresholds are. *)
Theorem long_duration_never_alerts (count : nat) (w0 : World)
    (ws : list World) (cpuT ramT dur : JsNumber) (dismissed : gset string)
    (now : nat -> MetricType -> Z) :
  (60 < toQ dur)%Q ->
  evaluate cpuT ramT dur dismissed now (fleetAfter count w0 ws) = [].
Proof.
  intros Hdur. apply evaluate_all_short.
  eapply Forall_impl; [apply fleetAfter_full|].
  intros d Hd. simpl in Hd. rewrite Hd.
  pose proof (pointsNeeded_above_history dur Hdur). lia.
Qed.

Lemma long_duration_never_alerts_witness :
  evaluate (num (-1)) (num (-1)) (mkNumber false [D6; D0; D5] (-1)) ∅
           (fun _ _ => 0%Z)
           (fleetAfter 2 (constWorld 0.5 0) [constWorld 0.5 3000])
  = [].
Proof.
  apply long_duration_never_alerts. reflexivity.
Defined.

Lemma evaluate_elem_latest (cpuT ramT dur : JsNumber) (dismissed : gset string)
    (now : nat -> MetricType -> Z) (ds : list Device.t) (a : Alert.t) :
  a ∈ evaluate cpuT ramT dur dismissed now ds ->
  exists d latest,
    d ∈ ds /\ latest ∈ Device.metrics d /\
    Alert.value a = reading (Alert.metricType a) latest /\
    (toQ (thresholdFor (Alert.metricType a) cpuT ramT) < Alert.value a)%Q.
Proof.
  intros Ha. apply evaluate_elem_device in Ha as (d & clock' & Hd & Ha).
  apply evaluateDevice_elem in Ha as (m & latest & Hlast & Hs & _ & ->).
  exists d, latest. simpl. split; [exact Hd|].
  split; [apply last_Some_elem_of, Hlast|]. split; [reflexivity|].
  unfold sustained in Hs. rewrite Forall_forall in Hs. apply Hs.
  unfold window. apply last_in_sliceLast; [|exact Hlast].
  pose proof (pointsNeeded_pos dur). lia.
Qed.

(** X25. Samples never exceed 100 and the comparison with the threshold is
    strict, so for devices whose samples are in [[0,100]] a CPU threshold
    of 100 or more silences every CPU alert and a RAM threshold of 100 or
    more every RAM alert, while every alert that is emitted reports a value
    in [[0,100]]. *)
Theorem threshold_of_hundred_never_alerts (cpuT ramT dur : JsNumber)
    (dismissed : gset string) (now : nat -> MetricType -> Z)
    (ds : list Device.t) :
  Forall (fun d => Forall sampleInRange (Device.metrics d)) ds ->
  let out := evaluate cpuT ramT dur dismissed now ds in
  ((100 <= toQ cpuT)%Q -> ~ emits CPU out) /\
  ((100 <= toQ ramT)%Q -> ~ emits RAM out) /\
  Forall (fun a => inRange (Alert.value a)) out.
Proof.
  intros Hall out.
  assert (Hval : forall a, a ∈ out ->
            inRange (Alert.value a) /\
            (toQ (thresholdFor (Alert.metricType a) cpuT ramT)
             < Alert.value a)%Q).
  { intros a Ha.
    apply evaluate_elem_latest in Ha as (d & latest & Hd & Hl & Hv & Hgt).
    split; [|exact Hgt]. rewrite Hv.
    rewrite Forall_forall in Hall. specialize (Hall d Hd).
    rewrite Forall_forall in Hall. destruct (Hall latest Hl) as (Hc & Hr & _).
    destruct (Alert.metricType a); assumption. }
  split; [|split].
  - intros Hc (a & Ha & Hm). destruct (Hval a Ha) as [[_ Hhi] Hgt].
    rewrite Hm in Hgt. simpl in Hgt. lra.
  - intros Hr (a & Ha & Hm). destruct (Hval a Ha) as [[_ Hhi] Hgt].
    rewrite Hm in Hgt. simpl in Hgt. lra.
  - apply Forall_forall. intros a Ha. apply Hval, Ha.
Qed.

Lemma threshold_of_hundred_never_alerts_witness :
  ~ emits CPU (evaluate (num 100) (num 90) (num 3) ∅ (fun _ _ => 0%Z)
                        [deviceWith [hot 100]]).
Proof.
  assert (H : Forall (fun d => Forall sampleInRange (Device.metrics d))
                     [deviceWith [hot 100]]).
  { repeat constructor; simpl; discriminate. }
  destruct (threshold_of_hundred_never_alerts (num 100) (num 90) (num 3) ∅
              (fun _ _ => 0%Z) _ H) as (Hc & _).
  apply Hc. discriminate.
Defined.

(** ** Dismissing a shown alert *)

Lemma filter_keeps_all {A} (P : A -> Prop) `{!forall x, Decision (P x)}
    (l : list A) :
  Forall P l -> filter P l = l.
Proof.
  induction 1 as [|x l Hx _ IH]; [reflexivity|].
  rewrite filter_cons_True by exact Hx. now rewrite IH.
Qed.

Lemma filter_out_unique (l : list Alert.t) (a : Alert.t) :
  NoDup (idsOf l) -> a ∈ l ->
  exists l1 l2,
    l = l1 ++ a :: l2 /\
    filter (fun b => Alert.id b ≠ Alert.id a) l = l1 ++ l2.
Proof.
  intros Hnd Ha. apply list_elem_of_split in Ha as (l1 & l2 & ->).
  exists l1, l2. split; [reflexivity|].
  unfold idsOf in Hnd. rewrite map_app in Hnd. simpl in Hnd.
  apply NoDup_app in Hnd as (_ & Hdisj & Hnd2).
  apply NoDup_cons in Hnd2 as [Hnot2 _].
  assert (H1 : filter (fun b => Alert.id b ≠ Alert.id a) l1 = l1).
  { apply filter_keeps_all. apply Forall_forall. intros b Hb Heq.
    apply (Hdisj (Alert.id b)); [apply list_elem_of_fmap; eauto|].
    rewrite Heq. left. }
  assert (H2 : filter (fun b => Alert.id b ≠ Alert.id a) l2 = l2).
  { apply filter_keeps_all. apply Forall_forall. intros b Hb Heq.
    apply Hnot2. rewrite <- Heq. apply list_elem_of_fmap; eauto. }
  rewrite filter_app, filter_cons, H1, H2.
  destruct (decide (Alert.id a ≠ Alert.id a)); [contradiction | reflexivity].
Qed.

(** X26. When the active alerts have pairwise distinct ids, the Dismiss
    button of a shown alert removes that alert and no other: the active
    list loses exactly the one entry, at its place, and the rest stays in
    order. *)
Theorem dismissing_shown_alert_removes_it_alone (st : AppState) (a : Alert.t) :
  NoDup (idsOf (activeAlerts st)) -> a ∈ activeAlerts st ->
  exists before after,
    activeAlerts st = before ++ a :: after /\
    activeAlerts (handleDismissAlert (Alert.id a) st) = before ++ after /\
    a ∉ before ++ after.
Proof.
  intros Hnd Ha.
  destruct (filter_out_unique _ a Hnd Ha) as (l1 & l2 & Heq & Hf).
  exists l1, l2. split; [exact Heq|]. split; [exact Hf|].
  intros Hin. rewrite <- Hf in Hin.
  apply list_elem_of_filter in Hin as [Hne _]. now apply Hne.
Qed.

Lemma dismissing_shown_alert_removes_it_alone_witness :
  let a := Alert.mk "dev-0-CPU-90-60" "dev-0" "US-WEST-SRV-01" CPU 95 1000 in
  let b := Alert.mk "dev-0-RAM-90-60" "dev-0" "US-WEST-SRV-01" RAM 97 1000 in
  let st := mkApp [] [a; b] ∅ (num 90) (num 90) (num 60) in
  exists before after,
    activeAlerts st = before ++ a :: after /\
    activeAlerts (handleDismissAlert (Alert.id a) st) = before ++ after /\
    a ∉ before ++ after.
Proof.
  intros a b st.
  apply (dismissing_shown_alert_removes_it_alone st a).
  - unfold st, a, b, idsOf. simpl.
    apply NoDup_cons. split; [|apply NoDup_singleton].
    intros H. apply list_elem_of_singleton in H. discriminate H.
  - left.
Defined.


(** ** Loosening the settings *)

Lemma pointsNeeded_mono (dur dur' : JsNumber) :
  (toQ dur' <= toQ dur)%Q -> (pointsNeeded dur' <= pointsNeeded dur)%Z.
Proof.
  intros H.
  destruct (pointsNeeded_ceiling dur) as (c & Hlt & Hle & ->).
  destruct (pointsNeeded_ceiling dur') as (c' & Hlt' & Hle' & ->).
  assert (Hcc : (3 * (c' - 1) < 3 * c)%Z).
  { rewrite Zlt_Qlt. eapply Qlt_le_trans; [exact Hlt'|].
    exact (Qle_trans _ _ _ H Hle). }
  lia.
Qed.

Lemma sliceLast_shorter {A} (P : A -> Prop) (n n' : nat) (l : list A) :
  n' <= n -> Forall P (sliceLast n l) -> Forall P (sliceLast n' l).
Proof.
  intros Hn H. unfold sliceLast in *.
  replace (length l - n') with ((length l - n) + (length l - n' - (length l - n)))
    by lia.
  rewrite <- drop_drop. apply Forall_drop, H.
Qed.

Lemma sustained_mono (m : MetricType) (t t' dur dur' : JsNumber)
    (d : Device.t) :
  (toQ t' <= toQ t)%Q -> (toQ dur' <= toQ dur)%Q ->
  sustained m t dur d -> sustained m t' dur' d.
Proof.
  intros Ht Hdur Hs. unfold sustained, window in *.
  apply (sliceLast_shorter _ (Z.to_nat (pointsNeeded dur))).
  - pose proof (pointsNeeded_mono dur dur' Hdur). lia.
  - eapply Forall_impl; [exact Hs|]. intros p Hp. simpl in Hp.
    eapply Qle_lt_trans; eassumption.
Qed.

(** X27. Loosening the settings never loses a breach: a device for which
    the evaluator emits an alert of some metric under given thresholds and
    duration also gets one of that metric under any lower or equal
    thresholds and any shorter or equal duration, provided the id of the
    new combination has not been dismissed. *)
Theorem looser_settings_keep_alerts
    (cpuT ramT dur cpuT' ramT' dur' : JsNumber) (dismissed : gset string)
    (now now' : MetricType -> Z) (d : Device.t) (m : MetricType) :
  (toQ cpuT' <= toQ cpuT)%Q -> (toQ ramT' <= toQ ramT)%Q ->
  (toQ dur' <= toQ dur)%Q ->
  alertId (Device.id d) m (thresholdFor m cpuT' ramT') dur' ∉ dismissed ->
  emits m (evaluateDevice cpuT ramT dur dismissed now d) ->
  emits m (evaluateDevice cpuT' ramT' dur' dismissed now' d).
Proof.
  intros Hc Hr Hdur Hfresh (a & Ha & Hm).
  assert (Hlen : (pointsNeeded dur <= Z.of_nat (length (Device.metrics d)))%Z).
  { destruct (Z_lt_le_dec (Z.of_nat (length (Device.metrics d)))
                          (pointsNeeded dur)) as [Hshort|Hok]; [|exact Hok].
    rewrite evaluateDevice_short in Ha by exact Hshort. inversion Ha. }
  apply evaluateDevice_elem in Ha as (m0 & latest & _ & Hs & _ & ->).
  simpl in Hm. subst m0.
  apply evaluateDevice_emits.
  - pose proof (pointsNeeded_mono dur dur' Hdur). lia.
  - split; [|exact Hfresh].
    eapply sustained_mono; [|exact Hdur|exact Hs].
    destruct m; simpl; assumption.
Qed.

Lemma looser_settings_keep_alerts_witness :
  emits CPU (evaluateDevice (num 80) (num 90) (num 3) ∅ (fun _ => 5%Z)
               (deviceWith [hot 95; hot 96])).
Proof.
  apply (looser_settings_keep_alerts (num 90) (num 90) (num 6)
           (num 80) (num 90) (num 3) ∅ (fun _ => 0%Z) (fun _ => 5%Z)
           (deviceWith [hot 95; hot 96]) CPU);
    [discriminate | discriminate | discriminate | apply not_elem_of_empty |].
  exists (Alert.mk "dev-0-CPU-90-6" "dev-0" "US-WEST-SRV-01" CPU 96 0).
  split; [|reflexivity]. vm_compute. left.
Defined.
